(** * Learning Path Graph Engine: model and verified properties

    A shallow embedding of the learning-path part of the repository:
    - [src/learningPath/nodeTypes.js]   (node type registry, validator),
    - [src/learningPath/static/editor.js] (graph mutations of the editor),
    - [src/learningPath/static/player.js] (both listings of the player),
    - the storage module (LearningPathStorage) and the xAPI client.

    The first part of the file holds the definitions, module by module,
    in the order of the sources; the second part holds the theorems. *)

From Stdlib Require Import Ascii.
From stdpp Require Import gmap strings list fin_maps pretty sorting.

#[local] Set Warnings "-register-all,-clear-no-such-hyp".
#[local] Open Scope Z_scope.

(* ===================================================================== *)
(** * Part I: definitions                                                 *)
(* ===================================================================== *)

(** ** JavaScript values

    The values that travel through the engine are parsed JSON.  Numbers
    are kept as integers below 2^53 in magnitude: every number the
    engine produces or compares (minutes, scores, counts) is one, a
    double holds such an integer exactly and prints it in plain
    decimal.  [undefined] is the absence of a value: an [option json]
    that is [None]. *)

(** [z] is an integer that a double holds exactly, and that prints as
    its decimal numeral. *)
Definition safe (z : Z) : bool := (- 2 ^ 53 <? z) && (z <? 2 ^ 53).

Record number := mkNumber {
  number_value : Z;
  number_safe : safe number_value = true;
}.

(** The number written [z] in the source. *)
Abbreviation num z := (mkNumber z eq_refl) (only parsing).

Inductive json :=
| JNull
| JBool (b : bool)
| JNum (n : number)
| JStr (s : string)
| JArr (l : list json)
| JObj (o : gmap string json).

(** ToBoolean. *)
Definition truthy (v : json) : bool :=
  match v with
  | JNull => false
  | JBool b => b
  | JNum n => negb (number_value n =? 0)
  | JStr s => negb (String.eqb s "")
  | JArr _ | JObj _ => true
  end.

(** ToBoolean of a possibly undefined value. *)
Definition truthy_opt (v : option json) : bool :=
  match v with Some v => truthy v | None => false end.

(** [a || b] where [b] is defined. *)
Definition js_or (a : option json) (b : json) : json :=
  match a with
  | Some v => if truthy v then v else b
  | None => b
  end.

(** [a || b] where both may be undefined. *)
Definition js_or_opt (a b : option json) : option json :=
  if truthy_opt a then a else b.

(** ToString, as a template literal applies it; [None] when it throws
    a [TypeError].  An array prints its elements joined by commas,
    [null] elements as the empty string.  An object prints as
    [[object Object]] through the [toString] it inherits; when parsed
    JSON gives it a property [toString] of its own, that property is
    no function, [valueOf] returns the object itself, and the
    conversion throws. *)
Fixpoint to_str (v : json) : option string :=
  match v with
  | JNull => Some "null"
  | JBool true => Some "true"
  | JBool false => Some "false"
  | JNum n => Some (pretty (number_value n))
  | JStr s => Some s
  | JArr l =>
      (fix join (l : list json) : option string :=
         match l with
         | [] => Some ""
         | [x] => match x with JNull => Some "" | _ => to_str x end
         | x :: r =>
             match (match x with JNull => Some "" | _ => to_str x end) with
             | Some first =>
                 match join r with
                 | Some rest => Some (first +:+ "," +:+ rest)
                 | None => None
                 end
             | None => None
             end
         end) l
  | JObj o =>
      if bool_decide (is_Some (o !! "toString")) then None
      else Some "[object Object]"
  end.

(** ToString of a possibly undefined value. *)
Definition to_str_opt (v : option json) : option string :=
  match v with Some v => to_str v | None => Some "undefined" end.

(** ** Arrays and objects

    An object that the code uses as a table is a finite map from the
    keys it owns.  Reading a key it does not own finds [undefined],
    except for the names that every object inherits, which find a
    function (for [__proto__], the prototype itself).  Writing under
    [__proto__] stores no property: it makes the value written the
    prototype of the table when that value is an object, and does
    nothing otherwise.  Each table below says what the code does at
    such names. *)

(** The property names every object inherits. *)
Definition inherited_names : list string :=
  [ "constructor"; "__proto__"; "hasOwnProperty"; "isPrototypeOf";
    "propertyIsEnumerable"; "toLocaleString"; "toString"; "valueOf";
    "__defineGetter__"; "__defineSetter__"; "__lookupGetter__";
    "__lookupSetter__" ].

(** [array.find(P)]. *)
Definition array_find {A} (P : A → Prop) `{!∀ x, Decision (P x)} (l : list A)
    : option A :=
  snd <$> list_find P l.

(** [array.findIndex(P)], [None] standing for [-1]. *)
Definition array_findIndex {A} (P : A → Prop) `{!∀ x, Decision (P x)} (l : list A)
    : option nat :=
  fst <$> list_find P l.

(** An object whose properties are enumerated: the properties in the
    order they were first written. *)
Module JsObject.
Abbreviation t A := (list (string * A)).

Section object.
Context {A : Type}.

(** [o[key]]. *)
Definition get (key : string) (o : t A) : option A :=
  match list_find (λ kv, kv.1 = key) o with
  | Some (_, kv) => Some kv.2
  | None => None
  end.

(** [o[key] = v]: an existing property keeps its place. *)
Fixpoint set (key : string) (v : A) (o : t A) : t A :=
  match o with
  | [] => [(key, v)]
  | (k, w) :: r => if String.eqb k key then (k, v) :: r else (k, w) :: set key v r
  end.

Definition digit (c : ascii) : option N :=
  let n := N_of_ascii c in
  if ((48 <=? n) && (n <=? 57))%N then Some (n - 48)%N else None.

Fixpoint digits (s : string) (acc : N) : option N :=
  match s with
  | EmptyString => Some acc
  | String c r =>
      match digit c with
      | Some d => digits r (10 * acc + d)%N
      | None => None
      end
  end.

(** The array index that [key] spells: a canonical decimal numeral
    below 2^32 - 1. *)
Definition array_index (key : string) : option N :=
  match key with
  | EmptyString => None
  | _ =>
      match digits key 0 with
      | Some n =>
          if String.eqb (pretty n) key && (n <? 4294967295)%N then Some n else None
      | None => None
      end
  end.

Definition index_le (a b : N * A) : Prop := (a.1 ≤ b.1)%N.

Definition index_le_dec (a b : N * A) : Decision (index_le a b) :=
  decide (a.1 ≤ b.1)%N.

(** [Object.values(o)]: the properties that spell array indices
    first, in ascending order, then the others in the order they
    were written. *)
Definition values (o : t A) : list A :=
  let indexed : list (N * A) :=
    omap (λ kv, (λ i, (i, kv.2)) <$> array_index kv.1) o in
  let named := filter (λ kv, array_index kv.1 = None) o in
  (@merge_sort _ index_le index_le_dec indexed).*2 ++ named.*2.
End object.
End JsObject.

(** ** The persisted graph: nodes and connections *)

Module PathNode.
(** [{ id, type, x, y, data }]; [data] may be missing. *)
Record t := mk {
  id : string;
  type : string;
  x : Z;
  y : Z;
  data : option (gmap string json);
}.

(** [node.data?.[name]]. *)
Definition field (name : string) (node : t) : option json :=
  match data node with Some d => d !! name | None => None end.
End PathNode.

Module Connection.
(** [{ from, fromPort, to, toPort }]. *)
Record t := mk {
  from : string;
  fromPort : string;
  to : string;
  toPort : string;
}.
End Connection.

#[global] Instance connection_eq_dec : EqDecision Connection.t.
Proof. solve_decision. Defined.

(** ** nodeTypes.js *)

Module FieldDefinition.
Record t := mk {
  name : string;
  type : string;
  label : string;
  required : bool;
  default : option json;
  options : list string;
}.
End FieldDefinition.

Module NodeType.
Record t := mk {
  id : string;
  label : string;
  category : string;
  color : string;
  icon : string;
  maxInstances : option nat;
  outputs : list string;
  inputs : list string;
  fields : list FieldDefinition.t;
}.
End NodeType.

Module NodeTypes.

(** Field definition shorthands for the table below. *)
Definition fld (name type label : string) : FieldDefinition.t :=
  FieldDefinition.mk name type label false None [].
Definition fld_req (name type label : string) : FieldDefinition.t :=
  FieldDefinition.mk name type label true None [].
Definition fld_def (name type label : string) (d : json) : FieldDefinition.t :=
  FieldDefinition.mk name type label false (Some d) [].
Definition fld_sel (name label : string) (opts : list string) (d : string)
  : FieldDefinition.t :=
  FieldDefinition.mk name "select" label false (Some (JStr d)) opts.

Definition start : NodeType.t :=
  NodeType.mk "start" "Start" "control" "#4CAF50" "▶" (Some 1%nat)
    ["next"] [] [].

Definition end_ : NodeType.t :=
  NodeType.mk "end" "End" "control" "#f44336" "⏹" (Some 1%nat)
    [] ["prev"]
    [ fld_def "completionMessage" "text" "Completion Message"
        (JStr "Congratulations! You have completed this learning path.") ].

Definition theory : NodeType.t :=
  NodeType.mk "theory" "Theory Unit" "content" "#2196F3" "📖" None
    ["next"] ["prev"]
    [ fld_req "title" "text" "Title";
      fld "description" "textarea" "Description";
      fld "content" "richtext" "Content (HTML)";
      fld_def "estimatedMinutes" "number" "Estimated Duration (min)" (JNum (num 15));
      fld_def "passingScore" "number" "Passing Score (%)" (JNum (num 0)) ].

Definition guidedLab : NodeType.t :=
  NodeType.mk "guidedLab" "Guided Lab" "content" "#FF9800" "🔬" None
    ["next"] ["prev"]
    [ fld_req "title" "text" "Title";
      fld "description" "textarea" "Description";
      fld "labUrl" "url" "Lab Environment URL";
      fld "instructions" "richtext" "Instructions (HTML)";
      fld_def "estimatedMinutes" "number" "Estimated Duration (min)" (JNum (num 45));
      fld_def "passingScore" "number" "Passing Score (%)" (JNum (num 70)) ].

Definition wiki : NodeType.t :=
  NodeType.mk "wiki" "Wiki Page" "content" "#9C27B0" "📝" None
    ["next"] ["prev"]
    [ fld_req "title" "text" "Title";
      fld "description" "textarea" "Description";
      fld "content" "richtext" "Wiki Content (HTML)";
      fld_def "estimatedMinutes" "number" "Estimated Duration (min)" (JNum (num 10)) ].

Definition url : NodeType.t :=
  NodeType.mk "url" "Website URL" "content" "#00BCD4" "🌐" None
    ["next"] ["prev"]
    [ fld_req "title" "text" "Title";
      fld "description" "textarea" "Description";
      fld_req "url" "url" "URL";
      fld_def "openInNewTab" "checkbox" "Open in new tab" (JBool false);
      fld_def "estimatedMinutes" "number" "Estimated Duration (min)" (JNum (num 10)) ].

Definition h5p : NodeType.t :=
  NodeType.mk "h5p" "H5P Package" "package" "#1a73e8" "🎓" None
    ["next"] ["prev"]
    [ fld_req "title" "text" "Title";
      fld "description" "textarea" "Description";
      fld "h5pContentId" "h5p-picker" "H5P Content";
      fld_def "estimatedMinutes" "number" "Estimated Duration (min)" (JNum (num 20));
      fld_def "passingScore" "number" "Passing Score (%)" (JNum (num 70)) ].

Definition cmi5 : NodeType.t :=
  NodeType.mk "cmi5" "cmi5 Package" "package" "#E91E63" "📦" None
    ["next"] ["prev"]
    [ fld_req "title" "text" "Title";
      fld "description" "textarea" "Description";
      fld_req "packageUrl" "url" "Package URL / Launch URL";
      fld "activityId" "text" "Activity ID (IRI)";
      fld_sel "moveOn" "Move On Criteria"
        ["Completed"; "Passed"; "CompletedOrPassed"; "CompletedAndPassed";
         "NotApplicable"] "CompletedOrPassed";
      fld_def "masteryScore" "number" "Mastery Score (%)" (JNum (num 70));
      fld_def "estimatedMinutes" "number" "Estimated Duration (min)" (JNum (num 30)) ].

Definition scorm : NodeType.t :=
  NodeType.mk "scorm" "SCORM Package" "package" "#795548" "📚" None
    ["next"] ["prev"]
    [ fld_req "title" "text" "Title";
      fld "description" "textarea" "Description";
      fld_req "packageUrl" "url" "SCORM Package URL / Launch URL";
      fld_sel "scormVersion" "SCORM Version"
        ["1.2"; "2004 3rd Edition"; "2004 4th Edition"] "2004 4th Edition";
      fld_def "passingScore" "number" "Passing Score (%)" (JNum (num 70));
      fld_def "estimatedMinutes" "number" "Estimated Duration (min)" (JNum (num 30)) ].

Definition gate : NodeType.t :=
  NodeType.mk "gate" "Gate (Pass Required)" "control" "#FF5722" "🚧" None
    ["pass"; "fail"] ["prev"]
    [ fld_def "title" "text" "Gate Title" (JStr "Progress Check");
      fld_def "requiredScore" "number" "Required Score (%)" (JNum (num 70)) ].

Definition branch : NodeType.t :=
  NodeType.mk "branch" "Branch" "control" "#607D8B" "🔀" None
    ["pathA"; "pathB"] ["prev"]
    [ fld "title" "text" "Branch Title";
      fld_sel "conditionType" "Condition"
        ["score-based"; "learner-choice"; "random"] "learner-choice";
      fld_def "pathALabel" "text" "Path A Label" (JStr "Path A");
      fld_def "pathBLabel" "text" "Path B Label" (JStr "Path B") ].

(** The registry, keyed by type id.  It is read as a map from the keys
    written above: a key it does not list is not found. *)
Definition NODE_TYPES : gmap string NodeType.t :=
  list_to_map
    [ ("start", start); ("end", end_); ("theory", theory);
      ("guidedLab", guidedLab); ("wiki", wiki); ("url", url);
      ("h5p", h5p); ("cmi5", cmi5); ("scorm", scorm);
      ("gate", gate); ("branch", branch) ].

(** [{ valid, errors }]. *)
Record ValidationResult := mkResult {
  valid : bool;
  errors : list string;
}.

(** [validateNode(node)]; [None] when it throws.  For a type name that
    every object inherits, [NODE_TYPES[node.type]] is a function (or
    the prototype), which is truthy and has no [fields]: the loop over
    [typeDef.fields] throws a [TypeError]. *)
Definition validateNode (node : PathNode.t) : option ValidationResult :=
  match NODE_TYPES !! PathNode.type node with
  | None =>
      if bool_decide (PathNode.type node ∈ inherited_names) then None
      else Some (mkResult false ["Unknown node type: " +:+ PathNode.type node])
  | Some typeDef =>
      let errors :=
        fold_left
          (λ errors field,
             if FieldDefinition.required field
                && negb (truthy_opt (PathNode.field (FieldDefinition.name field) node))
             then errors ++ [FieldDefinition.label field +:+ " is required"]
             else errors)
          (NodeType.fields typeDef) [] in
      Some (mkResult (length errors =? 0)%nat errors)
  end.

(** [node.data?.title || NODE_TYPES[node.type]?.label || node.id],
    as the message template prints it; [None] when printing it
    throws. *)
Definition node_label (node : PathNode.t) : option string :=
  let title := PathNode.field "title" node in
  if truthy_opt title then to_str_opt title
  else
    match NodeType.label <$> NODE_TYPES !! PathNode.type node with
    | Some l => Some (if negb (String.eqb l "") then l else PathNode.id node)
    | None => Some (PathNode.id node)
    end.

(** [validatePath(pathData)], on the destructured [{ nodes, connections }];
    either may be missing or [null].  [None] when it throws: in
    [validateNode], or in the template that prints the label of a node
    in front of each of its errors. *)
Definition validatePath
    (nodes : option (list PathNode.t))
    (connections : option (list Connection.t)) : option ValidationResult :=
  match nodes with
  | None | Some [] =>
      Some (mkResult false ["Learning path must have at least one node"])
  | Some nodes =>
      let errors : list string := [] in
      let startNodes := filter (λ n, PathNode.type n = "start") nodes in
      let endNodes := filter (λ n, PathNode.type n = "end") nodes in
      let errors :=
        if (length startNodes =? 0)%nat
        then errors ++ ["Learning path must have a Start node"] else errors in
      let errors :=
        if (1 <? length startNodes)%nat
        then errors ++ ["Learning path can only have one Start node"] else errors in
      let errors :=
        if (length endNodes =? 0)%nat
        then errors ++ ["Learning path must have an End node"] else errors in
      (* Validate individual nodes *)
      errors ←
        fold_left
          (λ (errors : option (list string)) node,
             errors ← errors;
             result ← validateNode node;
             if negb (valid result) then
               let label := node_label node in
               fold_left
                 (λ (errors : option (list string)) err,
                    errors ← errors;
                    label ← label;
                    Some (errors ++ ["[" +:+ label +:+ "] " +:+ err]))
                 (NodeTypes.errors result) (Some errors)
             else Some errors)
          nodes (Some errors);
      (* Validate connections reference valid nodes *)
      let nodeIds : gset string := list_to_set (PathNode.id <$> nodes) in
      let errors :=
        match connections with
        | Some connections =>
            fold_left
              (λ errors conn,
                 let errors :=
                   if bool_decide (Connection.from conn ∈ nodeIds) then errors
                   else errors ++ ["Connection references non-existent source node: "
                                     +:+ Connection.from conn] in
                 if bool_decide (Connection.to conn ∈ nodeIds) then errors
                 else errors ++ ["Connection references non-existent target node: "
                                   +:+ Connection.to conn])
              connections errors
        | None => errors
        end in
      Some (mkResult (length errors =? 0)%nat errors)
  end.

(** *** The validator's verdict, in words

    What the properties of the validator are stated with: how many
    nodes have a type, when a node passes [validateNode], when a
    connection has both its ends, and the error list of a path with
    nodes in closed form. *)

(** The number of nodes of type [ty]. *)
Definition count_type (ty : string) (nodes : list PathNode.t) : nat :=
  length (filter (λ n, PathNode.type n = ty) nodes).

(** The type of [node] is registered. *)
Definition known_type (node : PathNode.t) : Prop :=
  is_Some (NODE_TYPES !! PathNode.type node).

(** Every required field of [node] holds a truthy value. *)
Definition required_filled (node : PathNode.t) : Prop :=
  ∀ typeDef field,
    NODE_TYPES !! PathNode.type node = Some typeDef →
    field ∈ NodeType.fields typeDef →
    FieldDefinition.required field = true →
    truthy_opt (PathNode.field (FieldDefinition.name field) node) = true.

(** Both ends of [conn] are ids of [nodes]. *)
Definition endpoints_exist (nodes : list PathNode.t) (conn : Connection.t) : Prop :=
  Connection.from conn ∈ (PathNode.id <$> nodes) ∧
  Connection.to conn ∈ (PathNode.id <$> nodes).

(** The error a field of [node] contributes, if any. *)
Definition field_errors (node : PathNode.t) (field : FieldDefinition.t) : list string :=
  if FieldDefinition.required field
     && negb (truthy_opt (PathNode.field (FieldDefinition.name field) node))
  then [FieldDefinition.label field +:+ " is required"] else [].

(** The errors of [node], prefixed as [validatePath] prefixes them;
    none where the validator throws. *)
Definition node_errors (node : PathNode.t) : list string :=
  match validateNode node, node_label node with
  | Some result, Some label =>
      if negb (valid result)
      then (λ err, "[" +:+ label +:+ "] " +:+ err) <$> errors result
      else []
  | _, _ => []
  end.

(** The type of [node] is not a name that every object inherits:
    [validateNode] returns. *)
Definition own_type (node : PathNode.t) : Prop :=
  PathNode.type node ∉ inherited_names.

(** The label of [node] prints: its title is none of the values whose
    conversion to a string throws. *)
Definition labelled (node : PathNode.t) : Prop := is_Some (node_label node).

(** [validateNode] returns for [node] and finds it valid. *)
Definition passes (node : PathNode.t) : bool :=
  match validateNode node with
  | Some result => valid result
  | None => false
  end.

(** [validatePath] gets past [node]: its type is an own type, and its
    label prints if there is an error to report. *)
Definition checkable (node : PathNode.t) : Prop :=
  own_type node ∧ (passes node = true ∨ labelled node).

(** The errors of a connection whose ends are looked up in [nodeIds]. *)
Definition conn_errors (nodeIds : gset string) (conn : Connection.t) : list string :=
  (if bool_decide (Connection.from conn ∈ nodeIds) then []
   else ["Connection references non-existent source node: " +:+ Connection.from conn])
  ++
  (if bool_decide (Connection.to conn ∈ nodeIds) then []
   else ["Connection references non-existent target node: " +:+ Connection.to conn]).

(** The error list of a non-empty path, in closed form. *)
Definition path_errors (nodes : list PathNode.t)
    (connections : option (list Connection.t)) : list string :=
  (if (count_type "start" nodes =? 0)%nat
   then ["Learning path must have a Start node"] else [])
  ++ (if (1 <? count_type "start" nodes)%nat
      then ["Learning path can only have one Start node"] else [])
  ++ (if (count_type "end" nodes =? 0)%nat
      then ["Learning path must have an End node"] else [])
  ++ flat_map node_errors nodes
  ++ match connections with
     | Some conns => flat_map (conn_errors (list_to_set (PathNode.id <$> nodes))) conns
     | None => []
     end.

(** The conditions under which the validator accepts a path. *)
Definition accepted (nodes : list PathNode.t)
    (connections : option (list Connection.t)) : Prop :=
  count_type "start" nodes = 1%nat ∧
  (1 ≤ count_type "end" nodes)%nat ∧
  Forall known_type nodes ∧
  Forall required_filled nodes ∧
  (∀ conns, connections = Some conns → Forall (endpoints_exist nodes) conns).

End NodeTypes.

(** ** The path document held by the editor and the player *)

Module LrsConfig.
(** [{ endpoint, key, secret }]. *)
Record t := mk {
  endpoint : string;
  key : string;
  secret : string;
}.
End LrsConfig.

Module PathData.
(** The parsed [data-path] document.  [id] is missing until the path
    has been saved once. *)
Record t := mk {
  id : option string;
  title : string;
  description : string;
  status : string;
  nodes : list PathNode.t;
  connections : list Connection.t;
  lrsConfig : option LrsConfig.t;
}.

(** A bound on the rounds of a walk through the graph that never
    visits an id twice: the ids it can meet are node ids and
    connection targets. *)
Definition fuel (p : t) : nat := length (nodes p) + length (connections p) + 1.

Definition with_nodes (ns : list PathNode.t) (p : t) : t :=
  mk (id p) (title p) (description p) (status p) ns (connections p) (lrsConfig p).
Definition with_connections (cs : list Connection.t) (p : t) : t :=
  mk (id p) (title p) (description p) (status p) (nodes p) cs (lrsConfig p).
Definition with_lrsConfig (c : option LrsConfig.t) (p : t) : t :=
  mk (id p) (title p) (description p) (status p) (nodes p) (connections p) c.
End PathData.

(** ** static/editor.js: the graph model behind the visual editor

    Rendering ([renderCanvas], [renderNodes], [renderProperties],
    [renderMinimap]) writes to the page only and is left out; the toasts
    are kept, as the list of messages shown. *)

Module Editor.

Record t := mk {
  pathId : option string;
  pathData : PathData.t;
  nodeTypes : gmap string NodeType.t;
  selectedNodeId : option string;
  dirty : bool;
  toasts : list (string * string);
}.

Definition with_pathData (p : PathData.t) (st : t) : t :=
  mk (pathId st) p (nodeTypes st) (selectedNodeId st) (dirty st) (toasts st).
Definition with_dirty (d : bool) (st : t) : t :=
  mk (pathId st) (pathData st) (nodeTypes st) (selectedNodeId st) d (toasts st).

Definition nodes (st : t) : list PathNode.t := PathData.nodes (pathData st).
Definition connections (st : t) : list Connection.t :=
  PathData.connections (pathData st).

(** The state the script starts in, before a stored path or the node
    type table is loaded. *)
Definition initial : t :=
  mk None
     (PathData.mk None "Untitled Learning Path" "" "draft" [] [] None)
     ∅ None false [].

(** [toast(msg, type)]. *)
Definition toast (msg type : string) (st : t) : t :=
  mk (pathId st) (pathData st) (nodeTypes st) (selectedNodeId st) (dirty st)
     (toasts st ++ [(msg, type)]).

(** [selectNode(nodeId)]; [None] is [null]. *)
Definition selectNode (nodeId : option string) (st : t) : t :=
  mk (pathId st) (pathData st) (nodeTypes st) nodeId (dirty st) (toasts st).

(** [Math.round(x / 10) * 10] on an integer coordinate that a double
    holds exactly ([safe x]): [Math.round] rounds halves up, the
    quotient is within a sixteenth of [x / 10], and the product is
    exact.  Outside that range the program rounds the quotient and the
    product to doubles, and this definition does not say what it
    computes. *)
Definition snap (x : Z) : Z := ((x + 5) / 10) * 10.

(** One round of the defaults loop of [addNode]:
    [if (field.default !== undefined) node.data[field.name] = field.default]. *)
Definition set_default (data : gmap string json) (field : FieldDefinition.t)
    : gmap string json :=
  match FieldDefinition.default field with
  | Some d => <[FieldDefinition.name field := d]> data
  | None => data
  end.

Definition default_data (fields : list FieldDefinition.t) : gmap string json :=
  fold_left set_default fields ∅.

(** ['node_' + Date.now() + '_' + Math.random().toString(36).substr(2, 6)];
    [now] is the clock's reading and [rnd] the random suffix. *)
Definition new_node_id (now : N) (rnd : string) : string :=
  "node_" +:+ pretty now +:+ "_" +:+ rnd.

(** The second half of [addNode]: the node is built, given the
    defaults of [nt.fields || []], pushed and selected. *)
Definition push_node (now : N) (rnd : string) (type : string) (x y : Z)
    (fields : list FieldDefinition.t) (st : t) : t :=
  let node :=
    PathNode.mk (new_node_id now rnd) type (snap x) (snap y)
      (Some (default_data fields)) in
  selectNode (Some (PathNode.id node))
    (with_dirty true
       (with_pathData
          (PathData.with_nodes (nodes st ++ [node]) (pathData st)) st)).

(** [addNode(type, x, y)].  For a name that every object inherits,
    [nodeTypes[type]] is a function: truthy, with neither
    [maxInstances] nor [fields]. *)
Definition addNode (now : N) (rnd : string) (type : string) (x y : Z) (st : t) : t :=
  match nodeTypes st !! type with
  | None =>
      if bool_decide (type ∈ inherited_names) then push_node now rnd type x y [] st
      else st
  | Some nt =>
      (* Check max instances *)
      match NodeType.maxInstances nt with
      | Some max =>
          let count := length (filter (λ n, PathNode.type n = type) (nodes st)) in
          if negb (max =? 0)%nat && (max <=? count)%nat
          then toast ("Only " +:+ pretty max +:+ " " +:+ NodeType.label nt
                        +:+ " node(s) allowed") "error" st
          else push_node now rnd type x y (NodeType.fields nt) st
      | None => push_node now rnd type x y (NodeType.fields nt) st
      end
  end.

(** [deleteNode(nodeId)]. *)
Definition deleteNode (nodeId : string) (st : t) : t :=
  let st :=
    with_pathData
      (PathData.with_nodes
         (filter (λ n, PathNode.id n ≠ nodeId) (nodes st)) (pathData st)) st in
  let st :=
    with_pathData
      (PathData.with_connections
         (filter (λ c, Connection.from c ≠ nodeId ∧ Connection.to c ≠ nodeId)
            (connections st)) (pathData st)) st in
  let st :=
    if bool_decide (selectedNodeId st = Some nodeId) then selectNode None st else st in
  with_dirty true st.

(** [addConnection(fromId, fromPort, toId, toPort)]. *)
Definition addConnection (fromId fromPort toId toPort : string) (st : t) : t :=
  (* Prevent duplicate connections *)
  let exists_ :=
    existsb
      (λ c, bool_decide (Connection.from c = fromId ∧ Connection.fromPort c = fromPort
                         ∧ Connection.to c = toId ∧ Connection.toPort c = toPort))
      (connections st) in
  if exists_ then st
  else
    (* Prevent multiple connections to the same input port *)
    let inputTaken :=
      existsb
        (λ c, bool_decide (Connection.to c = toId ∧ Connection.toPort c = toPort))
        (connections st) in
    if inputTaken then toast "Input port already connected" "error" st
    else
      with_dirty true
        (with_pathData
           (PathData.with_connections
              (connections st ++ [Connection.mk fromId fromPort toId toPort])
              (pathData st)) st).

(** [removeConnection(fromId, fromPort, toId, toPort)]. *)
Definition removeConnection (fromId fromPort toId toPort : string) (st : t) : t :=
  with_dirty true
    (with_pathData
       (PathData.with_connections
          (filter
             (λ c, ¬ (Connection.from c = fromId ∧ Connection.fromPort c = fromPort
                      ∧ Connection.to c = toId ∧ Connection.toPort c = toPort))
             (connections st)) (pathData st)) st).

(** Writes through the first node of the array that satisfies [P], as
    [nodes.find(...)] followed by an assignment to the node found. *)
Fixpoint update_found (P : PathNode.t → bool) (f : PathNode.t → PathNode.t)
    (l : list PathNode.t) : list PathNode.t :=
  match l with
  | [] => []
  | n :: l => if P n then f n :: l else n :: update_found P f l
  end.

(** [updateField(fieldName, value)], on the selected node. *)
Definition updateField (fieldName : string) (value : json) (st : t) : t :=
  match selectedNodeId st with
  | None => st
  | Some sel =>
      if existsb (λ n, bool_decide (PathNode.id n = sel)) (nodes st) then
        let write (n : PathNode.t) :=
          PathNode.mk (PathNode.id n) (PathNode.type n) (PathNode.x n) (PathNode.y n)
            (Some (<[fieldName := value]>
                     (match PathNode.data n with Some d => d | None => ∅ end))) in
        with_dirty true
          (with_pathData
             (PathData.with_nodes
                (update_found (λ n, bool_decide (PathNode.id n = sel)) write (nodes st))
                (pathData st)) st)
      else st
  end.

(** The dragging branch of [onSvgMouseMove]: the dragged node follows
    the pointer, snapped to the grid. *)
Definition moveNode (nodeId : string) (x y : Z) (st : t) : t :=
  if existsb (λ n, bool_decide (PathNode.id n = nodeId)) (nodes st) then
    let move (n : PathNode.t) :=
      PathNode.mk (PathNode.id n) (PathNode.type n) (snap x) (snap y)
        (PathNode.data n) in
    with_dirty true
      (with_pathData
         (PathData.with_nodes
            (update_found (λ n, bool_decide (PathNode.id n = nodeId)) move (nodes st))
            (pathData st)) st)
  else st.

(** [saveLrs()], with the three inputs' trimmed values. *)
Definition saveLrs (endpoint key secret : string) (st : t) : t :=
  toast "LRS configuration updated" "success"
    (with_dirty true
       (with_pathData
          (PathData.with_lrsConfig (Some (LrsConfig.mk endpoint key secret))
             (pathData st)) st)).

(** The mutations the editor's handlers perform on the graph. *)
Inductive op :=
| AddNode (now : N) (rnd : string) (type : string) (x y : Z)
| DeleteNode (nodeId : string)
| SelectNode (nodeId : option string)
| AddConnection (fromId fromPort toId toPort : string)
| RemoveConnection (fromId fromPort toId toPort : string)
| UpdateField (fieldName : string) (value : json)
| MoveNode (nodeId : string) (x y : Z)
| SaveLrs (endpoint key secret : string).

Definition apply (o : op) (st : t) : t :=
  match o with
  | AddNode now rnd type x y => addNode now rnd type x y st
  | DeleteNode nodeId => deleteNode nodeId st
  | SelectNode nodeId => selectNode nodeId st
  | AddConnection f fp t tp => addConnection f fp t tp st
  | RemoveConnection f fp t tp => removeConnection f fp t tp st
  | UpdateField name value => updateField name value st
  | MoveNode nodeId x y => moveNode nodeId x y st
  | SaveLrs e k s => saveLrs e k s st
  end.

(** The state after a sequence of mutations, first to last. *)
Definition run (ops : list op) (st : t) : t :=
  fold_left (λ st o, apply o st) ops st.

(** *** Vocabulary of the properties *)

(** At most one connection ends at any [(to, toPort)]. *)
Definition single_predecessor (st : t) : Prop :=
  NoDup ((λ c, (Connection.to c, Connection.toPort c)) <$> connections st).

(** Some connection already ends at [(toId, toPort)]. *)
Definition occupied (st : t) (toId toPort : string) : Prop :=
  ∃ c, c ∈ connections st ∧ Connection.to c = toId ∧ Connection.toPort c = toPort.

(** The names of the fields a type declares. *)
Definition field_names (fields : list FieldDefinition.t) : list string :=
  FieldDefinition.name <$> fields.

(** The instance cap of [nt] is reached in [st]. *)
Definition cap_reached (type : string) (nt : NodeType.t) (st : t) : Prop :=
  ∃ max, NodeType.maxInstances nt = Some max ∧ (0 < max)%nat
         ∧ (max ≤ length (filter (λ n, PathNode.type n = type) (nodes st)))%nat.

End Editor.

(** ** static/player.js, first listing: [buildNodeOrder] and its session

    The page itself (sidebar, content pane, buttons) is left out; the
    progress bar is kept as the fraction last written to it, and the
    xAPI posts as the list of [(verb, node id)] asked for. *)

Module PlayerA.

(** [walk] is the [while] loop of [buildNodeOrder]; each round adds a
    node id to [visited], and [fuel] bounds the rounds. *)
Fixpoint walk (fuel : nat) (nodes : list PathNode.t) (connections : list Connection.t)
    (visited : gset string) (ordered : list PathNode.t)
    (current : option PathNode.t) : option (list PathNode.t) :=
  match current with
  | None => Some ordered
  | Some current =>
      if bool_decide (PathNode.id current ∈ visited) then Some ordered
      else
        match fuel with
        | O => None
        | S fuel =>
            let visited := {[PathNode.id current]} ∪ visited in
            (* Don't include start/end in the playable nodes list unless
               they have content *)
            let ordered :=
              if bool_decide (PathNode.type current ≠ "start")
              then ordered ++ [current] else ordered in
            (* Follow the first output connection (next, pass, pathA, etc.) *)
            let outConns :=
              filter (λ c, Connection.from c = PathNode.id current) connections in
            match outConns with
            | [] => Some ordered
            | nextConn :: _ =>
                walk fuel nodes connections visited ordered
                  (array_find (λ n, PathNode.id n = Connection.to nextConn) nodes)
            end
        end
  end.

(** [buildNodeOrder(data)]; [None] only if the loop ran out of fuel. *)
Definition buildNodeOrder (data : PathData.t) : option (list PathNode.t) :=
  let nodes := PathData.nodes data in
  let connections := PathData.connections data in
  match array_find (λ n, PathNode.type n = "start") nodes with
  | None =>
      Some (filter (λ n, PathNode.type n ≠ "start" ∧ PathNode.type n ≠ "end") nodes)
  | Some startNode =>
      ordered ← walk (PathData.fuel data) nodes connections ∅ [] (Some startNode);
      (* If no traversal possible, fallback to all content nodes *)
      if (length ordered =? 0)%nat
      then Some (filter (λ n, PathNode.type n ≠ "start") nodes)
      else Some ordered
  end.

(** [{ status: 'pending'|'active'|'completed', score, startTime }]. *)
Inductive status := Pending | Active | Completed.

#[global] Instance status_eq_dec : EqDecision status.
Proof. solve_decision. Defined.

Record NodeState := mkState {
  state_status : status;
  score : option Z;
  startTime : option string;
}.

(** The fraction the progress bar shows: its width is
    [completed / total * 100] percent, and 0 when [total] is 0. *)
Record Progress := mkProgress {
  completed : nat;
  total : nat;
}.

(** The session.  [nodeStates] gives the record of each id it was
    written under.  The record written under the id [__proto__] is no
    property of the table: the assignment makes it the prototype of
    the table, where reading [nodeStates['__proto__']] finds it again;
    so it is read and updated like the others, and only
    [Object.values] tells it apart. *)
Record t := mk {
  pathData : PathData.t;
  orderedNodes : list PathNode.t;
  currentIndex : nat;
  nodeStates : gmap string NodeState;
  hasLrs : bool;
  progressBar : option Progress;
  sent : list (string * string);
}.

Definition with_nodeStates (m : gmap string NodeState) (st : t) : t :=
  mk (pathData st) (orderedNodes st) (currentIndex st) m (hasLrs st)
     (progressBar st) (sent st).
Definition with_currentIndex (i : nat) (st : t) : t :=
  mk (pathData st) (orderedNodes st) i (nodeStates st) (hasLrs st)
     (progressBar st) (sent st).
Definition with_progressBar (p : option Progress) (st : t) : t :=
  mk (pathData st) (orderedNodes st) (currentIndex st) (nodeStates st) (hasLrs st)
     p (sent st).

(** [sendXapi(verb, node, result)]: the post is asked for when a record
    store is configured and the path has an id. *)
Definition sendXapi (verb : string) (node : PathNode.t) (st : t) : t :=
  if negb (hasLrs st)
     || match PathData.id (pathData st) with
        | Some id => String.eqb id ""
        | None => true
        end
  then st
  else mk (pathData st) (orderedNodes st) (currentIndex st) (nodeStates st)
          (hasLrs st) (progressBar st) (sent st ++ [(verb, PathNode.id node)]).

Definition set_status (s : status) (ns : NodeState) : NodeState :=
  mkState s (score ns) (startTime ns).
Definition set_startTime (now : string) (ns : NodeState) : NodeState :=
  mkState (state_status ns) (score ns) (Some now).

(** [markCompleted(node)]. *)
Definition markCompleted (node : option PathNode.t) (st : t) : t :=
  match node with
  | None => st
  | Some node =>
      sendXapi "completed" node
        (with_nodeStates
           (alter (set_status Completed) (PathNode.id node) (nodeStates st)) st)
  end.

(** [Object.values(nodeStates)], in some order: the records of the
    properties the table owns, which leaves out the one kept as its
    prototype. *)
Definition own_values (nodeStates : gmap string NodeState) : list NodeState :=
  (map_to_list (base.delete "__proto__" nodeStates)).*2.

(** [updateProgress()]. *)
Definition updateProgress (st : t) : t :=
  let completed :=
    length (filter (λ s, state_status s = Completed) (own_values (nodeStates st))) in
  with_progressBar (Some (mkProgress completed (length (orderedNodes st)))) st.

(** [renderContent(node)], as far as it changes the session: the End
    node is marked completed on display. *)
Definition renderContent (node : PathNode.t) (st : t) : t :=
  if bool_decide (PathNode.type node = "end")
  then sendXapi "completed" node (markCompleted (Some node) st)
  else st.

(** [navigateTo(index)]; [now] is the clock's reading. *)
Definition navigateTo (now : string) (index : Z) (st : t) : t :=
  if (index <? 0) || (Z.of_nat (length (orderedNodes st)) <=? index) then st
  else
    let index := Z.to_nat index in
    (* Mark previous node as completed if it was active *)
    let previous := orderedNodes st !! currentIndex st in
    let st :=
      if bool_decide (currentIndex st ≠ index)
         && bool_decide
              (state_status <$> (previous ≫= λ n, nodeStates st !! PathNode.id n)
               = Some Active)
      then markCompleted previous st else st in
    let st := with_currentIndex index st in
    match orderedNodes st !! index with
    | None => st
    | Some node =>
        (* Mark as active *)
        let st :=
          with_nodeStates
            (alter (λ ns, set_startTime now (set_status Active ns))
               (PathNode.id node) (nodeStates st)) st in
        (* Send xAPI launched statement *)
        let st := sendXapi "launched" node st in
        let st := renderContent node st in
        updateProgress st
    end.

(** [next()]. *)
Definition next (now : string) (st : t) : t :=
  let st := markCompleted (orderedNodes st !! currentIndex st) st in
  if (Z.of_nat (currentIndex st) <? Z.of_nat (length (orderedNodes st)) - 1)
  then navigateTo now (Z.of_nat (currentIndex st) + 1) st
  else st.

(** [prev()]. *)
Definition prev (now : string) (st : t) : t :=
  if (0 <? currentIndex st)%nat
  then navigateTo now (Z.of_nat (currentIndex st) - 1) st
  else st.

(** [passGate()]. *)
Definition passGate (now : string) (st : t) : t := next now st.

(** [chooseBranch(portName)]. *)
Definition chooseBranch (now : string) (portName : string) (st : t) : t :=
  match orderedNodes st !! currentIndex st with
  | None => st
  | Some node =>
      let conn :=
        array_find
          (λ c, Connection.from c = PathNode.id node ∧ Connection.fromPort c = portName)
          (PathData.connections (pathData st)) in
      let target :=
        conn ≫= λ c,
          array_findIndex (λ n, PathNode.id n = Connection.to c) (orderedNodes st) in
      match target with
      | Some targetIdx =>
          navigateTo now (Z.of_nat targetIdx) (markCompleted (Some node) st)
      | None => next now st   (* Fallback: just go next *)
      end
  end.

(** The [DOMContentLoaded] handler, once the path is parsed, up to the
    first navigation. *)
Definition load (data : PathData.t) : option t :=
  orderedNodes ← buildNodeOrder data;
  let hasLrs :=
    match PathData.lrsConfig data with
    | Some c => negb (String.eqb (LrsConfig.endpoint c) "")
    | None => false
    end in
  (* Init node states *)
  let nodeStates :=
    fold_left (λ m node, <[PathNode.id node := mkState Pending None None]> m)
      orderedNodes ∅ in
  Some (mk data orderedNodes 0 nodeStates hasLrs None []).

(** The whole handler: it ends with [navigateTo(0)]. *)
Definition start (now : string) (data : PathData.t) : option t :=
  navigateTo now 0 <$> load data.

(** What the learner can do: the buttons, and a click in the sidebar. *)
Inductive event :=
| Next
| Prev
| PassGate
| ChooseBranch (portName : string)
| Select (index : nat).

Definition handle (now : string) (e : event) (st : t) : t :=
  match e with
  | Next => next now st
  | Prev => prev now st
  | PassGate => passGate now st
  | ChooseBranch portName => chooseBranch now portName st
  | Select index => navigateTo now (Z.of_nat index) st
  end.

(** The session after a sequence of events, each with the time it
    happened at. *)
Definition run (events : list (string * event)) (st : t) : t :=
  fold_left (λ st e, handle e.1 e.2 st) events st.

(** *** Vocabulary of the properties *)

(** The status of an order entry. *)
Definition status_of (st : t) (node : PathNode.t) : option status :=
  state_status <$> nodeStates st !! PathNode.id node.

(** The order and the keys of the state table never change. *)
Definition same_shape (st st' : t) : Prop :=
  orderedNodes st' = orderedNodes st ∧ dom (nodeStates st') = dom (nodeStates st).

(** What a loaded session keeps true. *)
Definition well_keyed (st : t) : Prop :=
  NoDup (PathNode.id <$> orderedNodes st)
  ∧ Forall (λ n, PathNode.type n ≠ "start") (orderedNodes st)
  ∧ dom (nodeStates st) = list_to_set (PathNode.id <$> orderedNodes st).

End PlayerA.

(** ** static/player.js, second listing: [buildTraversalOrder] and its
    session *)

Module PlayerB.

(** What [buildTraversalOrder] comes to. *)
Inductive walked :=
| Ordered (orderedNodes : list PathNode.t)
    (** it returns, leaving this in [orderedNodes] *)
| Escapes
    (** it reads or writes a table through its prototype: from there on
        it works with objects that the whole page shares, which the
        model does not hold *)
| OutOfFuel.
    (** the loop of the model ran out of rounds *)

(** The properties [nodeMap] owns after [nodeMap[n.id] = n] for every
    node: the last node listed under an id is the one kept. *)
Definition node_table (nodes : list PathNode.t) : gmap string PathNode.t :=
  fold_left (λ m n, <[PathNode.id n := n]> m) nodes ∅.

(** [nodeMap].  A node whose id is [__proto__] is not kept as a
    property: the assignment makes that node the prototype of the
    table, and reading a key the table does not own then finds the
    properties of the node; [None] stands for that.  Under any other
    id, also one that every object inherits, the assignment makes a
    property of the table. *)
Definition nodeMap (nodes : list PathNode.t) : option (gmap string PathNode.t) :=
  if bool_decide ("__proto__" ∈ (PathNode.id <$> nodes)) then None
  else Some (node_table nodes).

(** The properties [nextMap] owns after the loop over the connections,
    when every source id gets a table of its own.  A port named
    [__proto__] is written nowhere: the target is a string, which the
    setter of [__proto__] ignores. *)
Definition next_table (connections : list Connection.t)
    : gmap string (JsObject.t string) :=
  fold_left
    (λ m conn,
       let outs := match m !! Connection.from conn with Some o => o | None => [] end in
       <[Connection.from conn :=
           if String.eqb (Connection.fromPort conn) "__proto__" then outs
           else JsObject.set (Connection.fromPort conn) (Connection.to conn) outs]> m)
    connections ∅.

(** [nextMap]: [fromId -> { portName: toId }].  For a source id that
    every object inherits, [nextMap[conn.from]] is truthy before any
    table is made: it is an inherited function or, for [__proto__],
    the prototype of all objects, and the port is written on that
    shared object; [None] stands for that. *)
Definition nextMap (connections : list Connection.t)
    : option (gmap string (JsObject.t string)) :=
  if existsb (λ c, bool_decide (Connection.from c ∈ inherited_names)) connections
  then None
  else Some (next_table connections).

(** An id read in a condition: the empty string is falsy, as is a
    property that is not there. *)
Definition truthy_id (v : option string) : option string :=
  match v with
  | Some id => if String.eqb id "" then None else Some id
  | None => None
  end.

(** [outs.next || outs.pass || outs.pathA || Object.values(outs)[0] || null]. *)
Definition follow (outs : JsObject.t string) : option string :=
  match truthy_id (JsObject.get "next" outs) with
  | Some id => Some id
  | None =>
      match truthy_id (JsObject.get "pass" outs) with
      | Some id => Some id
      | None =>
          match truthy_id (JsObject.get "pathA" outs) with
          | Some id => Some id
          | None => truthy_id (head (JsObject.values outs))
          end
      end
  end.

(** [const node = nodeMap[current]; if (node) orderedNodes.push(node)].
    For an id that no node has and every object inherits, what is
    found and pushed is an inherited function, not a node: [None]. *)
Definition push_found (nodeMap : gmap string PathNode.t) (current : string)
    (orderedNodes : list PathNode.t) : option (list PathNode.t) :=
  match nodeMap !! current with
  | Some node => Some (orderedNodes ++ [node])
  | None =>
      if bool_decide (current ∈ inherited_names) then None else Some orderedNodes
  end.

(** The [while] loop of [buildTraversalOrder]; each round adds an id to
    [visited], and [fuel] bounds the rounds.  Where [nextMap] owns no
    table for [current] the loop ends: [outs] is [undefined], or an
    inherited function, which has none of the ports and no value to
    list. *)
Fixpoint walk (fuel : nat) (nodeMap : gmap string PathNode.t)
    (nextMap : gmap string (JsObject.t string))
    (visited : gset string) (orderedNodes : list PathNode.t)
    (current : option string) : walked :=
  match truthy_id current with
  | None => Ordered orderedNodes
  | Some current =>
      if bool_decide (current ∈ visited) then Ordered orderedNodes
      else
        match fuel with
        | O => OutOfFuel
        | S fuel =>
            let visited := {[current]} ∪ visited in
            match push_found nodeMap current orderedNodes with
            | None => Escapes
            | Some orderedNodes =>
                (* Follow the first available output *)
                match nextMap !! current with
                | None => Ordered orderedNodes
                | Some outs =>
                    walk fuel nodeMap nextMap visited orderedNodes (follow outs)
                end
            end
        end
  end.

(** [buildTraversalOrder()], with what it leaves in [orderedNodes]. *)
Definition buildTraversalOrder (pathData : PathData.t) : walked :=
  let nodes := PathData.nodes pathData in
  let connections := PathData.connections pathData in
  match nodeMap nodes, nextMap connections with
  | Some nodeMap, Some nextMap =>
      match array_find (λ n, PathNode.type n = "start") nodes with
      | None =>
          (* If no start node, just use nodes in order *)
          Ordered
            (filter (λ n, PathNode.type n ≠ "start" ∧ PathNode.type n ≠ "end") nodes)
      | Some start =>
          walk (PathData.fuel pathData) nodeMap nextMap ∅ [] (Some (PathNode.id start))
      end
  | _, _ => Escapes
  end.

(** ['pending'|'in_progress'|'completed'|'passed'|'failed']. *)
Inductive status := Pending | InProgress | Completed | Passed | Failed.

#[global] Instance status_eq_dec : EqDecision status.
Proof. solve_decision. Defined.

Record NodeStatus := mkStatus {
  state_status : status;
  score : option Z;
}.

(** The fraction the progress bar shows: its width is
    [Math.round(completed / total * 100)] percent, and 0 when [total]
    is 0. *)
Record Progress := mkProgress {
  completed : nat;
  total : nat;
}.

(** The session.  [nodeStatus] gives the record of each id it was
    written under; as in the first listing, the record written under
    the id [__proto__] is kept as the prototype of the table. *)
Record t := mk {
  pathData : PathData.t;
  orderedNodes : list PathNode.t;
  currentIndex : nat;
  nodeStatus : gmap string NodeStatus;
  progressBar : option Progress;
  sent : list (string * string);
}.

Definition with_nodeStatus (m : gmap string NodeStatus) (st : t) : t :=
  mk (pathData st) (orderedNodes st) (currentIndex st) m (progressBar st) (sent st).
Definition with_currentIndex (i : nat) (st : t) : t :=
  mk (pathData st) (orderedNodes st) i (nodeStatus st) (progressBar st) (sent st).
Definition with_progressBar (p : option Progress) (st : t) : t :=
  mk (pathData st) (orderedNodes st) (currentIndex st) (nodeStatus st) p (sent st).

(** [pathData.lrsConfig && pathData.lrsConfig.endpoint]. *)
Definition lrs_configured (st : t) : bool :=
  match PathData.lrsConfig (pathData st) with
  | Some c => negb (String.eqb (LrsConfig.endpoint c) "")
  | None => false
  end.

(** [sendXapi(verb, node)]. *)
Definition sendXapi (verb : string) (node : PathNode.t) (st : t) : t :=
  if lrs_configured st
  then mk (pathData st) (orderedNodes st) (currentIndex st) (nodeStatus st)
          (progressBar st) (sent st ++ [(verb, PathNode.id node)])
  else st.

(** [sendXapiPathCompleted()]. *)
Definition sendXapiPathCompleted (st : t) : t :=
  if lrs_configured st then
    match array_find (λ n, PathNode.type n = "end") (orderedNodes st) with
    | Some endNode => sendXapi "completed" endNode st
    | None => st
    end
  else st.

Definition set_status (s : status) (ns : NodeStatus) : NodeStatus :=
  mkStatus s (score ns).

(** [markNodeCompleted(nodeId)]. *)
Definition markNodeCompleted (nodeId : string) (st : t) : t :=
  match nodeStatus st !! nodeId with
  | None => st
  | Some _ =>
      let st :=
        with_nodeStatus (alter (set_status Completed) nodeId (nodeStatus st)) st in
      match array_find (λ n, PathNode.id n = nodeId) (orderedNodes st) with
      | Some node => sendXapi "completed" node st
      | None => st
      end
  end.

(** [Object.values(nodeStatus)], in some order: the records of the
    properties the table owns. *)
Definition own_values (nodeStatus : gmap string NodeStatus) : list NodeStatus :=
  (map_to_list (base.delete "__proto__" nodeStatus)).*2.

(** [updateProgress()]. *)
Definition updateProgress (st : t) : t :=
  let total := length (filter (λ n, PathNode.type n ≠ "start") (orderedNodes st)) in
  let completed :=
    length (filter (λ s, state_status s = Completed ∨ state_status s = Passed)
              (own_values (nodeStatus st))) in
  with_progressBar (Some (mkProgress completed total)) st.

(** [navigateTo(index)] together with the [renderContent(node)] it
    calls, which for a Start node calls [navigateTo(currentIndex + 1)]
    in turn.  [remaining] is the number of entries from [index] on: it
    is 0 exactly when [index] is past the end. *)
Fixpoint navigateTo_from (remaining : nat) (index : nat) (st : t) : t :=
  match remaining with
  | O => st
  | S remaining =>
      (* Mark previous node as completed if it was in_progress *)
      let previous := orderedNodes st !! currentIndex st in
      let st :=
        match previous with
        | Some p =>
            if bool_decide (currentIndex st ≠ index)
               && bool_decide (state_status <$> nodeStatus st !! PathNode.id p
                               = Some InProgress)
            then markNodeCompleted (PathNode.id p) st else st
        | None => st
        end in
      let st := with_currentIndex index st in
      match orderedNodes st !! index with
      | None => st
      | Some node =>
          (* Mark as in_progress *)
          let st :=
            if bool_decide (state_status <$> nodeStatus st !! PathNode.id node
                            = Some Pending)
            then sendXapi "launched" node
                   (with_nodeStatus
                      (alter (set_status InProgress) (PathNode.id node) (nodeStatus st))
                      st)
            else st in
          (* renderContent(node) *)
          let st :=
            if bool_decide (PathNode.type node = "end")
            then sendXapiPathCompleted (sendXapi "completed" node st)
            else if bool_decide (PathNode.type node = "start")
            then navigateTo_from remaining (S index) st
            else st in
          updateProgress st
      end
  end.

Definition navigateTo (index : Z) (st : t) : t :=
  if (index <? 0) || (Z.of_nat (length (orderedNodes st)) <=? index) then st
  else navigateTo_from (length (orderedNodes st) - Z.to_nat index) (Z.to_nat index) st.

(** [markCompleteAndNext()]. *)
Definition markCompleteAndNext (st : t) : t :=
  match orderedNodes st !! currentIndex st with
  | None => st
  | Some node =>
      navigateTo (Z.of_nat (currentIndex st) + 1)
        (markNodeCompleted (PathNode.id node) st)
  end.

(** [prev()]. *)
Definition prev (st : t) : t := navigateTo (Z.of_nat (currentIndex st) - 1) st.

(** [passGate()]. *)
Definition passGate (st : t) : t := markCompleteAndNext st.

(** [chooseBranch(_branch)]. *)
Definition chooseBranch (_branch : string) (st : t) : t := markCompleteAndNext st.

(** The [DOMContentLoaded] handler, once the path is parsed, up to the
    first navigation. *)
Definition load (data : PathData.t) : option t :=
  match buildTraversalOrder data with
  | Ordered orderedNodes =>
      (* Init node statuses *)
      let nodeStatus :=
        fold_left (λ m node, <[PathNode.id node := mkStatus Pending None]> m)
          orderedNodes ∅ in
      Some (mk data orderedNodes 0 nodeStatus None [])
  | _ => None
  end.

(** The whole handler: it ends with [navigateTo(0)]. *)
Definition start (data : PathData.t) : option t :=
  navigateTo 0 <$> load data.

(** What the learner can do: the buttons, and a click in the sidebar. *)
Inductive event :=
| MarkCompleteAndNext
| Prev
| PassGate
| ChooseBranch (branch : string)
| Select (index : nat).

Definition handle (e : event) (st : t) : t :=
  match e with
  | MarkCompleteAndNext => markCompleteAndNext st
  | Prev => prev st
  | PassGate => passGate st
  | ChooseBranch branch => chooseBranch branch st
  | Select index => navigateTo (Z.of_nat index) st
  end.

Definition run (events : list event) (st : t) : t :=
  fold_left (λ st e, handle e st) events st.

(** *** Vocabulary of the properties *)

(** The status of an order entry. *)
Definition status_of (st : t) (node : PathNode.t) : option status :=
  state_status <$> nodeStatus st !! PathNode.id node.

(** No table of [buildTraversalOrder] is reached through a prototype
    when it is filled: no node is called [__proto__], and no connection
    leaves from an id that every object inherits. *)
Definition own_keys (data : PathData.t) : Prop :=
  ("__proto__" ∉ (PathNode.id <$> PathData.nodes data))
  ∧ ∀ c, c ∈ PathData.connections data → Connection.from c ∉ inherited_names.


End PlayerB.

(** ** The traversal order as the specification words it

    Locate the Start node; repeatedly follow the connection whose
    [fromPort] is the type's primary forward port; append each visited
    node except Start; stop at a node with no such connection or at a
    node visited before. *)

Module TraversalSpec.

(** The primary forward port: the one named [next], or for a type with
    several outputs the first it declares. *)
Definition primaryPort (type : string) : string :=
  match NodeType.outputs <$> NodeTypes.NODE_TYPES !! type with
  | Some (first :: _ :: _) => first
  | _ => "next"
  end.

(** The connection to follow from [node]. *)
Definition forward (connections : list Connection.t) (node : PathNode.t)
    : option Connection.t :=
  array_find
    (λ c, Connection.from c = PathNode.id node
          ∧ Connection.fromPort c = primaryPort (PathNode.type node))
    connections.

(** The nodes visited from [node] on, Start left out. *)
Fixpoint visit (fuel : nat) (nodes : list PathNode.t) (connections : list Connection.t)
    (visited : gset string) (node : PathNode.t) : option (list PathNode.t) :=
  if bool_decide (PathNode.id node ∈ visited) then Some []
  else
    match fuel with
    | O => None
    | S fuel =>
        rest ←
          match forward connections node with
          | None => Some []
          | Some c =>
              match array_find (λ n, PathNode.id n = Connection.to c) nodes with
              | None => Some []
              | Some next =>
                  visit fuel nodes connections ({[PathNode.id node]} ∪ visited) next
              end
          end;
        Some (if bool_decide (PathNode.type node = "start") then rest else node :: rest)
    end.

(** The order of [data] from its Start node [start]. *)
Definition order (data : PathData.t) (start : PathNode.t) : option (list PathNode.t) :=
  visit (PathData.fuel data) (PathData.nodes data) (PathData.connections data) ∅ start.

(** The output ports a node type declares. *)
Definition outputs_of (type : string) : list string :=
  match NodeTypes.NODE_TYPES !! type with
  | Some d => NodeType.outputs d
  | None => []
  end.

(** Of the connections that leave a node, the one listed first leaves
    through the node's primary forward port. *)
Definition first_listed_primary (data : PathData.t) : Prop :=
  ∀ node c,
    node ∈ PathData.nodes data →
    array_find (λ c, Connection.from c = PathNode.id node) (PathData.connections data)
    = Some c →
    Connection.fromPort c = primaryPort (PathNode.type node).

(** A path as the data model wants it, whose nodes with a successor
    have one on their primary forward port. *)
Record well_formed (data : PathData.t) : Prop := {
  wf_ids : NoDup (PathNode.id <$> PathData.nodes data);
  wf_ids_nonempty : ∀ n, n ∈ PathData.nodes data → PathNode.id n ≠ "";
  wf_one_start :
    length (filter (λ n, PathNode.type n = "start") (PathData.nodes data)) = 1%nat;
  wf_targets :
    ∀ c, c ∈ PathData.connections data →
         Connection.to c ∈ PathNode.id <$> PathData.nodes data;
  wf_ports :
    ∀ c n, c ∈ PathData.connections data → n ∈ PathData.nodes data →
           Connection.from c = PathNode.id n →
           Connection.fromPort c ∈ outputs_of (PathNode.type n);
  wf_port_once :
    NoDup ((λ c, (Connection.from c, Connection.fromPort c))
             <$> PathData.connections data);
  wf_primary :
    ∀ c n, c ∈ PathData.connections data → n ∈ PathData.nodes data →
           Connection.from c = PathNode.id n →
           ∃ c', c' ∈ PathData.connections data
                 ∧ Connection.from c' = PathNode.id n
                 ∧ Connection.fromPort c' = primaryPort (PathNode.type n);
}.

End TraversalSpec.

(** ** Promises

    An asynchronous function settles its promise one way or the other:
    it resolves to a value or rejects with an error. *)

Inductive settled (A : Type) :=
| Resolved (a : A)
| Rejected (err : string).
Arguments Resolved {A} a.
Arguments Rejected {A} err.

(** ** Node's [path], POSIX flavour, on absolute paths

    An absolute path is the list of its segments, root first. *)

Module Path.

(** The segments between the slashes of [s]. *)
Fixpoint split (s : string) : list string :=
  match s with
  | EmptyString => [""]
  | String c r =>
      if Ascii.eqb c "/"%char then "" :: split r
      else match split r with
           | seg :: segs => String c seg :: segs
           | [] => [String c ""]
           end
  end.

(** One segment of [normalize]: empty and [.] segments vanish, [..]
    leaves the directory reached so far (the root is its own parent). *)
Definition step (acc : list string) (seg : string) : list string :=
  if String.eqb seg "" || String.eqb seg "." then acc
  else if String.eqb seg ".." then removelast acc
  else acc ++ [seg].

Definition normalize (segs : list string) : list string :=
  fold_left step segs [].

(** [path.join(dir, name)] for an absolute [dir]. *)
Definition join (dir : list string) (name : string) : list string :=
  normalize (dir ++ split name).

End Path.

(** ** The storage module (LearningPathStorage)

    The data directory is a map from file paths to file contents.  A
    file holds a JSON object, which this module writes and reads back
    whole: a content is kept as the object that [JSON.parse] returns for
    it.  A property that is [undefined] is a key without a binding:
    [JSON.stringify] leaves it out. *)

Module Storage.

Abbreviation document := (gmap string json).
Abbreviation files := (gmap (list string) (gmap string json)).

(** [/[^a-zA-Z0-9_-]/] does not match [c]. *)
Definition allowed (c : ascii) : bool :=
  let n := Ascii.nat_of_ascii c in
  ((97 <=? n) && (n <=? 122) || (65 <=? n) && (n <=? 90)
   || (48 <=? n) && (n <=? 57) || (n =? 95) || (n =? 45))%nat.

(** [id.replace(/[^a-zA-Z0-9_-]/g, '')]. *)
Fixpoint safeId (id : string) : string :=
  match id with
  | EmptyString => EmptyString
  | String c r => if allowed c then String c (safeId r) else safeId r
  end.

(** [{ ...obj, key: value }] where [value] may be undefined. *)
Definition set_prop (key : string) (value : option json) (obj : document) : document :=
  match value with
  | Some v => <[key := v]> obj
  | None => base.delete key obj
  end.

Section storage.
(** [PATHS_DIR]: the segments of the resolved data directory,
    [<root of the project>/data/learning-paths]. *)
Variable PATHS_DIR : list string.

(** [_filePath(id)]. *)
Definition _filePath (id : string) : list string :=
  (* Sanitize id to prevent path traversal *)
  Path.join PATHS_DIR (safeId id +:+ ".json").

(** [get(id)]; a missing file rejects with [ENOENT]. *)
Definition get (id : string) (fs : files) : settled document :=
  match fs !! _filePath id with
  | Some raw => Resolved raw
  | None => Rejected "ENOENT"
  end.

(** [create(data)]; [uuid] is what [crypto.randomUUID()] returns and
    [now] what [new Date().toISOString()] returns. *)
Definition create (uuid now : string) (data : document) (fs : files)
    : files * document :=
  let pathData : document :=
    list_to_map
      [ ("id", JStr uuid);
        ("title", js_or (data !! "title") (JStr "Untitled Learning Path"));
        ("description", js_or (data !! "description") (JStr ""));
        ("status", JStr "draft");
        ("nodes", js_or (data !! "nodes") (JArr []));
        ("connections", js_or (data !! "connections") (JArr []));
        ("lrsConfig", js_or (data !! "lrsConfig") JNull);
        ("createdAt", JStr now);
        ("updatedAt", JStr now) ] in
  (<[_filePath uuid := pathData]> fs, pathData).

(** [data.key !== undefined ? data.key : existing.key]. *)
Definition pick (key : string) (data existing : document) : option json :=
  match data !! key with
  | Some v => Some v
  | None => existing !! key
  end.

(** [update(id, data)]. *)
Definition update (id now : string) (data : document) (fs : files)
    : settled (files * document) :=
  match get id fs with
  | Rejected err => Rejected err
  | Resolved existing =>
      let updated :=
        set_prop "updatedAt" (Some (JStr now))
          (set_prop "lrsConfig" (pick "lrsConfig" data existing)
             (set_prop "connections" (pick "connections" data existing)
                (set_prop "nodes" (pick "nodes" data existing)
                   (set_prop "status" (pick "status" data existing)
                      (set_prop "description" (pick "description" data existing)
                         (set_prop "title" (pick "title" data existing)
                            existing)))))) in
      Resolved (<[_filePath id := updated]> fs, updated)
  end.

(** [duplicate(id)].  The template that prints the title may throw,
    which rejects with a [TypeError]. *)
Definition duplicate (id uuid now : string) (fs : files)
    : settled (files * document) :=
  match get id fs with
  | Rejected err => Rejected err
  | Resolved original =>
      match to_str_opt (original !! "title") with
      | None => Rejected "TypeError"
      | Some title =>
          Resolved
            (create uuid now
               (set_prop "title" (Some (JStr (title +:+ " (Copy)"))) original) fs)
      end
  end.

(** [delete(id)]; a missing file rejects with [ENOENT]. *)
Definition delete (id : string) (fs : files) : settled files :=
  match fs !! _filePath id with
  | Some _ => Resolved (base.delete (_filePath id) fs)
  | None => Rejected "ENOENT"
  end.

End storage.

(** *** Vocabulary of the properties *)


(** A segment that names an entry of its directory: not empty, not
    [.] and not [..]. *)
Definition plain (seg : string) : Prop := seg ≠ "" ∧ seg ≠ "." ∧ seg ≠ "..".

(** [a] and [b] differ only in characters that [_filePath] strips. *)
Inductive same_kept : string → string → Prop :=
| same_kept_nil : same_kept "" ""
| same_kept_keep c a b :
    allowed c = true → same_kept a b → same_kept (String c a) (String c b)
| same_kept_strip_l c a b :
    allowed c = false → same_kept a b → same_kept (String c a) b
| same_kept_strip_r c a b :
    allowed c = false → same_kept a b → same_kept a (String c b).

(** Every character of [s] satisfies [p]. *)
Fixpoint every (p : ascii → bool) (s : string) : bool :=
  match s with
  | EmptyString => true
  | String c r => p c && every p r
  end.

End Storage.

(** ** The xAPI client: [sendStatement]

    The network is a parameter: what the [URL] constructor makes of a
    string, and what becomes of a request. *)

Module Xapi.

(** The resolved value: [{ stored, statusCode, response, reason }]. *)
Record SendResult := mkSend {
  stored : bool;
  statusCode : option Z;
  response : option string;
  reason : option string;
}.

(** The request handed to [http.request] or [https.request]. *)
Record Request := mkRequest {
  req_url : string;
  req_method : string;
  req_version : string;      (* X-Experience-API-Version *)
  req_credentials : string;  (* key:secret, sent base64-encoded *)
  req_body : json;           (* the statement, sent as JSON text *)
}.

(** What becomes of a request: the call itself throws, the request
    emits [error], or a response arrives and ends. *)
Inductive outcome :=
| Throws (message : string)
| TransportError (message : string)
| Response (statusCode : Z) (data : string).

(** [s.includes(c)]. *)
Fixpoint includes (c : ascii) (s : string) : bool :=
  match s with
  | EmptyString => false
  | String d r => Ascii.eqb c d || includes c r
  end.

Record Network := mkNetwork {
  (** [new URL(relative, base).href], or [None] when the constructor
      throws. *)
  url_parse : string → string → option string;
  (** A base without a colon has no scheme: it is not a URL. *)
  url_parse_scheme :
    ∀ relative base, includes ":"%char base = false →
                     url_parse relative base = None;
  request : Request → outcome;
}.

(** [endpoint.replace(/\/?$/, '/')]: a slash is appended unless the
    endpoint ends with one. *)
Fixpoint with_slash (endpoint : string) : string :=
  match endpoint with
  | EmptyString => "/"
  | String c EmptyString => if Ascii.eqb c "/"%char then "/" else String c "/"
  | String c r => String c (with_slash r)
  end.

(** [`${lrsConfig.key || ''}:${lrsConfig.secret || ''}`]; [None] when
    the template throws. *)
Definition credentials (cfg : gmap string json) : option string :=
  key ← to_str (js_or (cfg !! "key") (JStr ""));
  secret ← to_str (js_or (cfg !! "secret") (JStr ""));
  Some (key +:+ ":" +:+ secret).

(** [sendStatement(lrsConfig, statement)]: how the promise settles,
    and the requests made on the way.  A throw inside the executor
    rejects the promise. *)
Definition sendStatement (net : Network)
    (lrsConfig : option (gmap string json)) (statement : json)
    : settled SendResult * list Request :=
  match lrsConfig with
  | None => (Resolved (mkSend false None None (Some "No LRS configured")), [])
  | Some cfg =>
      if negb (truthy_opt (cfg !! "endpoint"))
      then (Resolved (mkSend false None None (Some "No LRS configured")), [])
      else
        match cfg !! "endpoint" with
        | Some (JStr endpoint) =>
            match url_parse net "statements" (with_slash endpoint) with
            | None => (Rejected "Invalid URL", [])
            | Some url =>
                match credentials cfg with
                | None => (Rejected "TypeError", [])
                | Some auth =>
                    let req := mkRequest url "POST" "1.0.3" auth statement in
                    match request net req with
                    | Throws message => (Rejected message, [req])
                    | TransportError message =>
                        (Resolved (mkSend false None None (Some message)), [req])
                    | Response statusCode data =>
                        (Resolved
                           (mkSend ((200 <=? statusCode) && (statusCode <? 300))
                              (Some statusCode) (Some data) None), [req])
                    end
                end
            end
        | _ => (Rejected "lrsConfig.endpoint.replace is not a function", [])
        end
  end.

End Xapi.

(** ** Sample paths

    The path of the specification's scenario, and small paths used to
    run the definitions. *)

Module Samples.
Definition conn (f fp t tp : string) : Connection.t := Connection.mk f fp t tp.

Definition node_s : PathNode.t := PathNode.mk "s" "start" 0 0 None.
Definition node_t : PathNode.t :=
  PathNode.mk "t" "theory" 0 0 (Some {["title" := JStr "Intro"]}).
Definition node_e : PathNode.t := PathNode.mk "e" "end" 0 0 None.

(** [s --next--> t --next--> e]. *)
Definition scenario_nodes : list PathNode.t := [node_s; node_t; node_e].
Definition scenario_connections : list Connection.t :=
  [conn "s" "next" "t" "prev"; conn "t" "next" "e" "prev"].

(** A Start and an End, and a connection to a node that does not exist. *)
Definition dangling_nodes : list PathNode.t := [node_s; node_e].
Definition dangling_connections : list Connection.t :=
  [conn "s" "next" "ghost" "prev"].

Definition path_of (nodes : list PathNode.t) (connections : list Connection.t)
    : PathData.t :=
  PathData.mk (Some "p1") "Sample" "" "draft" nodes connections None.

Definition scenario : PathData.t := path_of scenario_nodes scenario_connections.

(** A gate whose [fail] connection was drawn before its [pass]
    connection. *)
Definition node_g : PathNode.t := PathNode.mk "g" "gate" 0 0 None.
Definition node_a : PathNode.t :=
  PathNode.mk "a" "theory" 0 0 (Some {["title" := JStr "Remedial"]}).
Definition node_b : PathNode.t :=
  PathNode.mk "b" "theory" 0 0 (Some {["title" := JStr "Advanced"]}).
Definition gate_path : PathData.t :=
  path_of [node_s; node_g; node_a; node_b]
    [conn "s" "next" "g" "prev"; conn "g" "fail" "a" "prev";
     conn "g" "pass" "b" "prev"].

(** A Start node nothing leaves from. *)
Definition unconnected_path : PathData.t := path_of [node_s; node_t] [].

(** A path that ends in a gate. *)
Definition gate_end_path : PathData.t :=
  path_of [node_s; node_g] [conn "s" "next" "g" "prev"].

(** An editor whose graph already holds a node with a generated id. *)
Definition collide_now : N := 1700000000000.
Definition collide_rnd : string := "k3j9xa".
Definition collide_editor : Editor.t :=
  Editor.mk None
    (PathData.mk None "Untitled Learning Path" "" "draft"
       [PathNode.mk "node_1700000000000_k3j9xa" "theory" 0 0 (Some ∅)] [] None)
    NodeTypes.NODE_TYPES None false [].

(** An editor with the node type table loaded and a Start node placed. *)
Definition started_editor : Editor.t :=
  Editor.mk None
    (PathData.mk None "Untitled Learning Path" "" "draft" [node_s] [] None)
    NodeTypes.NODE_TYPES None false [].

(** A data directory and a store holding one saved path. *)
Definition data_dir : list string := ["srv"; "app"; "data"; "learning-paths"].
Definition stored_doc : Storage.document :=
  list_to_map
    [ ("id", JStr "p1"); ("title", JStr "Basics"); ("description", JStr "");
      ("status", JStr "published");
      ("nodes", JArr [JObj {["id" := JStr "s"]}]);
      ("connections", JArr []); ("lrsConfig", JNull);
      ("createdAt", JStr "2024-01-01T00:00:00.000Z");
      ("updatedAt", JStr "2024-01-02T00:00:00.000Z") ].
Definition store : Storage.files :=
  {[ Storage._filePath data_dir "p1" := stored_doc ]}.

(** A new document that asks to be published, and an update payload
    that carries an id. *)
Definition published_doc : Storage.document :=
  list_to_map [ ("title", JStr "T"); ("status", JStr "published") ].
Definition renaming_payload : Storage.document :=
  list_to_map [ ("id", JStr "other"); ("title", JStr "New") ].
Definition some_uuid : string := "9b2e4c1a-7f3d-4e5b-8a6c-0d1e2f3a4b5c".
Definition some_time : string := "2024-03-01T12:00:00.000Z".

(** A node whose type is a name that every object inherits. *)
Definition node_inherited : PathNode.t := PathNode.mk "c" "constructor" 0 0 None.

(** A record store whose endpoint was typed without its scheme. *)
Definition schemeless_lrs : gmap string json :=
  list_to_map
    [ ("endpoint", JStr "lrs.example.com/xapi"); ("key", JStr "k");
      ("secret", JStr "s") ].
End Samples.

(** ** Invariants of the editor's graph *)

Module EditorInv.
Import Editor.

(** The ids of the nodes on the canvas. *)
Definition ids (st : t) : list string := PathNode.id <$> nodes st.

(** No connection dangles: both its ends are nodes on the canvas. *)
Definition closed (st : t) : Prop :=
  ∀ c, c ∈ connections st → Connection.from c ∈ ids st ∧ Connection.to c ∈ ids st.

(** A connection is only ever drawn between two ports of nodes that
    are on the canvas; the other mutations can always be asked for. *)
Definition drawable (o : op) (st : t) : Prop :=
  match o with
  | AddConnection fromId _ toId _ => fromId ∈ ids st ∧ toId ∈ ids st
  | _ => True
  end.

(** The coordinates that a mutation snaps are integers that a double
    holds exactly. *)
Definition placeable (o : op) : Prop :=
  match o with
  | AddNode _ _ _ x y | MoveNode _ x y => safe x = true ∧ safe y = true
  | _ => True
  end.

(** Every node sits on the 10-unit grid. *)
Definition on_grid (st : t) : Prop :=
  Forall (λ n, (10 | PathNode.x n) ∧ (10 | PathNode.y n)) (nodes st).

(** No capped type has more instances than its cap. *)
Definition within_caps (st : t) : Prop :=
  ∀ type nt max,
    nodeTypes st !! type = Some nt →
    NodeType.maxInstances nt = Some max → (0 < max)%nat →
    (length (filter (λ n, PathNode.type n = type) (nodes st)) ≤ max)%nat.

End EditorInv.

(** ** What a session of the player keeps true *)

Module SessionA.
Import PlayerA.

(** Posts are asked for: a record store is configured and the path
    has an id. *)
Definition posting (st : t) : Prop :=
  hasLrs st = true
  ∧ ∃ id, PathData.id (pathData st) = Some id ∧ id ≠ "".

(** The current index is 0 or the index of an entry. *)
Definition in_range (st : t) : Prop :=
  currentIndex st = 0%nat ∨ (currentIndex st < length (orderedNodes st))%nat.

(** Every post asked for so far is a [launched] or a [completed] of an
    entry of the order. *)
Definition posts_expected (st : t) : Prop :=
  Forall (λ p, (p.1 = "launched" ∨ p.1 = "completed")
               ∧ p.2 ∈ (PathNode.id <$> orderedNodes st)) (sent st).

(** At most the current entry is active. *)
Definition one_active (st : t) : Prop :=
  ∀ i n, orderedNodes st !! i = Some n →
         status_of st n = Some Active → i = currentIndex st.

(** What never changes in a session. *)
Definition fixedA (st st' : t) : Prop :=
  pathData st' = pathData st ∧ orderedNodes st' = orderedNodes st
  ∧ hasLrs st' = hasLrs st.

(** The current index and the posts of a session, together. *)
Definition saneA (st : t) : Prop :=
  in_range st ∧ posts_expected st ∧ (¬ posting st → sent st = []).

End SessionA.

Module SessionB.
Import PlayerB.

Definition in_range (st : t) : Prop :=
  currentIndex st = 0%nat ∨ (currentIndex st < length (orderedNodes st))%nat.

Definition posts_expected (st : t) : Prop :=
  Forall (λ p, (p.1 = "launched" ∨ p.1 = "completed")
               ∧ p.2 ∈ (PathNode.id <$> orderedNodes st)) (sent st).


(** The entries completed in [st]. *)
Definition completed_in (st : t) (id : string) : Prop :=
  state_status <$> nodeStatus st !! id = Some Completed.

(** What never changes in a session. *)
Definition fixedB (st st' : t) : Prop :=
  pathData st' = pathData st ∧ orderedNodes st' = orderedNodes st.

(** One step of a session: completed entries stay completed. *)
Definition keepsB (st st' : t) : Prop :=
  fixedB st st' ∧ ∀ id, completed_in st id → completed_in st' id.


End SessionB.

(** ** The routes over the storage module

    The handlers of [createLearningPathRoutes] that read and write
    stored paths, as functions of the request and the data directory.
    Every one of them awaits a single storage call inside a [try]. *)

Module Routes.
Import Storage.

(** What a handler answers: the status ([200] unless [res.status] is
    called) and the JSON body. *)
Record Reply := reply {
  code : nat;
  body : json;
}.

Section routes.
Variable PATHS_DIR : list string.
(** [err.message], the text of the error a storage call rejected with. *)
Variable message : string → string.

(** [{ error: text }]. *)
Definition error_body (text : string) : json := JObj {["error" := JStr text]}.

(** The [catch] of the routes that look a path up:
    [if (err.code === 'ENOENT') return res.status(404)...;
     res.status(500).json({ error: err.message })]. *)
Definition not_found_or_500 (err : string) : Reply :=
  if String.eqb err "ENOENT" then reply 404 (error_body "Not found")
  else reply 500 (error_body (message err)).

(** [GET /api/paths/:id]. *)
Definition get_path (id : string) (fs : files) : Reply :=
  match get PATHS_DIR id fs with
  | Resolved data => reply 200 (JObj data)
  | Rejected err => not_found_or_500 err
  end.

(** [POST /api/paths]; [data] is the parsed request body. *)
Definition post_path (uuid now : string) (data : document) (fs : files)
    : Reply * files :=
  let created := create PATHS_DIR uuid now data fs in
  (reply 201 (JObj created.2), created.1).

(** [PUT /api/paths/:id]. *)
Definition put_path (id now : string) (data : document) (fs : files)
    : Reply * files :=
  match update PATHS_DIR id now data fs with
  | Resolved (fs', updated) => (reply 200 (JObj updated), fs')
  | Rejected err => (not_found_or_500 err, fs)
  end.

(** [DELETE /api/paths/:id]. *)
Definition delete_path (id : string) (fs : files) : Reply * files :=
  match delete PATHS_DIR id fs with
  | Resolved fs' => (reply 200 (JObj {["success" := JBool true]}), fs')
  | Rejected err => (not_found_or_500 err, fs)
  end.

(** [POST /api/paths/:id/duplicate]: its [catch] has no case for a
    missing path. *)
Definition duplicate_path (id uuid now : string) (fs : files) : Reply * files :=
  match duplicate PATHS_DIR id uuid now fs with
  | Resolved (fs', copy) => (reply 201 (JObj copy), fs')
  | Rejected err => (reply 500 (error_body (message err)), fs)
  end.

End routes.
End Routes.

(** ** Helpers of the pages: escaping, durations, labels *)

Module Html.

(** The double quote. *)
Definition quote : ascii := ascii_of_nat 34.

(** [s.replace(/c/g, entity)] for one character [c].  The four
    characters replaced below are ASCII, so working on the bytes of
    the UTF-8 text replaces what the code replaces on UTF-16 units. *)
Fixpoint replace_all (c : ascii) (entity : string) (s : string) : string :=
  match s with
  | EmptyString => EmptyString
  | String d r =>
      if Ascii.eqb d c then entity +:+ replace_all c entity r
      else String d (replace_all c entity r)
  end.

(** [esc(str)] of the player, [escHtml(str)] of the editor and
    [escapeHtml(str)] of the routes, for a string [str]:
    [.replace(/&/g, '&amp;').replace(/</g, '&lt;').replace(/>/g, '&gt;')]
    and last the double quote by [&quot;]. *)
Definition esc (str : string) : string :=
  replace_all quote "&quot;"
    (replace_all ">" "&gt;"
       (replace_all "<" "&lt;"
          (replace_all "&" "&amp;" str))).

(** [escAttr(str)]: the same replacements, the quote second. *)
Definition escAttr (str : string) : string :=
  replace_all ">" "&gt;"
    (replace_all "<" "&lt;"
       (replace_all quote "&quot;"
          (replace_all "&" "&amp;" str))).

(** What one character becomes. *)
Definition entity (c : ascii) : string :=
  if Ascii.eqb c "&" then "&amp;"
  else if Ascii.eqb c "<" then "&lt;"
  else if Ascii.eqb c ">" then "&gt;"
  else if Ascii.eqb c quote then "&quot;"
  else String c "".

(** [c] is none of the characters that open a tag or close an
    attribute value. *)
Definition harmless (c : ascii) : bool :=
  negb (Ascii.eqb c "<") && negb (Ascii.eqb c ">") && negb (Ascii.eqb c quote).

End Html.

Module Duration.

(** [a % b]: the remainder has the sign of [a]. *)
Definition js_rem (a b : Z) : Z := Z.rem a b.

(** The three numbers [formatDuration] prints, for a difference of
    [ms] milliseconds: [hours], [mins % 60], [secs % 60]. *)
Definition fields (ms : Z) : Z * Z * Z :=
  let secs := ms / 1000 in
  let mins := secs / 60 in
  let hours := mins / 60 in
  (hours, js_rem mins 60, js_rem secs 60).

(** [formatDuration(start, end)], given
    [ms = end.getTime() - start.getTime()]. *)
Definition formatDuration (ms : Z) : string :=
  let '(hours, mins, secs) := fields ms in
  "PT" +:+ (if hours =? 0 then "" else pretty hours +:+ "H")
       +:+ pretty mins +:+ "M" +:+ pretty secs +:+ "S".

End Duration.

Module Label.

(** [str.substring(0, k)]: a negative [k] counts as 0. *)
Definition substring0 {A} (k : Z) (str : list A) : list A := take (Z.to_nat k) str.

(** [truncate(str, len)] on the code units of [str]; [ellipsis] is
    the one unit of ['…']. *)
Definition truncate {A} (ellipsis : A) (str : list A) (len : Z) : list A :=
  if len <? Z.of_nat (length str) then substring0 (len - 1) str ++ [ellipsis]
  else str.

End Label.

(** ** Endpoints of a record store *)

Module Endpoint.

(** The last character of [s], if it has one. *)
Fixpoint last_char (s : string) : option ascii :=
  match s with
  | EmptyString => None
  | String c EmptyString => Some c
  | String _ r => last_char r
  end.

End Endpoint.

(** ** More sample paths *)

Module Cases.
Import Samples.

Definition node_u : PathNode.t :=
  PathNode.mk "u" "theory" 0 0 (Some {["title" := JStr "Loop"]}).

(** [s --next--> t --next--> u --next--> t]: a path that runs into a
    cycle. *)
Definition cycle_path : PathData.t :=
  path_of [node_s; node_t; node_u]
    [conn "s" "next" "t" "prev"; conn "t" "next" "u" "prev";
     conn "u" "next" "t" "prev"].

(** [s --next--> __proto__ --next--> e]: a path with a node whose id
    is [__proto__]. *)
Definition node_proto : PathNode.t :=
  PathNode.mk "__proto__" "theory" 0 0 (Some {["title" := JStr "Intro"]}).
Definition proto_path : PathData.t :=
  path_of [node_s; node_proto; node_e]
    [conn "s" "next" "__proto__" "prev"; conn "__proto__" "next" "e" "prev"].

(** A path whose only connection leads to no node, at an id that every
    object inherits. *)
Definition stray_path : PathData.t :=
  path_of [node_s; node_e] [conn "s" "next" "constructor" "prev"].

(** A link whose title is an object with a property [toString], and
    whose address is missing. *)
Definition node_unprintable : PathNode.t :=
  PathNode.mk "n" "url" 0 0
    (Some {["title" := JObj {["toString" := JStr "Docs"]}]}).

(** A theory node without its required title, next to two Start nodes. *)
Definition node_untitled : PathNode.t := PathNode.mk "n" "theory" 0 0 None.
Definition flawed_nodes : list PathNode.t := [node_s; node_s; node_untitled].

(** A data directory with three saved paths: one created by the
    server, one whose nodes an update has set to [null], and one whose
    title an update has set to an object with a property [toString]. *)
Definition saved_doc : Storage.document :=
  list_to_map
    [ ("id", JStr some_uuid); ("title", JStr "Basics"); ("description", JStr "");
      ("status", JStr "draft"); ("nodes", JArr []); ("connections", JArr []);
      ("lrsConfig", JNull);
      ("createdAt", JStr "2024-01-01T00:00:00.000Z");
      ("updatedAt", JStr "2024-01-01T00:00:00.000Z") ].
Definition emptied_doc : Storage.document :=
  <["nodes" := JNull]> (<["id" := JStr "p2"]> saved_doc).
Definition untitled_doc : Storage.document :=
  <["title" := JObj {["toString" := JStr "Basics"]}]> (<["id" := JStr "p3"]> saved_doc).
Definition saved_store : Storage.files :=
  {[ Storage._filePath data_dir some_uuid := saved_doc;
     Storage._filePath data_dir "p2" := emptied_doc;
     Storage._filePath data_dir "p3" := untitled_doc ]}.

(** A route's [err.message] for an error of the file system. *)
Definition fs_message (code : string) : string :=
  code +:+ ": no such file or directory".

(** A network in which every base with a scheme is a URL and the
    record store answers 204 to every request. *)
Definition accepting_net : Xapi.Network :=
  Xapi.mkNetwork
    (λ relative base,
       if Xapi.includes ":"%char base then Some (base +:+ relative) else None)
    ltac:(intros relative base Hbase; cbv beta; by rewrite Hbase)
    (λ _, Xapi.Response 204 "").

Definition lrs_at (endpoint : string) : gmap string json :=
  list_to_map
    [ ("endpoint", JStr endpoint); ("key", JStr "k"); ("secret", JStr "s") ].

End Cases.

(* ===================================================================== *)
(** * Part II: theorems                                                   *)
(* ===================================================================== *)

(** ** Proof automation *)

(** Settles a decidable closed proposition by evaluation. *)
Ltac by_decide :=
  match goal with
  | |- ?P => apply (bool_decide_unpack P); vm_compute; exact I
  end.

(** Case analysis on the condition of the first [if] of the goal. *)
Ltac case_if H :=
  match goal with
  | |- context [if ?b then _ else _] => destruct b eqn:H
  end.

(** Case analysis on a membership in a list that is written out. *)
Ltac each_elem H :=
  simpl in H;
  repeat (apply elem_of_cons in H as [-> | H]);
  [..|by apply elem_of_nil in H].

(** Decides [required_filled] and [known_type] on a concrete node. *)
Ltac solve_node_ok :=
  repeat first
    [ apply Forall_nil_2
    | apply Forall_cons_2
    | match goal with
      | |- NodeTypes.known_type _ => by (vm_compute; eexists)
      | |- NodeTypes.required_filled _ =>
          let Hty := fresh in let Hin := fresh in let Hreq := fresh in
          intros ? ? Hty Hin Hreq; vm_compute in Hty;
          injection Hty as <-; simpl in Hin;
          repeat (apply elem_of_cons in Hin as [-> | Hin]; [try done|]);
          by apply elem_of_nil in Hin
      end ].

(** ** The validator *)

Section validation.
Import NodeTypes.

Section loops.
Context {A B : Type}.

(** A [for] loop that pushes onto an accumulator is a [flat_map]. *)
Lemma fold_left_push (step : list B → A → list B) (f : A → list B) l acc :
  (∀ acc x, step acc x = acc ++ f x) →
  fold_left step l acc = acc ++ flat_map f l.
Proof.
  intros Hstep. revert acc.
  induction l as [|x l IH]; intros acc; simpl.
  - by rewrite app_nil_r.
  - by rewrite IH, Hstep, <-app_assoc.
Qed.
End loops.

(** A loop that pushes onto an accumulator and may throw. *)
Lemma fold_left_push_returns {A B} (step : option (list B) → A → option (list B))
    (f : A → list B) (P : A → Prop) l acc :
  (∀ acc x, P x → step (Some acc) x = Some (acc ++ f x)) →
  Forall P l →
  fold_left step l (Some acc) = Some (acc ++ flat_map f l).
Proof.
  intros Hstep Hall. revert acc.
  induction Hall as [|x l Hx _ IH]; intros acc; simpl.
  - by rewrite app_nil_r.
  - by rewrite Hstep, IH, <-app_assoc.
Qed.

(** Once thrown, nothing is returned; so every round of a loop that
    returns has returned. *)
Lemma fold_left_returns_inv {A B} (step : option B → A → option B)
    (P : A → Prop) l acc r :
  (∀ x, step None x = None) →
  (∀ acc x, ¬ P x → step acc x = None) →
  (∀ x, Decision (P x)) →
  fold_left step l acc = Some r → Forall P l.
Proof.
  intros Hnone Hthrow Hdec. revert acc.
  induction l as [|x l IH]; intros acc Hr; [constructor|].
  simpl in Hr. destruct (Hdec x) as [Hx|Hx].
  - constructor; [done|]. by apply (IH (step acc x)).
  - rewrite (Hthrow _ _ Hx) in Hr.
    assert (Hstuck : fold_left step l None = None).
    { clear -Hnone. induction l as [|y l IH]; simpl; [done|]. by rewrite Hnone. }
    congruence.
Qed.

Lemma inherited_not_registered key :
  key ∈ inherited_names → NODE_TYPES !! key = None.
Proof. intros Hkey. each_elem Hkey; reflexivity. Qed.

Lemma known_own_type node : known_type node → own_type node.
Proof.
  intros [typeDef Hty] Hin. apply inherited_not_registered in Hin. congruence.
Qed.

Lemma validateNode_known node typeDef :
  NODE_TYPES !! PathNode.type node = Some typeDef →
  validateNode node =
    Some (let errors := flat_map (field_errors node) (NodeType.fields typeDef) in
          mkResult (length errors =? 0)%nat errors).
Proof.
  intros Hty. unfold validateNode. rewrite Hty.
  rewrite (fold_left_push _ (field_errors node)); [done|].
  intros acc x. unfold field_errors.
  by destruct (_ && _); rewrite ?app_nil_r.
Qed.

(** [validateNode] returns exactly for the nodes of an own type. *)
Lemma validateNode_returns node :
  is_Some (validateNode node) ↔ own_type node.
Proof.
  unfold validateNode, own_type.
  destruct (NODE_TYPES !! PathNode.type node) as [typeDef|] eqn:Hty.
  - split; [|by eexists]. intros _ Hin.
    apply inherited_not_registered in Hin. congruence.
  - case_bool_decide; split; try done; first [by intros [? ?] | by eexists].
Qed.

Lemma flat_map_nil_iff {A B} (f : A → list B) l :
  flat_map f l = [] ↔ Forall (λ x, f x = []) l.
Proof.
  induction l as [|x l IH]; simpl.
  - split; [constructor|done].
  - rewrite Forall_cons. split.
    + intros [? ?]%app_eq_nil. tauto.
    + intros [-> ?]. tauto.
Qed.

Lemma length_eqb_0 {A} (l : list A) : (length l =? 0)%nat = true ↔ l = [].
Proof. destruct l; simpl; split; try done. Qed.

Lemma validateNode_valid node result :
  validateNode node = Some result →
  valid result = true ↔ known_type node ∧ required_filled node.
Proof.
  unfold known_type, required_filled.
  destruct (NODE_TYPES !! PathNode.type node) as [typeDef|] eqn:Hty.
  - rewrite (validateNode_known _ _ Hty). intros [= <-]. simpl.
    rewrite length_eqb_0, flat_map_nil_iff, Forall_forall.
    split.
    + intros Hall. split; [by eexists|].
      intros typeDef' field [= <-] Hin Hreq.
      specialize (Hall field Hin). unfold field_errors in Hall.
      rewrite Hreq in Hall. simpl in Hall.
      by destruct (truthy_opt _).
    + intros [_ Hall] field Hin. unfold field_errors.
      destruct (FieldDefinition.required field) eqn:Hreq; [|done].
      by rewrite (Hall typeDef field eq_refl Hin Hreq).
  - unfold validateNode. rewrite Hty. case_bool_decide; [done|].
    intros [= <-]. simpl. split; [done|]. by intros [[? ?] _].
Qed.

Lemma validateNode_errors_nil node result :
  validateNode node = Some result → errors result = [] ↔ valid result = true.
Proof.
  unfold validateNode.
  destruct (NODE_TYPES !! PathNode.type node).
  - intros [= <-]. simpl. by rewrite length_eqb_0.
  - case_bool_decide; [done|]. intros [= <-]. split; done.
Qed.

Lemma passes_valid node :
  passes node = true ↔ known_type node ∧ required_filled node.
Proof.
  unfold passes. destruct (validateNode node) as [result|] eqn:Hr.
  - apply (validateNode_valid _ _ Hr).
  - split; [done|]. intros [Hknown _]. apply known_own_type in Hknown.
    apply validateNode_returns in Hknown as [? ?]. congruence.
Qed.

Lemma checkable_own ns : Forall own_type ns → Forall labelled ns → Forall checkable ns.
Proof.
  rewrite !Forall_forall. intros Hown Hlab x Hx. split; [by apply Hown|].
  right. by apply Hlab.
Qed.

Lemma node_errors_nil node :
  checkable node →
  node_errors node = [] ↔ known_type node ∧ required_filled node.
Proof.
  intros [[result Hr]%validateNode_returns Hlab].
  rewrite <-(validateNode_valid _ _ Hr). unfold node_errors. rewrite Hr.
  destruct (valid result) eqn:Hv; simpl; [by destruct (node_label node)|].
  destruct Hlab as [Hpass | [label Hlabel]].
  { unfold passes in Hpass. rewrite Hr in Hpass. congruence. }
  rewrite Hlabel. split; [|done].
  intros Hnil%fmap_nil_inv. apply (validateNode_errors_nil _ _ Hr) in Hnil. congruence.
Qed.

(** The loop that prints the label in front of each error: it throws
    at the first error when the label does not print. *)
Lemma label_loop (label : option string) (errs acc : list string) :
  fold_left
    (λ (errors : option (list string)) err,
       errors ← errors; label ← label;
       Some (errors ++ ["[" +:+ label +:+ "] " +:+ err]))
    errs (Some acc)
  = match errs, label with
    | [], _ => Some acc
    | _, Some label => Some (acc ++ ((λ err, "[" +:+ label +:+ "] " +:+ err) <$> errs))
    | _, None => None
    end.
Proof.
  destruct label as [label|].
  - revert acc. induction errs as [|e errs IH]; intros acc; [done|].
    simpl. rewrite IH. destruct errs; simpl; [done|]. by rewrite <-app_assoc.
  - destruct errs as [|e errs]; [done|]. simpl.
    induction errs as [|e' errs IH]; [done|]. apply IH.
Qed.

(** One round of the loop over the nodes. *)
Lemma node_round (node : PathNode.t) (acc : list string) :
  (result ← validateNode node;
   if negb (valid result) then
     fold_left
       (λ (errors : option (list string)) err,
          errors ← errors; label ← node_label node;
          Some (errors ++ ["[" +:+ label +:+ "] " +:+ err]))
       (errors result) (Some acc)
   else Some acc)
  = if bool_decide (checkable node) then Some (acc ++ node_errors node) else None.
Proof.
  unfold checkable, labelled, passes, node_errors.
  destruct (validateNode node) as [result|] eqn:Hr; simpl.
  - assert (Hown : own_type node) by (apply validateNode_returns; by eexists).
    destruct (valid result) eqn:Hv; simpl.
    + rewrite bool_decide_eq_true_2 by auto.
      destruct (node_label node); by rewrite app_nil_r.
    + rewrite label_loop.
      assert (Herr : errors result ≠ []).
      { intros Hnil. apply (validateNode_errors_nil _ _ Hr) in Hnil. congruence. }
      destruct (errors result) as [|e errs] eqn:He; [done|].
      destruct (node_label node) as [label|].
      * rewrite bool_decide_eq_true_2; [done|]. split; [done|]. right. by eexists.
      * rewrite bool_decide_eq_false_2; [done|].
        intros [_ [? | [? ?]]]; done.
  - rewrite bool_decide_eq_false_2; [done|].
    intros [[? ?]%validateNode_returns _]. congruence.
Qed.

(** A path with nodes that the validator gets past: it returns, and
    its errors are [path_errors]. *)
Lemma validatePath_nonempty n ns connections :
  Forall checkable (n :: ns) →
  validatePath (Some (n :: ns)) connections =
    Some (let errors := path_errors (n :: ns) connections in
          mkResult (length errors =? 0)%nat errors).
Proof.
  intros Hown. unfold validatePath, path_errors, count_type.
  set (nodes := n :: ns) in *.
  cbv zeta.
  rewrite (fold_left_push_returns _ node_errors checkable); [|clear|done].
  2:{ intros acc x Hx. simpl. rewrite node_round. by rewrite bool_decide_eq_true_2. }
  simpl mbind.
  assert (Hlist : ∀ acc,
    match connections with
    | Some conns =>
        fold_left
          (λ errors conn,
             let errors :=
               if bool_decide (Connection.from conn ∈
                                 (list_to_set (PathNode.id <$> nodes) : gset string))
               then errors
               else errors ++ ["Connection references non-existent source node: "
                                 +:+ Connection.from conn] in
             if bool_decide (Connection.to conn ∈
                               (list_to_set (PathNode.id <$> nodes) : gset string))
             then errors
             else errors ++ ["Connection references non-existent target node: "
                               +:+ Connection.to conn]) conns acc
    | None => acc
    end
    = acc ++ match connections with
             | Some conns =>
                 flat_map (conn_errors (list_to_set (PathNode.id <$> nodes))) conns
             | None => []
             end).
  { intros acc. destruct connections as [conns|]; [|by rewrite app_nil_r].
    apply fold_left_push. intros acc' x. cbv zeta. unfold conn_errors.
    repeat case_bool_decide; simpl; rewrite ?app_nil_r, <-?app_assoc; done. }
  rewrite Hlist. clear Hlist.
  assert (Heq : ∀ (a b c d e : list string),
             ((([] ++ a) ++ b) ++ c) ++ d ++ e = a ++ b ++ c ++ d ++ e).
  { intros. simpl. by rewrite <-!app_assoc. }
  match goal with
  | |- Some (mkResult (length ?X =? 0)%nat ?X) = Some (mkResult (length ?Y =? 0)%nat ?Y) =>
      assert (X = Y) as ->; [|done]
  end.
  rewrite <-Heq. simpl.
  repeat match goal with
         | |- context [if ?c then _ else _] => destruct c
         end; simpl; rewrite <-?app_assoc; done.
Qed.

(** The validator returns only when it gets past every node. *)
Lemma validatePath_returns_own ns connections result :
  ns ≠ [] → validatePath (Some ns) connections = Some result → Forall checkable ns.
Proof.
  destruct ns as [|n ns]; [done|]. intros _.
  unfold validatePath. cbv zeta.
  match goal with
  | |- context [fold_left ?step (n :: ns) ?acc] =>
      destruct (fold_left step (n :: ns) acc) as [errors|] eqn:Hloop; [|done]
  end.
  intros _. revert Hloop. apply fold_left_returns_inv.
  - done.
  - intros acc x Hx. destruct acc as [acc|]; [|done]. simpl.
    rewrite node_round. by rewrite bool_decide_eq_false_2.
  - intros x. unfold checkable, own_type, labelled. apply _.
Qed.

Lemma conn_errors_nil nodes conn :
  conn_errors (list_to_set (PathNode.id <$> nodes)) conn = [] ↔
  endpoints_exist nodes conn.
Proof.
  unfold conn_errors, endpoints_exist.
  repeat case_bool_decide; simpl;
    rewrite ?elem_of_list_to_set in *; split; try done; tauto.
Qed.

Lemma app_nil_iff {A} (l1 l2 : list A) : l1 ++ l2 = [] ↔ l1 = [] ∧ l2 = [].
Proof. split; [apply app_eq_nil|by intros [-> ->]]. Qed.

Lemma path_errors_nil nodes connections :
  Forall checkable nodes →
  path_errors nodes connections = [] ↔ accepted nodes connections.
Proof.
  intros Hown. unfold path_errors, accepted.
  rewrite !app_nil_iff, flat_map_nil_iff.
  assert (Hn : Forall (λ x, node_errors x = []) nodes ↔
               Forall known_type nodes ∧ Forall required_filled nodes).
  { rewrite <-Forall_and. rewrite !Forall_forall. split.
    - intros H x Hx. apply node_errors_nil; [|by apply H].
      by apply (proj1 (Forall_forall _ _) Hown).
    - intros H x Hx. apply node_errors_nil; [|by apply H].
      by apply (proj1 (Forall_forall _ _) Hown). }
  rewrite Hn. clear Hn.
  assert (Hc : match connections with
               | Some conns => flat_map (conn_errors (list_to_set (PathNode.id <$> nodes))) conns
               | None => []
               end = [] ↔
               (∀ conns, connections = Some conns → Forall (endpoints_exist nodes) conns)).
  { destruct connections as [conns|].
    - rewrite flat_map_nil_iff.
      rewrite (Forall_iff _ conns (endpoints_exist nodes)) by (intros x; apply conn_errors_nil).
      split; [by intros H ? [= <-]|]. intros H. by apply H.
    - split; done. }
  rewrite Hc. clear Hc.
  destruct (count_type "start" nodes) as [|[|k]]; simpl;
    destruct (count_type "end" nodes) as [|j]; simpl;
    split; intros; destruct_and?; try done; try lia; repeat split; try done; lia.
Qed.

(** Claim C2, as amended.  A path without nodes (absent or empty list)
    is refused with the single error "Learning path must have at least
    one node".  For a path with nodes, none of a type named like a
    property every object inherits and none with a title whose
    conversion to a string throws (in both cases the validator
    throws), the validator returns: with no Start node the result is
    invalid and its errors contain "Learning path must have a Start
    node"; with no End node it is invalid and its errors contain
    "Learning path must have an End node".  And a path with nodes gets
    the result valid with no error exactly when it is [accepted]:
    exactly one Start node, at least one End node, every node of a
    registered type with its required fields truthy, and, when
    connections are given, both ends of every connection among the
    node ids. *)
Theorem validatePath_amended
    (nodes : option (list PathNode.t)) (connections : option (list Connection.t)) :
  (nodes = None ∨ nodes = Some [] →
     validatePath nodes connections =
       Some (mkResult false ["Learning path must have at least one node"]))
  ∧ (∀ ns, nodes = Some ns → ns ≠ [] →
       (Forall own_type ns → Forall labelled ns →
          ∃ result,
            validatePath nodes connections = Some result
            ∧ (count_type "start" ns = 0%nat →
                 valid result = false
                 ∧ "Learning path must have a Start node" ∈ errors result)
            ∧ (count_type "end" ns = 0%nat →
                 valid result = false
                 ∧ "Learning path must have an End node" ∈ errors result))
       ∧ (validatePath nodes connections = Some (mkResult true [])
          ↔ accepted ns connections)).
Proof.
  split.
  - by intros [-> | ->].
  - intros [|n ns] -> Hne; [done|].
    assert (Hin : ∀ msg, msg ∈ path_errors (n :: ns) connections →
                  (length (path_errors (n :: ns) connections) =? 0)%nat = false).
    { intros msg Hm. destruct (path_errors (n :: ns) connections); [|done].
      by apply elem_of_nil in Hm. }
    split.
    + intros Hown Hlab. eexists.
      split; [by apply validatePath_nonempty, checkable_own|].
      cbv zeta. simpl valid. simpl errors. split.
      * intros H0.
        assert ("Learning path must have a Start node"
                  ∈ path_errors (n :: ns) connections).
        { unfold path_errors. rewrite H0. simpl. apply elem_of_cons. by left. }
        eauto.
      * intros H0.
        assert ("Learning path must have an End node"
                  ∈ path_errors (n :: ns) connections).
        { unfold path_errors. rewrite H0. rewrite !elem_of_app. right. right. left.
          simpl. apply elem_of_cons. by left. }
        eauto.
    + split.
      * intros Hres. pose proof (validatePath_returns_own _ _ _ Hne Hres) as Hown.
        rewrite validatePath_nonempty in Hres by done.
        apply path_errors_nil; [done|]. by injection Hres as _ ->.
      * intros Hacc.
        assert (Hown : Forall checkable (n :: ns)).
        { destruct Hacc as (_ & _ & Hknown & Hfilled & _).
          rewrite Forall_forall in *. intros x Hx.
          split; [by apply known_own_type, Hknown|].
          left. apply passes_valid. split; [by apply Hknown|by apply Hfilled]. }
        rewrite validatePath_nonempty by done.
        apply path_errors_nil in Hacc; [|done]. cbv zeta. by rewrite Hacc.
Qed.

Lemma scenario_accepted :
  accepted Samples.scenario_nodes (Some Samples.scenario_connections).
Proof.
  split; [|split; [|split; [|split]]].
  - by vm_compute.
  - vm_compute. lia.
  - solve_node_ok.
  - solve_node_ok.
  - intros conns [= <-].
    repeat apply Forall_cons_2; try apply Forall_nil_2; split; by_decide.
Qed.

Lemma validatePath_witness :
  validatePath (Some []) None
    = Some (mkResult false ["Learning path must have at least one node"])
  ∧ (∃ result,
       validatePath (Some [Samples.node_e]) None = Some result
       ∧ "Learning path must have a Start node" ∈ errors result)
  ∧ (∃ result,
       validatePath (Some [Samples.node_s]) None = Some result
       ∧ "Learning path must have an End node" ∈ errors result)
  ∧ validatePath (Some Samples.scenario_nodes) (Some Samples.scenario_connections)
    = Some (mkResult true []).
Proof.
  split; [|split; [|split]].
  - apply (validatePath_amended (Some []) None). by right.
  - destruct (validatePath_amended (Some [Samples.node_e]) None) as [_ H].
    destruct (H _ eq_refl ltac:(done)) as [Hret _].
    destruct Hret as (result & Hres & Hstart & _).
    { apply Forall_cons_2; [by_decide|apply Forall_nil_2]. }
    { apply Forall_cons_2; [by eexists|apply Forall_nil_2]. }
    exists result. split; [done|]. by apply Hstart.
  - destruct (validatePath_amended (Some [Samples.node_s]) None) as [_ H].
    destruct (H _ eq_refl ltac:(done)) as [Hret _].
    destruct Hret as (result & Hres & _ & Hend).
    { apply Forall_cons_2; [by_decide|apply Forall_nil_2]. }
    { apply Forall_cons_2; [by eexists|apply Forall_nil_2]. }
    exists result. split; [done|]. by apply Hend.
  - destruct (validatePath_amended (Some Samples.scenario_nodes)
                (Some Samples.scenario_connections)) as [_ H].
    destruct (H _ eq_refl ltac:(done)) as [_ Hacc].
    apply Hacc, scenario_accepted.
Defined.

Lemma validatePath_counterexample :
  count_type "start" Samples.dangling_nodes = 1%nat
  ∧ (1 ≤ count_type "end" Samples.dangling_nodes)%nat
  ∧ Forall required_filled Samples.dangling_nodes
  ∧ validatePath (Some Samples.dangling_nodes) (Some Samples.dangling_connections)
    = Some (mkResult false ["Connection references non-existent target node: ghost"])
  ∧ count_type "start" [Samples.node_inherited] = 0%nat
  ∧ validatePath (Some [Samples.node_inherited]) None = None
  ∧ count_type "start" [Cases.node_unprintable] = 0%nat
  ∧ validatePath (Some [Cases.node_unprintable]) None = None.
Proof.
  split; [|split; [|split; [|split; [|split; [|split; [|split]]]]]].
  - by vm_compute.
  - vm_compute. lia.
  - solve_node_ok.
  - by vm_compute.
  - by vm_compute.
  - by vm_compute.
  - by vm_compute.
  - by vm_compute.
Qed.

End validation.

(** ** The editor's graph mutations *)

Section editor.
Import Editor.

Lemma deleteNode_nodes nodeId st :
  nodes (deleteNode nodeId st) = filter (λ n, PathNode.id n ≠ nodeId) (nodes st).
Proof. unfold deleteNode. cbv zeta. by case_bool_decide. Qed.

Lemma deleteNode_connections nodeId st :
  connections (deleteNode nodeId st) =
  filter (λ c, Connection.from c ≠ nodeId ∧ Connection.to c ≠ nodeId) (connections st).
Proof. unfold deleteNode. cbv zeta. by case_bool_decide. Qed.

(** Claim C5.  After [deleteNode nodeId] the nodes are the former
    nodes whose id is not [nodeId], and the connections are the former
    connections that neither start nor end at [nodeId]: the node is
    gone, and no connection that is left references its id. *)
Theorem deleteNode_cascade (st : Editor.t) (nodeId : string) :
  (∀ n, n ∈ nodes (deleteNode nodeId st) ↔ n ∈ nodes st ∧ PathNode.id n ≠ nodeId)
  ∧ (∀ c, c ∈ connections (deleteNode nodeId st) ↔
          c ∈ connections st ∧ Connection.from c ≠ nodeId ∧ Connection.to c ≠ nodeId).
Proof.
  rewrite deleteNode_nodes, deleteNode_connections.
  split; intros x; rewrite list_elem_of_filter; tauto.
Qed.

Lemma existsb_false_iff {A} (p : A → bool) l :
  existsb p l = false ↔ ∀ x, x ∈ l → p x = false.
Proof.
  induction l as [|a l IH]; simpl.
  - split; [|done]. intros _ x Hx. by apply elem_of_nil in Hx.
  - rewrite orb_false_iff, IH. split.
    + intros [Ha Hl] x [->|Hx]%elem_of_cons; auto.
    + intros H. split; [apply H; by left|]. intros x Hx. apply H. by right.
Qed.

Lemma existsb_true_iff {A} (p : A → bool) l :
  existsb p l = true ↔ ∃ x, x ∈ l ∧ p x = true.
Proof.
  rewrite existsb_exists. setoid_rewrite list_elem_of_In. done.
Qed.

Lemma addConnection_rejected st fromId fromPort toId toPort :
  occupied st toId toPort ∨ Connection.mk fromId fromPort toId toPort ∈ connections st →
  addConnection fromId fromPort toId toPort st = st
  ∨ addConnection fromId fromPort toId toPort st
    = toast "Input port already connected" "error" st.
Proof.
  intros Hrej. unfold addConnection. cbv zeta.
  case_if Hex; [by left|]. right.
  assert (Hocc : occupied st toId toPort).
  { destruct Hrej as [?|Hin]; [done|]. eexists. split; [exact Hin|done]. }
  destruct Hocc as (c & Hc & Hto & Hport).
  case_if Htaken; [done|].
  rewrite existsb_false_iff in Htaken. specialize (Htaken c Hc).
  apply bool_decide_eq_false in Htaken. by destruct Htaken.
Qed.

Lemma addConnection_accepted st fromId fromPort toId toPort :
  ¬ occupied st toId toPort →
  connections (addConnection fromId fromPort toId toPort st)
  = connections st ++ [Connection.mk fromId fromPort toId toPort].
Proof.
  intros Hfree. unfold addConnection. cbv zeta.
  case_if Hex.
  { apply existsb_true_iff in Hex as (c & Hc & Hp).
    apply bool_decide_eq_true in Hp as (_ & _ & Hto & Hport).
    destruct Hfree. by exists c. }
  case_if Htaken; [|done].
  apply existsb_true_iff in Htaken as (c & Hc & Hp).
  apply bool_decide_eq_true in Hp as [Hto Hport].
  destruct Hfree. by exists c.
Qed.

Lemma occupied_dec st toId toPort : Decision (occupied st toId toPort).
Proof.
  destruct (existsb (λ c, bool_decide (Connection.to c = toId ∧ Connection.toPort c = toPort))
              (connections st)) eqn:H.
  - left. apply existsb_true_iff in H as (c & Hc & Hp).
    apply bool_decide_eq_true in Hp. by exists c.
  - right. intros (c & Hc & Hto & Hport).
    rewrite existsb_false_iff in H. specialize (H c Hc).
    apply bool_decide_eq_false in H. by destruct H.
Qed.

Lemma NoDup_fmap_filter {A B} (f : A → B) (P : A → Prop) `{!∀ x, Decision (P x)} l :
  NoDup (f <$> l) → NoDup (f <$> filter P l).
Proof.
  intros Hnd. eapply sublist_NoDup; first [exact Hnd | apply fmap_sublist, sublist_filter].
Qed.

Lemma apply_single_predecessor o st :
  single_predecessor st → single_predecessor (apply o st).
Proof.
  unfold single_predecessor. intros Hinv.
  destruct o as [now rnd type x y|nodeId|nodeId|f fp t tp|f fp t tp|name value
                |nodeId x y|e k s]; simpl.
  - unfold addNode. destruct (nodeTypes st !! type) as [nt|]; [|by case_bool_decide].
    destruct (NodeType.maxInstances nt) as [max|]; [|done].
    cbv zeta. by destruct (_ && _).
  - rewrite deleteNode_connections. by apply NoDup_fmap_filter.
  - done.
  - destruct (occupied_dec st t tp) as [Hocc|Hfree].
    + destruct (addConnection_rejected st f fp t tp (or_introl Hocc)) as [-> | ->]; done.
    + rewrite (addConnection_accepted _ _ _ _ _ Hfree).
      rewrite fmap_app. simpl. apply NoDup_app. split; [done|].
      split; [|apply NoDup_singleton].
      intros key Hkey Hin. apply list_elem_of_singleton in Hin. subst key.
      apply list_elem_of_fmap in Hkey as (c & [= Hto Hport] & Hc).
      destruct Hfree. by exists c.
  - unfold removeConnection. simpl. by apply NoDup_fmap_filter.
  - unfold updateField. destruct (selectedNodeId st); [|done].
    by destruct (existsb _ _).
  - unfold moveNode. by destruct (existsb _ _).
  - done.
Qed.

Lemma run_single_predecessor ops st :
  single_predecessor st → single_predecessor (run ops st).
Proof.
  unfold run. revert st.
  induction ops as [|o ops IH]; intros st Hinv; simpl; [done|].
  by apply IH, apply_single_predecessor.
Qed.

(** Claim C4.  When a connection already ends at the input port
    [(toId, toPort)], or the very connection asked for exists,
    [addConnection] leaves the list of connections as it was.  Hence
    every operation of the editor keeps the invariant that no two
    connections end at the same input port, and every graph reached
    from the empty editor has it. *)
Theorem addConnection_single_predecessor :
  (∀ st fromId fromPort toId toPort,
     occupied st toId toPort
     ∨ Connection.mk fromId fromPort toId toPort ∈ connections st →
     connections (addConnection fromId fromPort toId toPort st) = connections st)
  ∧ (∀ st ops, single_predecessor st → single_predecessor (run ops st))
  ∧ (∀ ops, single_predecessor (run ops initial)).
Proof.
  split; [|split].
  - intros st f fp t tp Hrej.
    by destruct (addConnection_rejected st f fp t tp Hrej) as [-> | ->].
  - intros st ops. apply run_single_predecessor.
  - intros ops. apply run_single_predecessor. apply NoDup_nil_2.
Qed.

Lemma addConnection_single_predecessor_witness :
  connections
    (addConnection "x" "next" "t" "prev"
       (run [AddConnection "s" "next" "t" "prev"] initial))
  = connections (run [AddConnection "s" "next" "t" "prev"] initial)
  ∧ single_predecessor
      (run [AddConnection "s" "next" "t" "prev";
            AddConnection "x" "next" "t" "prev";
            DeleteNode "s"] (run [] initial)).
Proof.
  destruct addConnection_single_predecessor as (Hrej & Hinv & _).
  split.
  - apply Hrej. left. exists (Connection.mk "s" "next" "t" "prev").
    split; [|done]. vm_compute. apply elem_of_cons. by left.
  - apply Hinv. vm_compute. apply NoDup_nil_2.
Defined.

(** *** addNode *)

Lemma default_data_acc_notin fields acc k :
  k ∉ field_names fields →
  fold_left set_default fields acc !! k = acc !! k.
Proof.
  revert acc. induction fields as [|f fs IH]; intros acc Hk; simpl; [done|].
  unfold field_names in Hk. rewrite fmap_cons, not_elem_of_cons in Hk.
  destruct Hk as [Hne Hk]. rewrite IH by done.
  unfold set_default. destruct (FieldDefinition.default f); [|done].
  by rewrite lookup_insert_ne.
Qed.

Lemma default_data_acc_in fields acc field :
  NoDup (field_names fields) → field ∈ fields →
  fold_left set_default fields acc !! FieldDefinition.name field
  = match FieldDefinition.default field with
    | Some d => Some d
    | None => acc !! FieldDefinition.name field
    end.
Proof.
  revert acc. induction fields as [|f fs IH]; intros acc Hnd Hin; simpl.
  { by apply elem_of_nil in Hin. }
  unfold field_names in Hnd. rewrite fmap_cons in Hnd.
  apply NoDup_cons in Hnd as [Hf Hnd].
  apply elem_of_cons in Hin as [-> | Hin].
  - rewrite default_data_acc_notin by done.
    unfold set_default. destruct (FieldDefinition.default f); [|done].
    by rewrite lookup_insert_eq.
  - rewrite IH by done.
    destruct (FieldDefinition.default field); [done|].
    unfold set_default. destruct (FieldDefinition.default f); [|done].
    rewrite lookup_insert_ne; [done|].
    intros Heq. apply Hf. rewrite Heq. by apply list_elem_of_fmap_2.
Qed.

(** The data of a new node: each field's default, under its name. *)
Lemma default_data_spec fields :
  (NoDup (field_names fields) →
   ∀ field, field ∈ fields →
     default_data fields !! FieldDefinition.name field = FieldDefinition.default field)
  ∧ (∀ k, k ∉ field_names fields → default_data fields !! k = None).
Proof.
  unfold default_data. split.
  - intros Hnd field Hin. rewrite default_data_acc_in by done.
    by destruct (FieldDefinition.default field).
  - intros k Hk. by rewrite default_data_acc_notin.
Qed.

(** The decimal numeral of a number holds no underscore. *)
Lemma pretty_N_go_no_underscore (n : N) (s : string) :
  Storage.every (λ c, negb (Ascii.eqb c "_")) s = true →
  Storage.every (λ c, negb (Ascii.eqb c "_")) (pretty_N_go n s) = true.
Proof.
  revert s. induction (N.lt_wf_0 n) as [n _ IH]; intros s Hs.
  destruct (decide (n = 0)%N) as [->|Hn]; [by rewrite pretty_N_go_0|].
  rewrite pretty_N_go_step by lia. apply IH; [apply N.div_lt; lia|].
  simpl. rewrite Hs, andb_true_r. unfold pretty_N_char. by repeat case_match.
Qed.

Lemma pretty_N_no_underscore (n : N) :
  Storage.every (λ c, negb (Ascii.eqb c "_")) (pretty n) = true.
Proof.
  unfold pretty, pretty_N. case_decide; [done|]. by apply pretty_N_go_no_underscore.
Qed.

(** Two strings without underscore, each followed by an underscore and
    a suffix: equal wholes have equal parts. *)
Lemma append_underscore_inj (a a' r r' : string) :
  Storage.every (λ c, negb (Ascii.eqb c "_")) a = true →
  Storage.every (λ c, negb (Ascii.eqb c "_")) a' = true →
  a +:+ "_" +:+ r = a' +:+ "_" +:+ r' → a = a' ∧ r = r'.
Proof.
  revert a'. induction a as [|c a IH]; intros [|c' a'] Ha Ha' Heq; simpl in *.
  - by injection Heq.
  - injection Heq as <- _. done.
  - injection Heq as -> _. done.
  - injection Heq as -> Heq.
    apply andb_true_iff in Ha as [_ Ha]. apply andb_true_iff in Ha' as [_ Ha'].
    by destruct (IH a' Ha Ha' Heq) as [-> ->].
Qed.

(** Ids generated at different clock readings, or with different
    suffixes, are different. *)
Lemma new_node_id_inj (now now' : N) (rnd rnd' : string) :
  new_node_id now rnd = new_node_id now' rnd' → now = now' ∧ rnd = rnd'.
Proof.
  unfold new_node_id. intros Heq. simpl in Heq. injection Heq as Heq.
  apply append_underscore_inj in Heq as [Hn ->];
    [|apply pretty_N_no_underscore..].
  split; [by apply (inj pretty)|done].
Qed.

Lemma cap_reached_dec type nt st :
  match NodeType.maxInstances nt with
  | Some max =>
      negb (max =? 0)%nat
      && (max <=? length (filter (λ n, PathNode.type n = type) (nodes st)))%nat
  | None => false
  end = true ↔ cap_reached type nt st.
Proof.
  unfold cap_reached. destruct (NodeType.maxInstances nt) as [max|].
  - rewrite andb_true_iff, negb_true_iff, Nat.eqb_neq, Nat.leb_le. split.
    + intros [? ?]. exists max. repeat split; [lia|done].
    + intros (? & [= <-] & ? & ?). split; [lia|done].
  - split; [done|]. by intros (? & ? & _).
Qed.

(** Claim C3, as amended.  For a registered node type: when its
    instance cap is reached (for a cap of one: an instance exists),
    [addNode] leaves nodes, connections and selection as they were and
    only reports an error; otherwise it appends one node, of that type,
    whose data holds each field's default under the field's name and
    nothing else, and whose id is ["node_"], the clock reading, ["_"]
    and the random suffix: an id that no other clock reading and no
    other suffix gives.  The id is not compared with the ids in the
    graph. *)
Theorem addNode_amended (st : Editor.t) (now : N) (rnd type : string) (x y : Z)
    (nt : NodeType.t) :
  nodeTypes st !! type = Some nt →
  (cap_reached type nt st →
     nodes (addNode now rnd type x y st) = nodes st
     ∧ connections (addNode now rnd type x y st) = connections st
     ∧ selectedNodeId (addNode now rnd type x y st) = selectedNodeId st
     ∧ ∃ msg, toasts (addNode now rnd type x y st) = toasts st ++ [(msg, "error")])
  ∧ (¬ cap_reached type nt st →
     ∃ node,
       nodes (addNode now rnd type x y st) = nodes st ++ [node]
       ∧ connections (addNode now rnd type x y st) = connections st
       ∧ PathNode.id node = new_node_id now rnd
       ∧ (∀ now' rnd', new_node_id now' rnd' = PathNode.id node →
                       now' = now ∧ rnd' = rnd)
       ∧ PathNode.type node = type
       ∧ (NoDup (field_names (NodeType.fields nt)) →
          ∀ field, field ∈ NodeType.fields nt →
            PathNode.field (FieldDefinition.name field) node
            = FieldDefinition.default field)
       ∧ (∀ k, k ∉ field_names (NodeType.fields nt) → PathNode.field k node = None)).
Proof.
  intros Hnt. pose proof (cap_reached_dec type nt st) as Hdec.
  unfold addNode, push_node. rewrite Hnt. cbv zeta.
  split.
  - intros Hcap. apply Hdec in Hcap.
    destruct (NodeType.maxInstances nt) as [max|]; [|done].
    rewrite Hcap. repeat split; try done. by eexists.
  - intros Hfree.
    assert (Hb : match NodeType.maxInstances nt with
                 | Some max =>
                     negb (max =? 0)%nat
                     && (max <=? length (filter (λ n, PathNode.type n = type) (nodes st)))%nat
                 | None => false
                 end = false).
    { destruct (match NodeType.maxInstances nt with Some _ => _ | None => _ end) eqn:E;
        [|done]. destruct Hfree. by apply Hdec. }
    eexists (PathNode.mk _ _ _ _ _).
    destruct (NodeType.maxInstances nt) as [max|]; [rewrite Hb|];
      (split; [reflexivity|]); (split; [reflexivity|]); (split; [reflexivity|]);
      (split; [intros now' rnd'; apply new_node_id_inj|]);
      (split; [reflexivity|]);
      unfold PathNode.field; simpl; apply default_data_spec.
Qed.

Lemma addNode_witness :
  (∃ msg, toasts (addNode 1 "abc" "start" 0 0 Samples.started_editor)
          = [(msg, "error")])
  ∧ (∃ node,
       nodes (addNode 1 "abc" "theory" 14 (-26) Samples.started_editor)
       = [Samples.node_s; node]
       ∧ PathNode.field "estimatedMinutes" node = Some (JNum (num 15))).
Proof.
  split.
  - destruct (addNode_amended Samples.started_editor 1 "abc" "start" 0 0
                NodeTypes.start eq_refl) as [Hcap _].
    destruct Hcap as (_ & _ & _ & msg & Hmsg).
    + exists 1%nat. repeat split; vm_compute; lia.
    + exists msg. exact Hmsg.
  - destruct (addNode_amended Samples.started_editor 1 "abc" "theory" 14 (-26)
                NodeTypes.theory eq_refl) as [_ Hfree].
    destruct Hfree as (node & Hnodes & _ & _ & _ & _ & Hdef & _).
    + intros (max & Hmax & _). vm_compute in Hmax. done.
    + exists node. split; [exact Hnodes|].
      apply (Hdef ltac:(by_decide)
               (NodeTypes.fld_def "estimatedMinutes" "number"
                  "Estimated Duration (min)" (JNum (num 15)))).
      do 3 apply list_elem_of_further. apply list_elem_of_here.
Defined.

Lemma addNode_counterexample :
  ¬ cap_reached "theory" NodeTypes.theory Samples.collide_editor
  ∧ ∃ node,
      nodes (addNode Samples.collide_now Samples.collide_rnd "theory" 0 0
               Samples.collide_editor)
      = nodes Samples.collide_editor ++ [node]
      ∧ PathNode.id node ∈ (PathNode.id <$> nodes Samples.collide_editor).
Proof.
  split.
  - intros (max & Hmax & _). vm_compute in Hmax. done.
  - eexists. split; [vm_compute; reflexivity|]. vm_compute. apply elem_of_cons. by left.
Qed.

End editor.

(** ** Storage: file names *)

Section file_names.
Import Storage.

Lemma safeId_every_allowed id : every allowed (safeId id) = true.
Proof.
  induction id as [|c r IH]; simpl; [done|].
  destruct (allowed c) eqn:Hc; simpl; [by rewrite Hc|done].
Qed.

Lemma allowed_not_slash c : allowed c = true → Ascii.eqb c "/"%char = false.
Proof.
  intros Hc. destruct (Ascii.eqb_spec c "/"%char) as [->|]; [|done].
  by vm_compute in Hc.
Qed.

Lemma every_append p a b : every p (a +:+ b) = every p a && every p b.
Proof. induction a as [|c r IH]; simpl; [done|]. by rewrite IH, andb_assoc. Qed.

Lemma split_single s :
  every (λ c, negb (Ascii.eqb c "/"%char)) s = true → Path.split s = [s].
Proof.
  induction s as [|c r IH]; simpl; [done|].
  intros [Hc Hr]%andb_true_iff. apply negb_true_iff in Hc.
  by rewrite Hc, IH.
Qed.

Lemma every_impl (p q : ascii → bool) s :
  (∀ c, p c = true → q c = true) → every p s = true → every q s = true.
Proof.
  intros Hpq. induction s as [|c r IH]; simpl; [done|].
  intros [Hc Hr]%andb_true_iff. by rewrite (Hpq _ Hc), IH.
Qed.

Lemma file_name_no_slash id :
  every (λ c, negb (Ascii.eqb c "/"%char)) (safeId id +:+ ".json") = true.
Proof.
  rewrite every_append, andb_true_iff. split; [|done].
  apply (every_impl allowed); [|apply safeId_every_allowed].
  intros c Hc. by rewrite allowed_not_slash.
Qed.

Lemma length_append a b :
  String.length (a +:+ b) = (String.length a + String.length b)%nat.
Proof. induction a as [|c r IH]; simpl; [done|]. by rewrite IH. Qed.

Lemma file_name_plain id : plain (safeId id +:+ ".json").
Proof.
  assert (5 ≤ String.length (safeId id +:+ ".json"))%nat as Hlen.
  { rewrite length_append. simpl. lia. }
  repeat split; intros Heq; rewrite Heq in Hlen; simpl in Hlen; lia.
Qed.

Lemma step_plain acc seg : plain seg → Path.step acc seg = acc ++ [seg].
Proof.
  intros (H1 & H2 & H3). unfold Path.step.
  apply String.eqb_neq in H1, H2, H3. by rewrite H1, H2, H3.
Qed.

Lemma fold_step_plain segs acc :
  Forall plain segs → fold_left Path.step segs acc = acc ++ segs.
Proof.
  revert acc. induction segs as [|seg segs IH]; intros acc Hall; simpl.
  - by rewrite app_nil_r.
  - apply Forall_cons in Hall as [Hseg Hall].
    by rewrite step_plain, IH, <-app_assoc.
Qed.

Lemma filePath_plain_dir PATHS_DIR id :
  Forall plain PATHS_DIR →
  _filePath PATHS_DIR id = PATHS_DIR ++ [safeId id +:+ ".json"].
Proof.
  intros Hdir. unfold _filePath, Path.join, Path.normalize.
  rewrite split_single by apply file_name_no_slash.
  rewrite fold_step_plain; [done|].
  apply Forall_app. split; [done|].
  apply Forall_cons. split; [apply file_name_plain|apply Forall_nil_2].
Qed.

Lemma same_kept_safeId a b : same_kept a b → safeId a = safeId b.
Proof.
  induction 1 as [|c a b Hc _ IH|c a b Hc _ IH|c a b Hc _ IH]; simpl;
    rewrite ?Hc; congruence.
Qed.

Lemma same_kept_stripped id : same_kept id (safeId id).
Proof.
  induction id as [|c r IH]; simpl; [constructor|].
  destruct (allowed c) eqn:Hc; by constructor.
Qed.

(** Claim C10.  [safeId] keeps the letters, digits, underscores and
    hyphens of an id, in their order, and nothing else.  With a data
    directory made of plain segments, the file of an id is the entry
    [safeId id ++ ".json"] of that very directory: the name holds no
    separator and is neither ["."] nor [".."].  Two ids that differ
    only in stripped characters have the same file. *)
Theorem filePath_inside_data_dir (PATHS_DIR : list string) (id : string) :
  Forall plain PATHS_DIR →
  every allowed (safeId id) = true
  ∧ same_kept id (safeId id)
  ∧ _filePath PATHS_DIR id = PATHS_DIR ++ [safeId id +:+ ".json"]
  ∧ plain (safeId id +:+ ".json")
  ∧ every (λ c, negb (Ascii.eqb c "/"%char)) (safeId id +:+ ".json") = true
  ∧ ∀ id', same_kept id id' → _filePath PATHS_DIR id' = _filePath PATHS_DIR id.
Proof.
  intros Hdir. repeat split.
  - apply safeId_every_allowed.
  - apply same_kept_stripped.
  - by apply filePath_plain_dir.
  - apply file_name_plain.
  - apply file_name_plain.
  - apply file_name_plain.
  - apply file_name_no_slash.
  - intros id' Hsame. unfold _filePath. by rewrite (same_kept_safeId _ _ Hsame).
Qed.

Lemma filePath_inside_data_dir_witness :
  _filePath Samples.data_dir "../../etc/passwd"
  = ["srv"; "app"; "data"; "learning-paths"; "etcpasswd.json"]
  ∧ _filePath Samples.data_dir "etc_passwd!" = _filePath Samples.data_dir "etc_/passwd".
Proof.
  assert (Hdir : Forall plain Samples.data_dir).
  { repeat apply Forall_cons_2; try apply Forall_nil_2; repeat split; done. }
  split.
  - destruct (filePath_inside_data_dir Samples.data_dir "../../etc/passwd" Hdir)
      as (_ & _ & Hpath & _).
    exact Hpath.
  - destruct (filePath_inside_data_dir Samples.data_dir "etc_/passwd" Hdir)
      as (_ & _ & _ & _ & _ & Hsame).
    apply Hsame.
    repeat first [ apply same_kept_nil
                 | apply same_kept_keep; [reflexivity|]
                 | apply same_kept_strip_l; [reflexivity|]
                 | apply same_kept_strip_r; [reflexivity|] ].
Defined.
End file_names.

(** What the sanitizer is for: the raw id would leave the directory. *)
Example join_unsanitized :
  Path.join Samples.data_dir "../../etc/passwd" = ["srv"; "app"; "etc"; "passwd"].
Proof. reflexivity. Qed.

(** ** Storage: documents *)

Section documents.
Import Storage.
Variable PATHS_DIR : list string.


Lemma get_after_write (id : string) (doc : document) (fs : files) :
  get PATHS_DIR id (<[_filePath PATHS_DIR id := doc]> fs) = Resolved doc.
Proof. unfold get. by rewrite lookup_insert_eq. Qed.

(** The fields of a created document. *)
Lemma create_fields (uuid now : string) (data : document) (fs : files) (k : string) :
  (create PATHS_DIR uuid now data fs).2 !! k =
    if decide (k = "id") then Some (JStr uuid)
    else if decide (k = "title")
         then Some (js_or (data !! "title") (JStr "Untitled Learning Path"))
    else if decide (k = "description") then Some (js_or (data !! "description") (JStr ""))
    else if decide (k = "status") then Some (JStr "draft")
    else if decide (k = "nodes") then Some (js_or (data !! "nodes") (JArr []))
    else if decide (k = "connections") then Some (js_or (data !! "connections") (JArr []))
    else if decide (k = "lrsConfig") then Some (js_or (data !! "lrsConfig") JNull)
    else if decide (k = "createdAt") then Some (JStr now)
    else if decide (k = "updatedAt") then Some (JStr now)
    else None.
Proof.
  unfold create. simpl.
  repeat (case_decide; [subst k; reflexivity|]).
  rewrite !lookup_insert_ne by done. apply lookup_empty.
Qed.

End documents.

Section roundtrip.
Import Storage.
Variable PATHS_DIR : list string.


(** Claim C8, as amended.  For a stored path whose title converts to
    a string, [duplicate] resolves to a copy kept under the generated
    id, whatever that id is: the copy has the generated id, the title
    as the template prints it followed by [" (Copy)"], and the nodes
    and the connections of the original where these are truthy, the
    empty list where they are not.  So a string title is followed by
    [" (Copy)"] and lists of nodes and connections are the original's.
    The generated id is not compared with the ids in use: the original
    is left as it was when the copy goes to another file. *)
Theorem duplicate_amended (fs : files) (id uuid now : string)
    (original : document) (title : string) :
  get PATHS_DIR id fs = Resolved original →
  to_str_opt (original !! "title") = Some title →
  ∃ fs' copy,
    duplicate PATHS_DIR id uuid now fs = Resolved (fs', copy)
    ∧ copy !! "id" = Some (JStr uuid)
    ∧ copy !! "title" = Some (JStr (title +:+ " (Copy)"))
    ∧ (∀ text, original !! "title" = Some (JStr text) → title = text)
    ∧ copy !! "nodes" = Some (js_or (original !! "nodes") (JArr []))
    ∧ copy !! "connections" = Some (js_or (original !! "connections") (JArr []))
    ∧ (∀ nodes, original !! "nodes" = Some (JArr nodes) →
                copy !! "nodes" = original !! "nodes")
    ∧ (∀ connections, original !! "connections" = Some (JArr connections) →
                      copy !! "connections" = original !! "connections")
    ∧ get PATHS_DIR uuid fs' = Resolved copy
    ∧ (_filePath PATHS_DIR uuid ≠ _filePath PATHS_DIR id →
       get PATHS_DIR id fs' = Resolved original).
Proof.
  intros Hget Htitle.
  unfold duplicate. rewrite Hget, Htitle.
  set (payload := set_prop "title" (Some (JStr (title +:+ " (Copy)"))) original).
  exists (create PATHS_DIR uuid now payload fs).1,
         (create PATHS_DIR uuid now payload fs).2.
  split; [by destruct (create PATHS_DIR uuid now payload fs)|].
  pose proof (create_fields PATHS_DIR uuid now payload fs) as Hf.
  assert (Hnodes : (create PATHS_DIR uuid now payload fs).2 !! "nodes"
                   = Some (js_or (original !! "nodes") (JArr []))).
  { rewrite Hf. simpl. unfold payload. simpl. by rewrite lookup_insert_ne. }
  assert (Hconns : (create PATHS_DIR uuid now payload fs).2 !! "connections"
                   = Some (js_or (original !! "connections") (JArr []))).
  { rewrite Hf. simpl. unfold payload. simpl. by rewrite lookup_insert_ne. }
  split; [by rewrite Hf|].
  split.
  { rewrite Hf. simpl. unfold payload. simpl. rewrite lookup_insert_eq. simpl.
    by destruct title. }
  split.
  { intros text Htext. rewrite Htext in Htitle. simpl in Htitle. congruence. }
  split; [done|]. split; [done|].
  split.
  { intros nodes Hn. by rewrite Hnodes, Hn. }
  split.
  { intros connections Hc. by rewrite Hconns, Hc. }
  split; [apply get_after_write|].
  intros Hother. unfold get in *. simpl. by rewrite lookup_insert_ne.
Qed.
End roundtrip.



Lemma duplicate_amended_witness :
  ∃ fs' copy,
    Storage.duplicate Samples.data_dir "p1" Samples.some_uuid Samples.some_time
      Samples.store = Resolved (fs', copy)
    ∧ copy !! "id" = Some (JStr Samples.some_uuid)
    ∧ copy !! "title" = Some (JStr "Basics (Copy)")
    ∧ copy !! "nodes" = Samples.stored_doc !! "nodes"
    ∧ Storage.get Samples.data_dir "p1" fs' = Resolved Samples.stored_doc.
Proof.
  destruct (duplicate_amended Samples.data_dir Samples.store "p1" Samples.some_uuid
              Samples.some_time Samples.stored_doc "Basics" eq_refl eq_refl)
    as (fs' & copy & Hdup & Hid & Htitle & _ & _ & _ & Hnodes & _ & _ & Hkept).
  exists fs', copy. split; [done|]. split; [done|]. split; [done|].
  split; [by eapply Hnodes|]. apply Hkept. by vm_compute.
Defined.

(** Claim C8, at the inputs that break it: the generated id is the id
    of the path duplicated, and the copy replaces the original under
    its own id; the stored nodes are [null], and the copy gets the
    empty list; the stored title is an object with a property
    [toString], and [duplicate] rejects. *)
Lemma duplicate_counterexample :
  (∃ fs' copy,
     Storage.duplicate Samples.data_dir Samples.some_uuid Samples.some_uuid
       Samples.some_time Cases.saved_store = Resolved (fs', copy)
     ∧ copy !! "id" = Cases.saved_doc !! "id"
     ∧ Storage.get Samples.data_dir Samples.some_uuid fs' = Resolved copy
     ∧ copy !! "title" ≠ Cases.saved_doc !! "title")
  ∧ (∃ fs' copy,
       Storage.duplicate Samples.data_dir "p2" Samples.some_uuid Samples.some_time
         Cases.saved_store = Resolved (fs', copy)
       ∧ Cases.emptied_doc !! "nodes" = Some JNull
       ∧ copy !! "nodes" = Some (JArr []))
  ∧ Storage.duplicate Samples.data_dir "p3" Samples.some_uuid Samples.some_time
      Cases.saved_store = Rejected "TypeError".
Proof.
  split; [|split].
  - eexists _, _. split; [reflexivity|]. split; [reflexivity|].
    split; [reflexivity|]. by vm_compute.
  - eexists _, _. split; [reflexivity|]. split; reflexivity.
  - reflexivity.
Qed.
(** ** The xAPI client *)

Section xapi.
Import Xapi.

Lemma sendStatement_unconfigured net lrsConfig statement :
  lrsConfig = None
  ∨ (∃ cfg, lrsConfig = Some cfg ∧ truthy_opt (cfg !! "endpoint") = false) →
  sendStatement net lrsConfig statement
  = (Resolved (mkSend false None None (Some "No LRS configured")), []).
Proof.
  intros [-> | (cfg & -> & Hep)]; [done|].
  unfold sendStatement. by rewrite Hep.
Qed.

(** Once the request has been made, the promise resolves unless the
    call itself throws; a response is stored exactly when its status
    code is in [200, 300). *)
Lemma sendStatement_requested net cfg endpoint url auth statement :
  cfg !! "endpoint" = Some (JStr endpoint) → endpoint ≠ "" →
  url_parse net "statements" (with_slash endpoint) = Some url →
  credentials cfg = Some auth →
  ∃ req,
    req_url req = url ∧ req_body req = statement
    ∧ match request net req with
      | Throws message =>
          sendStatement net (Some cfg) statement = (Rejected message, [req])
      | TransportError message =>
          sendStatement net (Some cfg) statement
          = (Resolved (mkSend false None None (Some message)), [req])
      | Response statusCode data =>
          ∃ stored,
            sendStatement net (Some cfg) statement
            = (Resolved (mkSend stored (Some statusCode) (Some data) None), [req])
            ∧ (stored = true ↔ 200 ≤ statusCode < 300)
      end.
Proof.
  intros Hep Hne Hurl Hauth. unfold sendStatement. rewrite Hep. simpl.
  destruct (String.eqb_spec endpoint "") as [|_]; [done|]. simpl.
  rewrite Hurl, Hauth.
  exists (mkRequest url "POST" "1.0.3" auth statement).
  split; [reflexivity|]. split; [reflexivity|].
  destruct (request net _) as [?|?|statusCode data]; try reflexivity.
  eexists. split; [reflexivity|].
  rewrite andb_true_iff, Z.leb_le, Z.ltb_lt. lia.
Qed.

(** Claim C6, at the input that breaks it.  With an endpoint typed
    without its scheme the [URL] constructor throws inside the
    executor of the promise: [sendStatement] rejects with the
    constructor's error, and no request is made. *)
Theorem sendStatement_rejects_schemeless (net : Network) (statement : json) :
  sendStatement net (Some Samples.schemeless_lrs) statement
  = (Rejected "Invalid URL", []).
Proof.
  unfold sendStatement.
  change (Samples.schemeless_lrs !! "endpoint")
    with (Some (JStr "lrs.example.com/xapi")).
  simpl. by rewrite url_parse_scheme.
Qed.
End xapi.

(** ** Arrays *)

Section arrays.
Context {A : Type}.
Implicit Types (P Q : A → Prop) (l : list A).

Lemma array_find_Some P `{!∀ x, Decision (P x)} l x :
  array_find P l = Some x → x ∈ l ∧ P x.
Proof.
  unfold array_find. destruct (list_find P l) as [[i y]|] eqn:Hf; [|done].
  intros [= <-]. apply list_find_Some in Hf as (Hl & HP & _).
  split; [by eapply list_elem_of_lookup_2|done].
Qed.

Lemma array_find_None P `{!∀ x, Decision (P x)} l :
  array_find P l = None ↔ ∀ x, x ∈ l → ¬ P x.
Proof.
  unfold array_find. rewrite fmap_None, list_find_None, Forall_forall. done.
Qed.

Lemma array_find_cons P `{!∀ x, Decision (P x)} x l :
  array_find P (x :: l) = if decide (P x) then Some x else array_find P l.
Proof.
  unfold array_find. simpl. destruct (decide (P x)); [done|].
  by destruct (list_find P l) as [[? ?]|].
Qed.

Lemma head_filter P `{!∀ x, Decision (P x)} l :
  head (filter P l) = array_find P l.
Proof.
  induction l as [|x l IH]; [done|].
  rewrite array_find_cons, filter_cons. by destruct (decide (P x)).
Qed.

(** The first element that satisfies [P], when it also satisfies [Q],
    is the first that satisfies both. *)
Lemma array_find_refine P Q `{!∀ x, Decision (P x)} `{!∀ x, Decision (Q x)}
    `{!∀ x, Decision (P x ∧ Q x)} l x :
  array_find P l = Some x → Q x → array_find (λ y, P y ∧ Q y) l = Some x.
Proof.
  induction l as [|y l IH]; [done|].
  rewrite !array_find_cons. intros Hf HQ.
  destruct (decide (P y)) as [HP|HnP].
  - injection Hf as ->. by rewrite decide_True.
  - rewrite decide_False by tauto. by apply IH.
Qed.

Lemma array_find_unique P `{!∀ x, Decision (P x)} l x :
  x ∈ l → P x → (∀ y, y ∈ l → P y → y = x) → array_find P l = Some x.
Proof.
  intros Hx HP Huniq.
  destruct (array_find P l) as [y|] eqn:Hf.
  - apply array_find_Some in Hf as [Hy HPy]. f_equal. by apply Huniq.
  - rewrite array_find_None in Hf. by destruct (Hf x Hx).
Qed.
End arrays.

Lemma NoDup_fmap_elem_inj {A B} (f : A → B) (l : list A) x y :
  NoDup (f <$> l) → x ∈ l → y ∈ l → f x = f y → x = y.
Proof.
  induction l as [|a l IH]; intros Hnd Hx Hy Hf.
  { by apply elem_of_nil in Hx. }
  rewrite fmap_cons in Hnd. apply NoDup_cons in Hnd as [Ha Hnd].
  apply elem_of_cons in Hx as [->|Hx], Hy as [->|Hy]; [done|..|by apply IH].
  - destruct Ha. rewrite Hf. by apply list_elem_of_fmap_2.
  - destruct Ha. rewrite <-Hf. by apply list_elem_of_fmap_2.
Qed.

(** ** Objects *)

Section objects.
Context {A : Type}.
Implicit Types (o : JsObject.t A).

Lemma get_cons (k key : string) (v : A) o :
  JsObject.get key ((k, v) :: o) = if decide (k = key) then Some v else JsObject.get key o.
Proof.
  unfold JsObject.get. simpl. destruct (decide (k = key)); [done|].
  by destruct (list_find _ o) as [[? ?]|].
Qed.

Lemma get_set (key key' : string) (v : A) o :
  JsObject.get key (JsObject.set key' v o)
  = if decide (key = key') then Some v else JsObject.get key o.
Proof.
  induction o as [|[k w] o IH]; simpl.
  - rewrite get_cons. by repeat case_decide.
  - destruct (String.eqb_spec k key') as [->|Hne]; rewrite !get_cons.
    + by repeat case_decide; subst.
    + rewrite IH. by repeat case_decide; subst.
Qed.

Lemma get_Some_elem (key : string) (v : A) o :
  JsObject.get key o = Some v → v ∈ o.*2.
Proof.
  unfold JsObject.get.
  destruct (list_find _ o) as [[i kv]|] eqn:Hf; [|done].
  intros [= <-]. apply list_find_Some in Hf as (Hl & _).
  apply list_elem_of_fmap. exists kv. split; [done|].
  by eapply list_elem_of_lookup_2.
Qed.

Lemma values_elem (v : A) o : v ∈ JsObject.values o → v ∈ o.*2.
Proof.
  unfold JsObject.values. cbv zeta. rewrite elem_of_app.
  intros [Hv|Hv].
  - apply list_elem_of_fmap in Hv as ([i w] & -> & Hiw). simpl.
    rewrite merge_sort_Permutation in Hiw.
    apply list_elem_of_omap in Hiw as ([k w'] & Hkw & Heq). simpl in Heq.
    destruct (JsObject.array_index k); [|done]. injection Heq as _ ->.
    apply list_elem_of_fmap. by exists (k, w).
  - apply list_elem_of_fmap in Hv as (kv & -> & Hkv).
    apply list_elem_of_filter in Hkv as [_ Hkv].
    apply list_elem_of_fmap. by exists kv.
Qed.

Lemma set_values (key : string) (v w : A) o :
  w ∈ (JsObject.set key v o).*2 → w = v ∨ w ∈ o.*2.
Proof.
  induction o as [|[k u] o IH]; simpl.
  - rewrite list_elem_of_singleton. by left.
  - destruct (String.eqb k key); simpl; rewrite !elem_of_cons; [tauto|].
    intros [->|Hw]; [tauto|]. destruct (IH Hw); tauto.
Qed.
End objects.

(** ** The walks end *)

Section walks_end.
Implicit Types (visited : gset string) (ids : list string).

(** Visiting an id that was not visited leaves fewer ids to visit. *)
Lemma unvisited_shrinks visited ids x :
  x ∈ ids → x ∉ visited →
  (length (filter (λ i, i ∉ {[x]} ∪ visited) ids)
   < length (filter (λ i, i ∉ visited) ids))%nat.
Proof.
  intros Hx Hv.
  rewrite (list_filter_iff (λ i, i ∉ {[x]} ∪ visited) (λ i, i ≠ x ∧ i ∉ visited))
    by (intros i; rewrite not_elem_of_union, not_elem_of_singleton; done).
  rewrite <-list_filter_filter.
  apply length_filter_lt with (x := x); [|by intros []].
  by apply list_elem_of_filter.
Qed.

Lemma unvisited_positive visited ids x :
  x ∈ ids → x ∉ visited → (0 < length (filter (λ i, i ∉ visited) ids))%nat.
Proof.
  intros Hx Hv. pose proof (unvisited_shrinks visited ids x Hx Hv). lia.
Qed.

Lemma walkA_total fuel nodes connections visited ordered current :
  (∀ cur, current = Some cur → cur ∈ nodes) →
  (length (filter (λ i, i ∉ visited) (PathNode.id <$> nodes)) ≤ fuel)%nat →
  is_Some (PlayerA.walk fuel nodes connections visited ordered current).
Proof.
  revert visited ordered current.
  induction fuel as [|fuel IH]; intros visited ordered current Hcur Hfuel;
    destruct current as [cur|]; simpl; try done;
    case_bool_decide as Hvis; try done.
  - assert (Hin : PathNode.id cur ∈ PathNode.id <$> nodes)
      by (apply list_elem_of_fmap_2; auto).
    pose proof (unvisited_positive _ _ _ Hin Hvis). lia.
  - destruct (filter _ connections) as [|nextConn ?]; [done|].
    apply IH.
    + intros n Hn. by apply array_find_Some in Hn as [? _].
    + assert (Hin : PathNode.id cur ∈ PathNode.id <$> nodes)
        by (apply list_elem_of_fmap_2; auto).
      pose proof (unvisited_shrinks _ _ _ Hin Hvis). lia.
Qed.

Lemma buildNodeOrder_total data : is_Some (PlayerA.buildNodeOrder data).
Proof.
  unfold PlayerA.buildNodeOrder. cbv zeta.
  destruct (array_find _ (PathData.nodes data)) as [startNode|] eqn:Hstart; [|done].
  destruct (walkA_total (PathData.fuel data) (PathData.nodes data)
              (PathData.connections data) ∅ [] (Some startNode)) as [ordered ->].
  - intros ? [= <-]. by apply array_find_Some in Hstart as [? _].
  - etrans; [apply length_filter|]. rewrite length_fmap. unfold PathData.fuel. lia.
  - simpl. by destruct (length ordered =? 0)%nat.
Qed.

(** Every id stored in [nextMap] is the target of a connection. *)
Lemma nextMap_targets connections from outs id :
  PlayerB.next_table connections !! from = Some outs → id ∈ outs.*2 →
  id ∈ Connection.to <$> connections.
Proof.
  unfold PlayerB.next_table. revert from outs id.
  induction connections as [|c conns IH] using rev_ind; intros from outs id.
  - simpl. by rewrite lookup_empty.
  - rewrite fold_left_app, fmap_app. simpl.
    match goal with
    | |- context [<[_ := _]> ?table] => set (m := table) in *
    end.
    destruct (decide (Connection.from c = from)) as [<-|Hne].
    + rewrite lookup_insert_eq. intros [= <-] Hid.
      assert (Hold : id ∈ (match m !! Connection.from c with
                           | Some o => o
                           | None => []
                           end).*2 → id ∈ (Connection.to <$> conns) ++ [Connection.to c]).
      { intros Hin.
        destruct (m !! Connection.from c) as [o|] eqn:Ho;
          [|by apply elem_of_nil in Hin].
        apply elem_of_app. left. by eapply IH. }
      destruct (String.eqb _ _); [by apply Hold|].
      apply set_values in Hid as [->|Hid];
        [apply elem_of_app; right; apply list_elem_of_here|].
      by apply Hold.
    + rewrite lookup_insert_ne by done. intros Ho Hid.
      apply elem_of_app. left. by eapply IH.
Qed.

Lemma follow_target (outs : JsObject.t string) id :
  PlayerB.follow outs = Some id → id ∈ outs.*2 ∧ id ≠ "".
Proof.
  assert (Htruthy : ∀ v, PlayerB.truthy_id v = Some id → v = Some id ∧ id ≠ "").
  { intros [v|]; simpl; [|done].
    destruct (String.eqb_spec v ""); [done|]. by intros [= ->]. }
  unfold PlayerB.follow.
  destruct (PlayerB.truthy_id (JsObject.get "next" outs)) eqn:H1.
  { intros [= ->]. apply Htruthy in H1 as [H1 ?]. split; [|done].
    by eapply get_Some_elem. }
  destruct (PlayerB.truthy_id (JsObject.get "pass" outs)) eqn:H2.
  { intros [= ->]. apply Htruthy in H2 as [H2 ?]. split; [|done].
    by eapply get_Some_elem. }
  destruct (PlayerB.truthy_id (JsObject.get "pathA" outs)) eqn:H3.
  { intros [= ->]. apply Htruthy in H3 as [H3 ?]. split; [|done].
    by eapply get_Some_elem. }
  intros [H4 ?]%Htruthy. split; [|done].
  apply values_elem. destruct (JsObject.values outs); [done|].
  injection H4 as ->. apply list_elem_of_here.
Qed.

(** The loop of the second listing ends within its fuel. *)
Lemma walkB_total fuel nodeMap connections visited orderedNodes current ids :
  (∀ id, PlayerB.truthy_id current = Some id → id ∈ ids) →
  (∀ c, c ∈ connections → Connection.to c ∈ ids) →
  (length (filter (λ i, i ∉ visited) ids) ≤ fuel)%nat →
  PlayerB.walk fuel nodeMap (PlayerB.next_table connections) visited
    orderedNodes current ≠ PlayerB.OutOfFuel.
Proof.
  intros Hcur Hto. revert visited orderedNodes current Hcur.
  induction fuel as [|fuel IH]; intros visited orderedNodes current Hcur Hfuel;
    simpl; destruct (PlayerB.truthy_id current) as [cur|] eqn:Hc; try done;
    case_bool_decide as Hvis; try done.
  - pose proof (unvisited_positive _ _ _ (Hcur _ eq_refl) Hvis). lia.
  - destruct (PlayerB.push_found nodeMap cur orderedNodes) as [pushed|]; [|done].
    destruct (PlayerB.next_table connections !! cur) as [outs|] eqn:Houts; [|done].
    apply IH.
    + intros id Hid.
      assert (Hf : PlayerB.follow outs = Some id).
      { destruct (PlayerB.follow outs) as [x|]; [|done]. simpl in Hid.
        by destruct (String.eqb x ""). }
      apply follow_target in Hf as [Hf _].
      pose proof (nextMap_targets _ _ _ _ Houts Hf) as Hin.
      apply list_elem_of_fmap in Hin as (c & -> & Hin). by apply Hto.
    + pose proof (unvisited_shrinks _ _ _ (Hcur _ eq_refl) Hvis). lia.
Qed.

Lemma buildTraversalOrder_total data :
  PlayerB.buildTraversalOrder data ≠ PlayerB.OutOfFuel.
Proof.
  unfold PlayerB.buildTraversalOrder, PlayerB.nodeMap, PlayerB.nextMap. cbv zeta.
  case_bool_decide; [done|]. destruct (existsb _ _); [done|].
  destruct (array_find _ (PathData.nodes data)) as [start|] eqn:Hstart; [|done].
  apply walkB_total
    with (ids := PathNode.id start :: (Connection.to <$> PathData.connections data)).
  - intros id. simpl. destruct (String.eqb _ _); [done|].
    intros [= <-]. apply list_elem_of_here.
  - intros c Hc. apply list_elem_of_further. by apply list_elem_of_fmap_2.
  - etrans; [apply length_filter|]. simpl. rewrite length_fmap.
    unfold PathData.fuel. lia.
Qed.
End walks_end.

(** ** The first listing follows the specified order when the first
    connection listed is the primary one *)

Section first_listing.
Import TraversalSpec.
Variable data : PathData.t.
Let nodes := PathData.nodes data.
Let connections := PathData.connections data.
Hypothesis Hfirst : first_listed_primary data.

Lemma forward_first node :
  node ∈ nodes →
  forward connections node
  = head (filter (λ c, Connection.from c = PathNode.id node) connections).
Proof.
  intros Hnode. rewrite head_filter. unfold forward.
  destruct (array_find (λ c, Connection.from c = PathNode.id node) connections)
    as [c|] eqn:Hc.
  - apply (array_find_refine
             (λ c, Connection.from c = PathNode.id node)
             (λ c, Connection.fromPort c = primaryPort (PathNode.type node)));
      [done|]. by apply Hfirst.
  - rewrite array_find_None in Hc |- *. intros c Hin [Hfrom _]. by eapply Hc.
Qed.

Lemma walkA_visit fuel visited ordered cur :
  cur ∈ nodes →
  PlayerA.walk fuel nodes connections visited ordered (Some cur)
  = (ordered ++.) <$> visit fuel nodes connections visited cur.
Proof.
  revert visited ordered cur.
  induction fuel as [|fuel IH]; intros visited ordered cur Hcur; simpl;
    case_bool_decide as Hvis; simpl; rewrite ?app_nil_r; try done.
  rewrite (forward_first _ Hcur).
  destruct (filter _ connections) as [|nextConn ?]; simpl.
  { repeat case_bool_decide; try tauto; by rewrite ?app_nil_r. }
  destruct (array_find (λ n, PathNode.id n = Connection.to nextConn) nodes)
    as [next|] eqn:Hnext; simpl.
  - apply array_find_Some in Hnext as [Hin _].
    rewrite (IH _ _ _ Hin).
    destruct (visit fuel nodes connections _ next) as [rest|]; simpl; [|done].
    repeat case_bool_decide; try tauto; try rewrite <-app_assoc; done.
  - replace (PlayerA.walk fuel nodes connections _ _ None) with
      (Some (if bool_decide (PathNode.type cur ≠ "start")
             then ordered ++ [cur] else ordered))
      by (by destruct fuel).
    repeat case_bool_decide; try tauto; by rewrite ?app_nil_r.
Qed.

Lemma buildNodeOrder_order start :
  array_find (λ n, PathNode.type n = "start") nodes = Some start →
  ∃ visited,
    TraversalSpec.order data start = Some visited
    ∧ PlayerA.buildNodeOrder data
      = Some (match visited with
              | [] => filter (λ n, PathNode.type n ≠ "start") nodes
              | _ => visited
              end).
Proof.
  intros Hstart.
  destruct (buildNodeOrder_total data) as [result Hresult].
  revert Hresult. unfold PlayerA.buildNodeOrder, TraversalSpec.order. cbv zeta.
  fold nodes connections. rewrite Hstart.
  rewrite walkA_visit by (by apply array_find_Some in Hstart as [? _]).
  destruct (visit _ nodes connections ∅ start) as [rest|]; simpl; [|done].
  intros _. exists rest. split; [done|]. by destruct rest.
Qed.
End first_listing.

(** ** The maps of the second listing *)

Section maps.
Implicit Types (nodes : list PathNode.t) (connections : list Connection.t).

Lemma nodeMap_acc_notin nodes (m : gmap string PathNode.t) k :
  k ∉ PathNode.id <$> nodes →
  fold_left (λ m n, <[PathNode.id n := n]> m) nodes m !! k = m !! k.
Proof.
  revert m. induction nodes as [|x l IH]; intros m Hk; simpl; [done|].
  rewrite fmap_cons, not_elem_of_cons in Hk. destruct Hk as [Hne Hk].
  rewrite IH by done. by rewrite lookup_insert_ne.
Qed.



Lemma nodeMap_lookup nodes n :
  NoDup (PathNode.id <$> nodes) → n ∈ nodes →
  PlayerB.node_table nodes !! PathNode.id n = Some n.
Proof.
  unfold PlayerB.node_table. generalize (∅ : gmap string PathNode.t).
  induction nodes as [|x l IH]; intros m Hnd Hin; simpl.
  { by apply elem_of_nil in Hin. }
  rewrite fmap_cons in Hnd. apply NoDup_cons in Hnd as [Hx Hnd].
  apply elem_of_cons in Hin as [->|Hin].
  - rewrite nodeMap_acc_notin by done. apply lookup_insert_eq.
  - by apply IH.
Qed.

Lemma nextMap_snoc connections c :
  PlayerB.next_table (connections ++ [c])
  = <[Connection.from c :=
        let outs := match PlayerB.next_table connections !! Connection.from c with
                    | Some o => o
                    | None => []
                    end in
        if String.eqb (Connection.fromPort c) "__proto__" then outs
        else JsObject.set (Connection.fromPort c) (Connection.to c) outs]>
      (PlayerB.next_table connections).
Proof. unfold PlayerB.next_table. by rewrite fold_left_app. Qed.

Lemma nextMap_None connections from :
  PlayerB.next_table connections !! from = None ↔
  ∀ c, c ∈ connections → Connection.from c ≠ from.
Proof.
  induction connections as [|c conns IH] using rev_ind.
  - split; [|done]. intros _ c Hc. by apply elem_of_nil in Hc.
  - rewrite nextMap_snoc. destruct (decide (Connection.from c = from)) as [<-|Hne].
    + rewrite lookup_insert_eq. split; [done|]. intros H.
      destruct (H c); [|done]. apply elem_of_app. right. apply list_elem_of_here.
    + rewrite lookup_insert_ne, IH by done. split.
      * intros H c' [Hc'|Hc']%elem_of_app; [by apply H|].
        apply list_elem_of_singleton in Hc'. by subst.
      * intros H c' Hc'. apply H, elem_of_app. by left.
Qed.

(** A port no connection leaves [from] through is not in its object. *)
Lemma nextMap_port_unused connections from port outs :
  (∀ c, c ∈ connections → Connection.from c = from → Connection.fromPort c ≠ port) →
  PlayerB.next_table connections !! from = Some outs →
  JsObject.get port outs = None.
Proof.
  revert outs. induction connections as [|c conns IH] using rev_ind; intros outs Hun.
  - done.
  - rewrite nextMap_snoc. destruct (decide (Connection.from c = from)) as [Heq|Hne].
    + rewrite <-Heq, lookup_insert_eq. intros [= <-]. cbv zeta.
      assert (Hold : JsObject.get port
                       (match PlayerB.next_table conns !! Connection.from c with
                        | Some o => o
                        | None => []
                        end) = None).
      { destruct (PlayerB.next_table conns !! Connection.from c) as [o|] eqn:Ho;
          [|done].
        apply IH; [|by rewrite <-Heq].
        intros c' Hc'. apply Hun, elem_of_app. by left. }
      destruct (String.eqb _ _); [done|].
      rewrite get_set, decide_False; [done|].
      intros ->. destruct (Hun c); [|done..]. apply elem_of_app. right.
      apply list_elem_of_here.
    + rewrite lookup_insert_ne by done. apply IH.
      intros c' Hc'. apply Hun, elem_of_app. by left.
Qed.

(** A connection whose port is used once is found under its port. *)
Lemma nextMap_port connections c :
  NoDup ((λ c, (Connection.from c, Connection.fromPort c)) <$> connections) →
  c ∈ connections → Connection.fromPort c ≠ "__proto__" →
  ∃ outs, PlayerB.next_table connections !! Connection.from c = Some outs
          ∧ JsObject.get (Connection.fromPort c) outs = Some (Connection.to c).
Proof.
  intros Hnd Hc Hport. revert Hnd Hc.
  induction connections as [|c' conns IH] using rev_ind; intros Hnd Hc.
  { by apply elem_of_nil in Hc. }
  rewrite fmap_app in Hnd. apply NoDup_app in Hnd as (Hnd & Hdisj & _).
  rewrite nextMap_snoc. cbv zeta.
  apply elem_of_app in Hc as [Hc|Hc].
  - destruct (IH Hnd Hc) as (outs & Houts & Hget).
    destruct (decide (Connection.from c' = Connection.from c)) as [Heq|Hne].
    + rewrite Heq, lookup_insert_eq. eexists. split; [done|].
      rewrite Houts. destruct (String.eqb _ _); [done|].
      rewrite get_set, decide_False; [done|].
      intros Hsame. apply (Hdisj (Connection.from c, Connection.fromPort c)).
      * by apply (list_elem_of_fmap_2 (λ c, (Connection.from c, Connection.fromPort c))).
      * simpl. rewrite <-Heq, Hsame. apply list_elem_of_here.
    + rewrite lookup_insert_ne by done. by exists outs.
  - apply list_elem_of_singleton in Hc. subst c'.
    rewrite lookup_insert_eq. eexists. split; [done|].
    destruct (String.eqb_spec (Connection.fromPort c) "__proto__"); [done|].
    by rewrite get_set, decide_True.
Qed.
End maps.

(** ** The node type table *)

Lemma outputs_of_cases type :
  TraversalSpec.outputs_of type ∈ [[]; ["next"]; ["pass"; "fail"]; ["pathA"; "pathB"]].
Proof.
  unfold TraversalSpec.outputs_of.
  destruct (NodeTypes.NODE_TYPES !! type) as [d|] eqn:Hd; [|apply list_elem_of_here].
  assert (Hall : map_Forall
            (λ _ d, NodeType.outputs d
                    ∈ [[]; ["next"]; ["pass"; "fail"]; ["pathA"; "pathB"]])
            NodeTypes.NODE_TYPES) by by_decide.
  by apply (Hall _ _ Hd).
Qed.

Lemma primaryPort_outputs type :
  TraversalSpec.primaryPort type
  = match TraversalSpec.outputs_of type with
    | first :: _ :: _ => first
    | _ => "next"
    end.
Proof.
  unfold TraversalSpec.primaryPort, TraversalSpec.outputs_of.
  by destruct (NodeTypes.NODE_TYPES !! type).
Qed.

(** ** The second listing follows the specified order on well-formed
    paths, with the Start node in front *)

Section second_listing.
Import TraversalSpec.
Variable data : PathData.t.
Let nodes := PathData.nodes data.
Let connections := PathData.connections data.
Hypothesis Hwf : well_formed data.

Lemma node_by_id n :
  n ∈ nodes → array_find (λ m, PathNode.id m = PathNode.id n) nodes = Some n.
Proof.
  intros Hn. apply array_find_unique; [done..|].
  intros m Hm Hid.
  by apply (NoDup_fmap_elem_inj PathNode.id nodes m n (wf_ids _ Hwf)).
Qed.

Lemma only_start start n :
  array_find (λ n, PathNode.type n = "start") nodes = Some start →
  n ∈ nodes → PathNode.type n = "start" → n = start.
Proof.
  intros Hs Hn Hty. apply array_find_Some in Hs as [Hs Hsty].
  pose proof (wf_one_start _ Hwf) as Hone. fold nodes in Hone.
  assert (Hn' : n ∈ filter (λ n, PathNode.type n = "start") nodes)
    by by apply list_elem_of_filter.
  assert (Hs' : start ∈ filter (λ n, PathNode.type n = "start") nodes)
    by by apply list_elem_of_filter.
  destruct (filter _ nodes) as [|x [|? ?]]; try done.
  apply list_elem_of_singleton in Hn', Hs'. congruence.
Qed.

(** One round: the id the player follows is the target of the
    connection the specification follows. *)
Lemma follow_forward n :
  n ∈ nodes →
  match PlayerB.next_table connections !! PathNode.id n with
  | None => forward connections n = None
  | Some outs =>
      ∃ c next, forward connections n = Some c
                ∧ array_find (λ m, PathNode.id m = Connection.to c) nodes = Some next
                ∧ PathNode.id next = Connection.to c
                ∧ PlayerB.follow outs = Some (PathNode.id next)
  end.
Proof.
  intros Hn.
  destruct (PlayerB.next_table connections !! PathNode.id n) as [outs|] eqn:Houts.
  2:{ rewrite nextMap_None in Houts. unfold forward.
      apply array_find_None. intros c Hc [Hfrom _]. by apply (Houts c). }
  (* some connection leaves [n], so one leaves through its primary port *)
  assert (∃ c0, c0 ∈ connections ∧ Connection.from c0 = PathNode.id n) as (c0 & Hc0 & Hf0).
  { destruct (decide (Exists (λ c, Connection.from c = PathNode.id n) connections))
      as [Hex|Hno].
    - apply Exists_exists in Hex. done.
    - assert (PlayerB.next_table connections !! PathNode.id n = None); [|congruence].
      apply nextMap_None. intros c Hc Hfrom. apply Hno, Exists_exists. eauto. }
  destruct (wf_primary _ Hwf c0 n Hc0 Hn Hf0) as (c & Hc & Hfrom & Hport).
  assert (Hforward : forward connections n = Some c).
  { apply array_find_unique; [done..|].
    intros c' Hc' [Hfrom' Hport'].
    apply (NoDup_fmap_elem_inj (λ c, (Connection.from c, Connection.fromPort c))
             connections c' c (wf_port_once _ Hwf)); [done..|].
    by rewrite Hfrom, Hfrom', Hport, Hport'. }
  assert (Hplain : Connection.fromPort c ≠ "__proto__").
  { pose proof (wf_ports _ Hwf c n Hc Hn Hfrom) as Hdeclared.
    pose proof (outputs_of_cases (PathNode.type n)) as Hcases.
    intros Heq. rewrite Heq in Hdeclared.
    repeat (apply elem_of_cons in Hcases as [Hcases|Hcases]);
      [..|by apply elem_of_nil in Hcases];
      rewrite Hcases in Hdeclared; revert Hdeclared; by_decide. }
  destruct (nextMap_port connections c (wf_port_once _ Hwf) Hc Hplain)
    as (outs' & Houts' & Hget).
  rewrite Hfrom, Houts in Houts'. injection Houts' as <-.
  pose proof (wf_targets _ Hwf c Hc) as Hto.
  apply list_elem_of_fmap in Hto as (next & Hid & Hnext).
  exists c, next. split; [done|]. split.
  { rewrite Hid. by apply node_by_id. } split; [done|].
  assert (Hne : Connection.to c ≠ "").
  { rewrite Hid. by apply (wf_ids_nonempty _ Hwf). }
  (* the ports in use are declared ports of the type *)
  assert (Hunused : ∀ port, port ∉ outputs_of (PathNode.type n) →
                            JsObject.get port outs = None).
  { intros port Hport'. eapply nextMap_port_unused; [|done].
    intros c' Hc' Hfrom' Heq. apply Hport'. rewrite <-Heq.
    by apply (wf_ports _ Hwf c' n). }
  pose proof (wf_ports _ Hwf c n Hc Hn Hfrom) as Hdeclared.
  rewrite Hport, primaryPort_outputs in Hget, Hdeclared.
  unfold PlayerB.follow. rewrite <-Hid.
  pose proof (outputs_of_cases (PathNode.type n)) as Hcases.
  repeat (apply elem_of_cons in Hcases as [Hcases|Hcases]);
    [..|by apply elem_of_nil in Hcases];
    rewrite Hcases in *.
  - by apply elem_of_nil in Hdeclared.
  - rewrite Hget. simpl. by destruct (String.eqb_spec (Connection.to c) "").
  - rewrite (Hunused "next") by by_decide. rewrite Hget. simpl.
    by destruct (String.eqb_spec (Connection.to c) "").
  - rewrite (Hunused "next"), (Hunused "pass") by by_decide. rewrite Hget. simpl.
    by destruct (String.eqb_spec (Connection.to c) "").
Qed.

Variable start : PathNode.t.
Hypothesis Hstart : array_find (λ n, PathNode.type n = "start") nodes = Some start.

Lemma walkB_visit fuel visited ordered n :
  n ∈ nodes → PathNode.id start ∈ visited →
  PlayerB.walk fuel (PlayerB.node_table nodes) (PlayerB.next_table connections)
    visited ordered (Some (PathNode.id n))
  = match visit fuel nodes connections visited n with
    | Some rest => PlayerB.Ordered (ordered ++ rest)
    | None => PlayerB.OutOfFuel
    end.
Proof.
  revert visited ordered n.
  induction fuel as [|fuel IH]; intros visited ordered n Hn Hs; simpl;
    (destruct (String.eqb_spec (PathNode.id n) "") as [Hempty|_];
     [by destruct (wf_ids_nonempty _ Hwf n Hn)|]);
    case_bool_decide as Hvis; simpl; rewrite ?app_nil_r; try done.
  assert (Hty : PathNode.type n ≠ "start").
  { intros Hty. apply Hvis. by rewrite (only_start start n Hstart Hn Hty). }
  rewrite bool_decide_eq_false_2 by done.
  unfold PlayerB.push_found.
  rewrite (nodeMap_lookup nodes n (wf_ids _ Hwf) Hn).
  pose proof (follow_forward n Hn) as Hstep.
  destruct (PlayerB.next_table connections !! PathNode.id n) as [outs|].
  - destruct Hstep as (c & next & Hforward & Hnext & _ & Hfollow).
    rewrite Hforward, Hnext, Hfollow.
    apply array_find_Some in Hnext as [Hin _].
    rewrite IH; [|done|by apply elem_of_union_r].
    destruct (visit fuel nodes connections _ next) as [rest|]; simpl; [|done].
    by rewrite <-app_assoc.
  - rewrite Hstep. done.
Qed.

Lemma buildTraversalOrder_order :
  PlayerB.own_keys data →
  ∃ visited,
    TraversalSpec.order data start = Some visited
    ∧ PlayerB.buildTraversalOrder data = PlayerB.Ordered (start :: visited).
Proof.
  intros [Hproto Hfrom].
  pose proof (buildTraversalOrder_total data) as Hresult.
  revert Hresult.
  unfold PlayerB.buildTraversalOrder, PlayerB.nodeMap, PlayerB.nextMap,
    TraversalSpec.order. cbv zeta.
  fold nodes connections. rewrite bool_decide_eq_false_2 by done.
  assert (existsb (λ c, bool_decide (Connection.from c ∈ inherited_names)) connections
          = false) as ->.
  { apply not_true_is_false. intros (c & Hc & Hin)%existsb_exists.
    apply bool_decide_eq_true in Hin. apply (Hfrom c); [|done].
    by apply list_elem_of_In. }
  rewrite Hstart.
  pose proof Hstart as [Hs Hty]%array_find_Some.
  unfold PathData.fuel. fold nodes connections.
  rewrite Nat.add_1_r. simpl.
  destruct (String.eqb_spec (PathNode.id start) "") as [Hempty|_];
    [by destruct (wf_ids_nonempty _ Hwf start Hs)|].
  rewrite !bool_decide_eq_false_2 by apply not_elem_of_empty.
  unfold PlayerB.push_found.
  rewrite (nodeMap_lookup nodes start (wf_ids _ Hwf) Hs).
  pose proof (follow_forward start Hs) as Hstep.
  destruct (PlayerB.next_table connections !! PathNode.id start) as [outs|].
  - destruct Hstep as (c & next & Hforward & Hnext & _ & Hfollow).
    rewrite Hforward, Hnext, Hfollow.
    apply array_find_Some in Hnext as [Hin _].
    rewrite walkB_visit; [|done|by apply elem_of_union_l, elem_of_singleton].
    destruct (visit _ nodes connections _ next) as [rest|]; simpl;
      [|intros Hfuel; by destruct Hfuel].
    intros _. rewrite bool_decide_eq_true_2 by done. by exists rest.
  - rewrite Hstep. simpl. intros _. rewrite bool_decide_eq_true_2 by done.
    by exists [].
Qed.
End second_listing.

(** Claim C1, as amended.  Let [start] be the Start node of the path,
    and let the described order be [TraversalSpec.order]: from Start,
    follow the connection that leaves through the primary forward
    port, append every node visited but Start, stop where no such
    connection leaves or at the first node seen before.  The first
    listing follows the connection listed first among those leaving a
    node, whatever its port: when that one always leaves through the
    primary forward port, [buildNodeOrder] returns the described
    order, or, when that order is empty, all nodes that are not Start
    nodes.  The second listing keeps Start as the first entry: on a
    well-formed path whose tables are filled under keys of their own
    (no node is called [__proto__], and no connection leaves from an
    id that every object inherits) [buildTraversalOrder] returns Start
    followed by the described order. *)
Theorem traversal_order_amended (data : PathData.t) (start : PathNode.t) :
  array_find (λ n, PathNode.type n = "start") (PathData.nodes data) = Some start →
  (TraversalSpec.first_listed_primary data →
     ∃ visited,
       TraversalSpec.order data start = Some visited
       ∧ PlayerA.buildNodeOrder data
         = Some (match visited with
                 | [] => filter (λ n, PathNode.type n ≠ "start") (PathData.nodes data)
                 | _ => visited
                 end))
  ∧ (TraversalSpec.well_formed data → PlayerB.own_keys data →
       ∃ visited,
         TraversalSpec.order data start = Some visited
         ∧ PlayerB.buildTraversalOrder data = PlayerB.Ordered (start :: visited)).
Proof.
  intros Hstart. split.
  - intros Hfirst. by apply buildNodeOrder_order.
  - intros Hwf Hown. by apply buildTraversalOrder_order.
Qed.

Lemma scenario_first_listed_primary : TraversalSpec.first_listed_primary Samples.scenario.
Proof.
  intros node c Hnode Hc.
  each_elem Hnode; vm_compute in Hc; try done; by injection Hc as <-.
Qed.

Lemma scenario_well_formed : TraversalSpec.well_formed Samples.scenario.
Proof.
  split.
  - by_decide.
  - intros n Hn. each_elem Hn; done.
  - reflexivity.
  - intros c Hc. each_elem Hc; by_decide.
  - intros c n Hc Hn Hfrom. each_elem Hc; each_elem Hn; try done; by_decide.
  - by_decide.
  - intros c n Hc Hn Hfrom.
    each_elem Hc; each_elem Hn; try done; eexists; (split; [|by split]); by_decide.
Qed.

Lemma scenario_own_keys : PlayerB.own_keys Samples.scenario.
Proof.
  split; [by_decide|]. intros c Hc. each_elem Hc; by_decide.
Qed.

Lemma traversal_order_witness :
  PlayerA.buildNodeOrder Samples.scenario = Some [Samples.node_t; Samples.node_e]
  ∧ PlayerB.buildTraversalOrder Samples.scenario
    = PlayerB.Ordered [Samples.node_s; Samples.node_t; Samples.node_e].
Proof.
  destruct (traversal_order_amended Samples.scenario Samples.node_s eq_refl)
    as [HA HB].
  destruct (HA scenario_first_listed_primary) as (visited & Hv & ->).
  destruct (HB scenario_well_formed scenario_own_keys) as (visited' & Hv' & ->).
  vm_compute in Hv, Hv'. injection Hv as <-. injection Hv' as <-. done.
Defined.

Lemma traversal_order_counterexample :
  TraversalSpec.order Samples.gate_path Samples.node_s
    = Some [Samples.node_g; Samples.node_b]
  ∧ PlayerA.buildNodeOrder Samples.gate_path = Some [Samples.node_g; Samples.node_a]
  ∧ TraversalSpec.order Samples.unconnected_path Samples.node_s = Some []
  ∧ PlayerA.buildNodeOrder Samples.unconnected_path = Some [Samples.node_t]
  ∧ PlayerB.buildTraversalOrder Samples.scenario
    = PlayerB.Ordered [Samples.node_s; Samples.node_t; Samples.node_e].
Proof. repeat split; by vm_compute. Qed.

(** ** Sessions of the first listing *)

Section session_a.
Import PlayerA.

#[local] Instance same_shape_refl : Reflexive same_shape.
Proof. by split. Qed.
#[local] Instance same_shape_trans : Transitive same_shape.
Proof. intros a b c [? ?] [? ?]. split; congruence. Qed.

Lemma sendXapi_shape verb node st : same_shape st (sendXapi verb node st).
Proof. unfold sendXapi. by destruct (_ || _). Qed.

Lemma markCompleted_shape node st : same_shape st (markCompleted node st).
Proof.
  destruct node as [node|]; [|done]. simpl.
  etrans; [|apply sendXapi_shape]. split; [done|]. simpl. apply dom_alter_L.
Qed.

Lemma updateProgress_shape st : same_shape st (updateProgress st).
Proof. done. Qed.

Lemma renderContent_shape node st : same_shape st (renderContent node st).
Proof.
  unfold renderContent. case_bool_decide; [|done].
  etrans; [apply markCompleted_shape|apply sendXapi_shape].
Qed.

(** In range, [navigateTo] ends with [updateProgress]. *)
Lemma navigateTo_in_range now (index : nat) st :
  (index < length (orderedNodes st))%nat →
  ∃ st', same_shape st st' ∧ navigateTo now (Z.of_nat index) st = updateProgress st'.
Proof.
  intros Hrange. unfold navigateTo.
  rewrite (proj2 (Z.ltb_ge _ _)) by lia.
  rewrite (proj2 (Z.leb_gt _ _)) by lia.
  simpl. rewrite Nat2Z.id.
  set (st1 := if _ && _ then _ else st).
  assert (H1 : same_shape st st1).
  { subst st1. destruct (_ && _); [apply markCompleted_shape|done]. }
  assert (Hlen : orderedNodes st1 = orderedNodes st) by apply H1.
  destruct (lookup_lt_is_Some_2 (orderedNodes st) index Hrange) as [node Hnode].
  rewrite Hlen, Hnode.
  eexists. split; [|reflexivity].
  etrans; [exact H1|].
  etrans; [|apply renderContent_shape].
  etrans; [|apply sendXapi_shape].
  split; [done|]. simpl. apply dom_alter_L.
Qed.

Lemma navigateTo_shape now index st : same_shape st (navigateTo now index st).
Proof.
  destruct (decide (0 ≤ index < Z.of_nat (length (orderedNodes st)))) as [Hin|Hout].
  - destruct (navigateTo_in_range now (Z.to_nat index) st) as (st' & Hs & Heq); [lia|].
    rewrite Z2Nat.id in Heq by lia. rewrite Heq.
    etrans; [exact Hs|apply updateProgress_shape].
  - unfold navigateTo.
    destruct (Z.ltb_spec index 0); [done|].
    destruct (Z.leb_spec (Z.of_nat (length (orderedNodes st))) index); [done|lia].
Qed.

Lemma next_shape now st : same_shape st (next now st).
Proof.
  unfold next. cbv zeta.
  destruct (_ <? _).
  - etrans; [apply markCompleted_shape|apply navigateTo_shape].
  - apply markCompleted_shape.
Qed.

Lemma handle_shape now e st : same_shape st (handle now e st).
Proof.
  destruct e as [| | |portName|index]; simpl.
  - apply next_shape.
  - unfold prev. destruct (_ <? _)%nat; [apply navigateTo_shape|done].
  - apply next_shape.
  - unfold chooseBranch. destruct (orderedNodes st !! currentIndex st); [|done].
    cbv zeta. destruct (_ ≫= _).
    + etrans; [apply markCompleted_shape|apply navigateTo_shape].
    + apply next_shape.
  - apply navigateTo_shape.
Qed.

Lemma run_shape events st : same_shape st (run events st).
Proof.
  unfold run. revert st. induction events as [|[now e] events IH]; intros st; [done|].
  simpl. etrans; [apply handle_shape|apply IH].
Qed.

Lemma well_keyed_shape st st' : same_shape st st' → well_keyed st → well_keyed st'.
Proof. intros [Ho Hd] (? & ? & ?). unfold well_keyed. by rewrite Ho, Hd. Qed.

Lemma walkA_keys fuel nodes connections visited ordered current result :
  NoDup (PathNode.id <$> ordered) →
  Forall (λ n, PathNode.type n ≠ "start" ∧ PathNode.id n ∈ visited) ordered →
  walk fuel nodes connections visited ordered current = Some result →
  NoDup (PathNode.id <$> result) ∧ Forall (λ n, PathNode.type n ≠ "start") result.
Proof.
  revert visited ordered current.
  induction fuel as [|fuel IH]; intros visited ordered current Hnd Hall;
    destruct current as [cur|]; simpl;
    try case_bool_decide as Hvis; try done;
    try (intros [= <-]; split; [done|]; eapply Forall_impl; [done|]; by intros ? []).
  set (ordered' := if bool_decide _ then _ else _).
  assert (NoDup (PathNode.id <$> ordered')
          ∧ Forall (λ n, PathNode.type n ≠ "start"
                         ∧ PathNode.id n ∈ ({[PathNode.id cur]} ∪ visited : gset string))
              ordered') as [Hnd' Hall'].
  { assert (Hall'' : Forall (λ n, PathNode.type n ≠ "start"
                         ∧ PathNode.id n ∈ ({[PathNode.id cur]} ∪ visited : gset string))
              ordered).
    { eapply Forall_impl; [done|]. intros n [? ?]. split; [done|].
      by apply elem_of_union_r. }
    subst ordered'. case_bool_decide as Hty; [|done]. split.
    - rewrite fmap_app. simpl. apply NoDup_app. split; [done|].
      split; [|apply NoDup_singleton].
      intros x Hx Hx'. apply list_elem_of_singleton in Hx'. subst x.
      apply list_elem_of_fmap in Hx as (n & Hid & Hn).
      rewrite Forall_forall in Hall. destruct (Hall n Hn) as [_ Hv].
      by rewrite <-Hid in Hv.
    - apply Forall_app. split; [done|]. apply Forall_singleton.
      split; [done|]. by apply elem_of_union_l, elem_of_singleton. }
  destruct (filter _ connections) as [|nextConn ?].
  - intros [= <-]. split; [done|]. eapply Forall_impl; [done|]. by intros ? [].
  - by apply IH.
Qed.

Lemma init_states_dom (ordered : list PathNode.t) (m : gmap string NodeState) :
  dom (fold_left (λ m node, <[PathNode.id node := mkState Pending None None]> m)
         ordered m)
  = list_to_set (PathNode.id <$> ordered) ∪ dom m.
Proof.
  revert m. induction ordered as [|n l IH]; intros m; simpl.
  - by rewrite (left_id_L ∅ (∪)).
  - rewrite IH, dom_insert_L. set_solver.
Qed.

Lemma load_well_keyed data st :
  NoDup (PathNode.id <$> PathData.nodes data) →
  load data = Some st → well_keyed st.
Proof.
  intros Hnd. unfold load.
  destruct (buildNodeOrder data) as [ordered|] eqn:Hbuild; [|done].
  simpl. intros [= <-]. unfold well_keyed. simpl.
  assert (NoDup (PathNode.id <$> ordered)
          ∧ Forall (λ n, PathNode.type n ≠ "start") ordered) as [? ?].
  { revert Hbuild. unfold buildNodeOrder. cbv zeta.
    destruct (array_find _ (PathData.nodes data)) as [startNode|].
    - destruct (walk _ _ _ _ _ _) as [result|] eqn:Hwalk; [|done]. simpl.
      apply walkA_keys in Hwalk as [? ?]; [|apply NoDup_nil_2|apply Forall_nil_2].
      destruct (length result =? 0)%nat; intros [= <-]; [|done].
      split; [by apply NoDup_fmap_filter|].
      apply Forall_forall. by intros n [? _]%list_elem_of_filter.
    - intros [= <-]. split; [by apply NoDup_fmap_filter|].
      apply Forall_forall. by intros n [[? _] _]%list_elem_of_filter. }
  split; [done|]. split; [done|].
  rewrite init_states_dom, dom_empty_L. set_solver.
Qed.
End session_a.

(** ** Sessions of the second listing *)

Section session_b.
Import PlayerB.


End session_b.

(** Claim C9, at the inputs that break it.  In the second listing the
    Start node is an entry of the order: it is completed as soon as
    the page has loaded, and the bar counts it among the completed
    entries while it leaves it out of their total.  On the path
    [s -> t -> e] the bar shows 1 of 2 when the learner has completed
    nothing, and 3 of 2 once [t] and [e] are completed.  In both
    listings the bar is redrawn by a navigation only: passing the gate
    that ends a path marks the gate completed and leaves the bar as it
    was, at 0 of 1 in the first listing.  And the bar counts the
    records that [Object.values] lists: the record of a node whose id
    is [__proto__] is not among them, so in the first listing the bar
    of the path [s -> __proto__ -> e] shows 1 of 2 when both entries
    are completed. *)
Theorem progress_bar_miscounts :
  (∃ st, PlayerB.start Samples.scenario = Some st
         ∧ PlayerB.status_of st Samples.node_t = Some PlayerB.InProgress
         ∧ PlayerB.status_of st Samples.node_e = Some PlayerB.Pending
         ∧ PlayerB.progressBar st = Some (PlayerB.mkProgress 1 2)
         ∧ PlayerB.progressBar
             (PlayerB.run [PlayerB.MarkCompleteAndNext; PlayerB.MarkCompleteAndNext;
                           PlayerB.Prev] st)
           = Some (PlayerB.mkProgress 3 2))
  ∧ (∃ st, PlayerA.start Samples.some_time Samples.gate_end_path = Some st
           ∧ PlayerA.orderedNodes st = [Samples.node_g]
           ∧ PlayerA.status_of (PlayerA.run [(Samples.some_time, PlayerA.PassGate)] st)
               Samples.node_g = Some PlayerA.Completed
           ∧ PlayerA.progressBar
               (PlayerA.run [(Samples.some_time, PlayerA.PassGate)] st)
             = Some (PlayerA.mkProgress 0 1))
  ∧ (∃ st, PlayerA.start Samples.some_time Cases.proto_path = Some st
           ∧ PlayerA.orderedNodes st = [Cases.node_proto; Samples.node_e]
           ∧ PlayerA.status_of (PlayerA.run [(Samples.some_time, PlayerA.Next)] st)
               Cases.node_proto = Some PlayerA.Completed
           ∧ PlayerA.status_of (PlayerA.run [(Samples.some_time, PlayerA.Next)] st)
               Samples.node_e = Some PlayerA.Completed
           ∧ PlayerA.progressBar (PlayerA.run [(Samples.some_time, PlayerA.Next)] st)
             = Some (PlayerA.mkProgress 1 2)).
Proof.
  split; [|split]; eexists; (split; [vm_compute; reflexivity|]); repeat split;
    by vm_compute.
Qed.
(** ** The validator reports every defect *)

Section validator_reports.
Import NodeTypes.

Lemma elem_of_flat_map {A B} (f : A → list B) (l : list A) (b : B) :
  b ∈ flat_map f l ↔ ∃ a, a ∈ l ∧ b ∈ f a.
Proof.
  induction l as [|x l IH]; simpl.
  - split; [by intros ?%elem_of_nil|]. by intros (? & ?%elem_of_nil & _).
  - rewrite elem_of_app, IH. split.
    + intros [Hb | (a & Ha & Hb)]; [exists x|exists a]; split; try done;
        [by left|by right].
    + intros (a & [-> | Ha]%elem_of_cons & Hb); [by left|right; by exists a].
Qed.

(** Property X1.  For a path with at least one node, none of whose types is a
    name that every object inherits and each of whose labels prints,
    [validatePath] returns a result whose [valid] flag is true exactly
    when its list of errors is empty.  The list holds the message about
    a second Start node when two or more nodes are Start nodes, the
    unknown-type message of every node whose type is not registered,
    the is-required message of every required field that a node leaves
    empty, each behind the label of its node as the program prints it,
    and the message about a missing source or target for every end of a
    connection that is not the id of a node.  The numbers of a document
    are integers that a double holds exactly, so a title that is a
    number prints as its decimal digits. *)
Theorem validatePath_reports_every_defect
    (ns : list PathNode.t) (connections : option (list Connection.t)) :
  ns ≠ [] → Forall own_type ns → Forall labelled ns →
  ∃ result,
    validatePath (Some ns) connections = Some result
    ∧ (valid result = true ↔ errors result = [])
    ∧ ((1 < count_type "start" ns)%nat →
       "Learning path can only have one Start node" ∈ errors result)
    ∧ (∀ node label, node ∈ ns → node_label node = Some label →
       NODE_TYPES !! PathNode.type node = None →
       "[" +:+ label +:+ "] Unknown node type: " +:+ PathNode.type node
         ∈ errors result)
    ∧ (∀ node label typeDef field,
         node ∈ ns → node_label node = Some label →
         NODE_TYPES !! PathNode.type node = Some typeDef →
         field ∈ NodeType.fields typeDef →
         FieldDefinition.required field = true →
         truthy_opt (PathNode.field (FieldDefinition.name field) node) = false →
         "[" +:+ label +:+ "] " +:+ FieldDefinition.label field +:+ " is required"
           ∈ errors result)
    ∧ (∀ conns conn, connections = Some conns → conn ∈ conns →
         (Connection.from conn ∉ (PathNode.id <$> ns) →
          "Connection references non-existent source node: " +:+ Connection.from conn
            ∈ errors result)
         ∧ (Connection.to conn ∉ (PathNode.id <$> ns) →
            "Connection references non-existent target node: " +:+ Connection.to conn
              ∈ errors result)).
Proof.
  intros Hne Hown Hlab. destruct ns as [|n ns]; [done|]. clear Hne.
  eexists. split; [by apply validatePath_nonempty, checkable_own|].
  cbv zeta. simpl valid. simpl errors.
  set (nodes := n :: ns) in *.
  split; [apply length_eqb_0|].
  assert (Hnode : ∀ node msg, node ∈ nodes → msg ∈ node_errors node →
                              msg ∈ path_errors nodes connections).
  { intros node msg Hin Hmsg. unfold path_errors. rewrite !elem_of_app.
    do 3 right. left. apply elem_of_flat_map. by exists node. }
  split; [|split; [|split]].
  - intros Hmany. unfold path_errors. rewrite !elem_of_app. right. left.
    apply Nat.ltb_lt in Hmany. rewrite Hmany. apply elem_of_cons. by left.
  - intros node label Hin Hlabel Hty. apply (Hnode node); [done|].
    assert (Hnot : PathNode.type node ∉ inherited_names).
    { by apply (proj1 (Forall_forall _ _) Hown). }
    unfold node_errors, validateNode.
    rewrite Hlabel, Hty, bool_decide_eq_false_2 by done.
    simpl. apply elem_of_cons. left.
    reflexivity.
  - intros node label typeDef field Hin Hlabel Hty Hfield Hreq Hempty.
    apply (Hnode node); [done|].
    unfold node_errors. rewrite Hlabel, (validateNode_known _ _ Hty). cbv zeta.
    simpl valid. simpl errors.
    assert (Hmsg : FieldDefinition.label field +:+ " is required"
                     ∈ flat_map (field_errors node) (NodeType.fields typeDef)).
    { apply elem_of_flat_map. exists field. split; [done|].
      unfold field_errors. rewrite Hreq, Hempty. simpl. apply elem_of_cons. by left. }
    assert (Hlen : (length (flat_map (field_errors node) (NodeType.fields typeDef))
                      =? 0)%nat = false).
    { destruct (flat_map (field_errors node) (NodeType.fields typeDef));
        [by apply elem_of_nil in Hmsg|done]. }
    rewrite Hlen. simpl. apply list_elem_of_fmap. eexists. split; [|exact Hmsg].
    reflexivity.
  - intros conns conn -> Hconn.
    assert (Hc : ∀ msg,
               msg ∈ conn_errors (list_to_set (PathNode.id <$> nodes)) conn →
               msg ∈ path_errors nodes (Some conns)).
    { intros msg Hmsg. unfold path_errors. rewrite !elem_of_app.
      do 4 right. apply elem_of_flat_map. by exists conn. }
    split; intros Hmissing; apply Hc; unfold conn_errors; rewrite elem_of_app.
    + left. rewrite bool_decide_eq_false_2 by (by rewrite elem_of_list_to_set).
      apply elem_of_cons. by left.
    + right. rewrite bool_decide_eq_false_2 by (by rewrite elem_of_list_to_set).
      apply elem_of_cons. by left.
Qed.

Lemma validatePath_reports_every_defect_witness :
  ∃ result,
    validatePath (Some Cases.flawed_nodes) (Some Samples.dangling_connections)
    = Some result
    ∧ valid result = false
    ∧ "Learning path can only have one Start node" ∈ errors result
    ∧ "[Theory Unit] Title is required" ∈ errors result
    ∧ "Connection references non-existent target node: ghost" ∈ errors result.
Proof.
  destruct (validatePath_reports_every_defect Cases.flawed_nodes
              (Some Samples.dangling_connections))
    as (result & Hres & Hvalid & Hstart & _ & Hfield & Hconn).
  - done.
  - repeat constructor; by_decide.
  - repeat constructor; by eexists.
  - exists result. split; [done|].
    assert (Hmany : "Learning path can only have one Start node" ∈ errors result).
    { apply Hstart. vm_compute. lia. }
    split; [|split; [done|split]].
    + destruct (valid result) eqn:Hv; [|done].
      rewrite (proj1 Hvalid eq_refl) in Hmany. by apply elem_of_nil in Hmany.
    + apply (Hfield Cases.node_untitled "Theory Unit" theory
               (fld_req "title" "text" "Title")); try done.
      * unfold Cases.flawed_nodes. rewrite !elem_of_cons. auto.
      * apply elem_of_cons. by left.
    + apply (Hconn Samples.dangling_connections
               (Samples.conn "s" "next" "ghost" "prev") eq_refl).
      * apply elem_of_cons. by left.
      * by_decide.
Defined.
End validator_reports.

(** ** Invariants of the editor's graph *)

Section editor_invariants.
Import Editor EditorInv.

Lemma filter_all_elem {A} (P : A → Prop) `{!∀ x, Decision (P x)} (l : list A) :
  (∀ x, x ∈ l → P x) → filter P l = l.
Proof.
  induction l as [|x l IH]; intros Hall; [done|].
  rewrite filter_cons_True by (apply Hall; by left).
  f_equal. apply IH. intros y Hy. apply Hall. by right.
Qed.

(** What [addNode] does to the graph: nothing, or one node more. *)
Lemma addNode_graph now rnd type x y st :
  connections (addNode now rnd type x y st) = connections st
  ∧ nodeTypes (addNode now rnd type x y st) = nodeTypes st
  ∧ (addNode now rnd type x y st = st
     ∨ (∃ msg, addNode now rnd type x y st = toast msg "error" st)
     ∨ ∃ data,
         addNode now rnd type x y st
         = push_node now rnd type x y data st
         ∧ (∀ nt max, nodeTypes st !! type = Some nt →
                      NodeType.maxInstances nt = Some max → (0 < max)%nat →
                      (length (filter (λ n, PathNode.type n = type) (nodes st)) < max)%nat)).
Proof.
  unfold addNode.
  destruct (nodeTypes st !! type) as [nt|] eqn:Hnt.
  - destruct (NodeType.maxInstances nt) as [max|] eqn:Hmax.
    + cbv zeta. destruct (negb _ && _) eqn:Hcap.
      * repeat split; try done. right. left. by eexists.
      * repeat split; try done. right. right. eexists. split; [done|].
        intros nt' max' [= <-] Hm Hpos. rewrite Hmax in Hm. injection Hm as <-.
        apply andb_false_iff in Hcap as [Hz|Hle].
        -- apply negb_false_iff, Nat.eqb_eq in Hz. lia.
        -- apply Nat.leb_gt in Hle. lia.
    + repeat split; try done. right. right. eexists. split; [done|].
      intros nt' max' [= <-] Hm. congruence.
  - case_bool_decide.
    + split; [done|]. split; [done|]. right. right. eexists. split; [done|].
      intros nt' max' Hm. congruence.
    + split; [done|]. split; [done|]. by left.
Qed.

Lemma update_found_fmap {B} (g : PathNode.t → B) P f l :
  (∀ n, g (f n) = g n) → g <$> update_found P f l = g <$> l.
Proof.
  intros Hg. induction l as [|n l IH]; [done|]. cbn [update_found].
  destruct (P n); rewrite !fmap_cons; [by rewrite Hg|by rewrite IH].
Qed.

Lemma update_found_Forall (Q : PathNode.t → Prop) P f l :
  (∀ n, Q n → Q (f n)) → Forall Q l → Forall Q (update_found P f l).
Proof.
  intros Hf. induction 1 as [|n l Hn Hl IH]; simpl; [constructor|].
  destruct (P n); constructor; auto.
Qed.

Lemma update_found_Forall2 (R : PathNode.t → PathNode.t → Prop) P f l :
  (∀ n, R n n) → (∀ n, R n (f n)) → Forall2 R l (update_found P f l).
Proof.
  intros Hrefl Hf. induction l as [|n l IH]; simpl; [constructor|].
  destruct (P n); constructor; try done.
  clear -Hrefl. induction l; constructor; auto.
Qed.

(** What a write into the data of a node does to the graph: ids,
    types and positions stay, connections stay. *)
Lemma updateField_graph name value st :
  PathNode.id <$> nodes (updateField name value st) = PathNode.id <$> nodes st
  ∧ PathNode.type <$> nodes (updateField name value st) = PathNode.type <$> nodes st
  ∧ connections (updateField name value st) = connections st
  ∧ nodeTypes (updateField name value st) = nodeTypes st
  ∧ Forall2 (λ n n', PathNode.x n' = PathNode.x n ∧ PathNode.y n' = PathNode.y n)
      (nodes st) (nodes (updateField name value st)).
Proof.
  assert (Hsame : Forall2 (λ n n', PathNode.x n' = PathNode.x n
                                   ∧ PathNode.y n' = PathNode.y n) (nodes st) (nodes st)).
  { induction (nodes st); by constructor. }
  unfold updateField. destruct (selectedNodeId st) as [sel|]; [|done].
  destruct (existsb _ _); cbv zeta; [|done].
  unfold nodes. simpl. rewrite !update_found_fmap by done.
  repeat split; try done. by apply update_found_Forall2.
Qed.

Lemma moveNode_graph nodeId x y st :
  PathNode.id <$> nodes (moveNode nodeId x y st) = PathNode.id <$> nodes st
  ∧ PathNode.type <$> nodes (moveNode nodeId x y st) = PathNode.type <$> nodes st
  ∧ connections (moveNode nodeId x y st) = connections st
  ∧ nodeTypes (moveNode nodeId x y st) = nodeTypes st.
Proof.
  unfold moveNode. destruct (existsb _ _); cbv zeta; simpl; [|done].
  unfold nodes. simpl. by rewrite !update_found_fmap.
Qed.

Lemma closed_mono st st' :
  closed st →
  (∀ c, c ∈ connections st' → c ∈ connections st) →
  (∀ i, i ∈ ids st → i ∈ ids st') →
  closed st'.
Proof. intros Hcl Hc Hi c Hin. destruct (Hcl c (Hc c Hin)). split; auto. Qed.

Lemma deleteNode_closed nodeId st : closed st → closed (deleteNode nodeId st).
Proof.
  intros Hcl c. rewrite deleteNode_connections, list_elem_of_filter.
  intros [[Hfrom Hto] Hc]. destruct (Hcl c Hc) as [Hf Ht].
  unfold ids in *. rewrite deleteNode_nodes.
  split; apply list_elem_of_fmap.
  - apply list_elem_of_fmap in Hf as (n & Heq & Hn). exists n. split; [done|].
    apply list_elem_of_filter. split; [congruence|done].
  - apply list_elem_of_fmap in Ht as (n & Heq & Hn). exists n. split; [done|].
    apply list_elem_of_filter. split; [congruence|done].
Qed.

(** Property X2.  If both ends of every connection are nodes on the canvas, they
    still are after any mutation of the editor; a connection is drawn
    between nodes that are on the canvas. *)
Theorem editor_keeps_connections_closed (o : Editor.op) (st : Editor.t) :
  closed st → drawable o st → closed (Editor.apply o st).
Proof.
  intros Hcl Hdraw.
  destruct o as [now rnd type x y|nodeId|nodeId|f fp t tp|f fp t tp|name value
                |nodeId x y|e k s]; simpl.
  - destruct (addNode_graph now rnd type x y st) as (Hc & _ & [-> | [[msg ->] | [d [-> _]]]]);
      try done.
    apply (closed_mono st); [done|done|].
    intros i Hi. unfold ids, push_node, nodes. simpl.
    rewrite fmap_app. apply elem_of_app. by left.
  - by apply deleteNode_closed.
  - done.
  - destruct (occupied_dec st t tp) as [Hocc|Hfree].
    + by destruct (addConnection_rejected st f fp t tp (or_introl Hocc)) as [-> | ->].
    + intros c. rewrite (addConnection_accepted _ _ _ _ _ Hfree).
      assert (Hids : ids (addConnection f fp t tp st) = ids st).
      { unfold addConnection. cbv zeta. by repeat case_match. }
      rewrite Hids. intros [Hc | ->%list_elem_of_singleton]%elem_of_app.
      * by apply Hcl.
      * exact Hdraw.
  - apply (closed_mono st); [done| |done].
    intros c. unfold removeConnection, connections. simpl.
    rewrite list_elem_of_filter. tauto.
  - destruct (updateField_graph name value st) as (Hi & _ & Hc & _).
    apply (closed_mono st); [done|by rewrite Hc|]. unfold ids. by rewrite Hi.
  - destruct (moveNode_graph nodeId x y st) as (Hi & _ & Hc & _).
    apply (closed_mono st); [done|by rewrite Hc|]. unfold ids. by rewrite Hi.
  - done.
Qed.

Lemma editor_keeps_connections_closed_witness :
  closed (Editor.apply (DeleteNode "t")
            (Editor.mk None Samples.scenario ∅ None false [])).
Proof.
  apply editor_keeps_connections_closed; [|done].
  intros c Hc. each_elem Hc; split; by_decide.
Defined.

(** [Math.round(x / 10) * 10] is on the grid, at most 5 away. *)
Lemma snap_near (x : Z) : (10 | snap x) ∧ x - 4 ≤ snap x ≤ x + 5.
Proof.
  unfold snap. split; [apply Z.divide_factor_r|].
  pose proof (Z.div_mod (x + 5) 10 ltac:(lia)).
  pose proof (Z.mod_pos_bound (x + 5) 10 ltac:(lia)). lia.
Qed.

Lemma same_place_on_grid (l l' : list PathNode.t) :
  Forall2 (λ n n', PathNode.x n' = PathNode.x n ∧ PathNode.y n' = PathNode.y n) l l' →
  Forall (λ n, (10 | PathNode.x n) ∧ (10 | PathNode.y n)) l →
  Forall (λ n, (10 | PathNode.x n) ∧ (10 | PathNode.y n)) l'.
Proof.
  induction 1 as [|n n' l l' [Hx Hy] _ IH]; intros Hgrid; [constructor|].
  apply Forall_cons in Hgrid as [[? ?] Hgrid]. constructor; [|by apply IH].
  by rewrite Hx, Hy.
Qed.

(** Property X3.  The snapped value of an integer coordinate [x] that a double
    holds exactly (it lies strictly between [-2^53] and [2^53]) is a
    multiple of 10 between [x - 4] and [x + 5], and is again such an
    integer; and if every node sits on the 10-unit grid, every node
    still does after any mutation of the editor that places or moves a
    node at coordinates of that kind. *)
Theorem editor_keeps_nodes_on_grid :
  (∀ x, safe x = true →
        (10 | snap x) ∧ x - 4 ≤ snap x ≤ x + 5 ∧ safe (snap x) = true)
  ∧ (∀ (o : Editor.op) (st : Editor.t),
       placeable o → on_grid st → on_grid (Editor.apply o st)).
Proof.
  split.
  { intros x Hx. destruct (snap_near x) as [[k Hk] Hnear].
    split; [by exists k|]. split; [done|].
    unfold safe in *. apply andb_true_iff in Hx as [Hlo Hhi].
    apply Z.ltb_lt in Hlo, Hhi. apply andb_true_iff.
    change (2 ^ 53) with 9007199254740992 in *.
    split; apply Z.ltb_lt; lia. }
  unfold on_grid. intros o st _ Hgrid.
  destruct o as [now rnd type x y|nodeId|nodeId|f fp t tp|f fp t tp|name value
                |nodeId x y|e k s]; simpl.
  - destruct (addNode_graph now rnd type x y st) as (_ & _ & [-> | [[msg ->] | [d [-> _]]]]);
      try done.
    unfold push_node, nodes. simpl. apply Forall_app. split; [done|].
    apply Forall_singleton. simpl. split; apply snap_near.
  - rewrite deleteNode_nodes. rewrite Forall_forall in *.
    intros n [_ Hn]%list_elem_of_filter. by apply Hgrid.
  - done.
  - unfold addConnection. cbv zeta. by repeat case_match.
  - done.
  - destruct (updateField_graph name value st) as (_ & _ & _ & _ & Hxy).
    by apply (same_place_on_grid _ _ Hxy).
  - unfold moveNode. destruct (existsb _ _); [|done]. cbv zeta. unfold nodes. simpl.
    apply update_found_Forall; [|done]. intros n _. simpl. split; apply snap_near.
  - done.
Qed.

Lemma editor_keeps_nodes_on_grid_witness :
  snap 13 = 10
  ∧ (10 | snap (2 ^ 53 - 1))
  ∧ on_grid (Editor.run [MoveNode "s" 13 (-27); AddNode 7 "ab" "theory" 101 55]
               Samples.started_editor).
Proof.
  destruct editor_keeps_nodes_on_grid as [Hsnap Hinv].
  split; [done|]. split; [by apply Hsnap|].
  apply Hinv; [done|]. apply Hinv; [done|].
  apply Forall_singleton. split; by exists 0.
Defined.

End editor_invariants.

(** ** Drawing and removing a connection *)

Section editor_graph.
Import Editor EditorInv.

Lemma removeConnection_connections fromId fromPort toId toPort st :
  connections (removeConnection fromId fromPort toId toPort st)
  = filter (λ c, c ≠ Connection.mk fromId fromPort toId toPort) (connections st).
Proof.
  unfold removeConnection. simpl. apply list_filter_iff. intros [f fp t tp]. simpl.
  split.
  - intros Hne [= -> -> -> ->]. by apply Hne.
  - intros Hne (-> & -> & -> & ->). by apply Hne.
Qed.

(** Property X4.  After [removeConnection] a connection is listed exactly when
    it was listed before and is not the one removed.  When the input
    port was free, [addConnection] followed by [removeConnection] of
    the same four values restores the list of connections. *)
Theorem removeConnection_undoes_addConnection
    (st : Editor.t) (fromId fromPort toId toPort : string) :
  (∀ c, c ∈ connections (removeConnection fromId fromPort toId toPort st)
        ↔ c ∈ connections st ∧ c ≠ Connection.mk fromId fromPort toId toPort)
  ∧ (¬ occupied st toId toPort →
     connections (removeConnection fromId fromPort toId toPort
                    (addConnection fromId fromPort toId toPort st))
     = connections st).
Proof.
  split.
  - intros c. rewrite removeConnection_connections, list_elem_of_filter. tauto.
  - intros Hfree.
    rewrite removeConnection_connections, (addConnection_accepted _ _ _ _ _ Hfree).
    rewrite filter_app, filter_cons_False, filter_nil, app_nil_r
      by (intros H; by apply H).
    apply filter_all_elem.
    intros c Hc ->. apply Hfree. by eexists.
Qed.

Lemma removeConnection_undoes_addConnection_witness :
  connections (removeConnection "s" "next" "t" "prev"
                 (addConnection "s" "next" "t" "prev" Samples.started_editor))
  = [].
Proof.
  apply (removeConnection_undoes_addConnection Samples.started_editor).
  intros (c & Hc & _). vm_compute in Hc. by apply elem_of_nil in Hc.
Defined.

End editor_graph.

(** ** The dirty flag and the instance caps *)

Section editor_more.
Import Editor EditorInv.

(** Property X5.  A mutation of the editor that changes the path data leaves
    the [dirty] flag set, and no mutation clears the flag. *)
Theorem editor_marks_changes_dirty (o : Editor.op) (st : Editor.t) :
  (pathData (Editor.apply o st) ≠ pathData st → dirty (Editor.apply o st) = true)
  ∧ (dirty st = true → dirty (Editor.apply o st) = true).
Proof.
  destruct o as [now rnd type x y|nodeId|nodeId|f fp t tp|f fp t tp|name value
                |nodeId x y|e k s]; simpl.
  - destruct (addNode_graph now rnd type x y st) as (_ & _ & [-> | [[msg ->] | [d [-> _]]]]);
      by split.
  - by split.
  - by split.
  - unfold addConnection. cbv zeta. repeat case_match; by split.
  - by split.
  - unfold updateField. repeat case_match; by split.
  - unfold moveNode. repeat case_match; by split.
  - by split.
Qed.

Lemma editor_marks_changes_dirty_witness :
  dirty (Editor.apply (MoveNode "s" 30 40) Samples.started_editor) = true.
Proof.
  apply (proj1 (editor_marks_changes_dirty (MoveNode "s" 30 40) Samples.started_editor)).
  intros Heq. vm_compute in Heq. congruence.
Defined.

Lemma count_type_fmap (type : string) (l l' : list PathNode.t) :
  PathNode.type <$> l' = PathNode.type <$> l →
  length (filter (λ n, PathNode.type n = type) l')
  = length (filter (λ n, PathNode.type n = type) l).
Proof.
  revert l'. induction l as [|n l IH]; intros [|n' l'] Heq; try done.
  rewrite !fmap_cons in Heq. injection Heq as Hty Heq.
  rewrite !filter_cons, Hty. case_decide; simpl; by rewrite (IH l').
Qed.

Lemma length_filter_le {A} (P Q : A → Prop) `{!∀ x, Decision (P x)}
    `{!∀ x, Decision (Q x)} (l : list A) :
  (length (filter P (filter Q l)) ≤ length (filter P l))%nat.
Proof.
  induction l as [|x l IH]; [done|].
  rewrite !filter_cons. repeat (case_decide; simpl; rewrite ?filter_cons); simpl; lia.
Qed.

(** Property X6.  If no capped node type has more instances than its cap, the
    same holds after any mutation of the editor. *)
Theorem editor_keeps_instance_caps (o : Editor.op) (st : Editor.t) :
  within_caps st → within_caps (Editor.apply o st).
Proof.
  intros Hcaps.
  assert (Hsame : ∀ st', nodeTypes st' = nodeTypes st →
                         PathNode.type <$> nodes st' = PathNode.type <$> nodes st →
                         within_caps st').
  { intros st' Hnt Hty type nt max. rewrite Hnt, (count_type_fmap _ _ _ Hty).
    apply Hcaps. }
  destruct o as [now rnd type x y|nodeId|nodeId|f fp t tp|f fp t tp|name value
                |nodeId x y|e k s]; simpl.
  - destruct (addNode_graph now rnd type x y st)
      as (_ & Hnt & [-> | [[msg ->] | [d [Hadd Hroom]]]]); try done.
    intros type' nt max. rewrite Hnt, Hadd. intros Hty Hmax Hpos.
    unfold push_node, nodes. simpl. rewrite filter_app, length_app, filter_cons, filter_nil.
    specialize (Hcaps type' nt max Hty Hmax Hpos). unfold nodes in Hcaps.
    case_decide as Heq; simpl in *; [|lia].
    subst type'. specialize (Hroom nt max Hty Hmax Hpos). unfold nodes in Hroom. lia.
  - intros type nt max Hty Hmax Hpos. rewrite deleteNode_nodes.
    assert (Hnt : nodeTypes (deleteNode nodeId st) = nodeTypes st).
    { unfold deleteNode. cbv zeta. by case_bool_decide. }
    rewrite Hnt in Hty.
    etrans; [apply length_filter_le|]. by apply (Hcaps type nt max).
  - done.
  - apply Hsame; unfold addConnection; cbv zeta; by repeat case_match.
  - by apply Hsame.
  - destruct (updateField_graph name value st) as (_ & Hty & _ & Hnt & _). by apply Hsame.
  - destruct (moveNode_graph nodeId x y st) as (_ & Hty & _ & Hnt). by apply Hsame.
  - by apply Hsame.
Qed.

Lemma editor_keeps_instance_caps_witness :
  within_caps (Editor.apply (AddNode 5 "zz" "start" 0 0) Samples.started_editor).
Proof.
  apply editor_keeps_instance_caps.
  intros type nt max Hty Hmax Hpos.
  change (nodes Samples.started_editor) with [Samples.node_s].
  rewrite filter_cons, filter_nil. case_decide as Heq; simpl; [|lia].
  lia.
Defined.
End editor_more.

(** ** Writing a field; adding and deleting a node *)

Section editor_writes.
Import Editor EditorInv.

(** Writing through the first node found changes that one place. *)
Lemma update_found_insert (P : PathNode.t → Prop) `{!∀ n, Decision (P n)}
    (f : PathNode.t → PathNode.t) (l : list PathNode.t) (i : nat) (n : PathNode.t) :
  list_find P l = Some (i, n) →
  update_found (λ n, bool_decide (P n)) f l = <[i := f n]> l.
Proof.
  revert i. induction l as [|m l IH]; intros i Hfind; [done|].
  simpl in *. case_decide as Hm.
  - injection Hfind as <- <-. by rewrite bool_decide_eq_true_2.
  - rewrite bool_decide_eq_false_2 by done.
    destruct (list_find P l) as [[j n']|] eqn:Hl; [|done].
    injection Hfind as <- <-. simpl. f_equal. by apply IH.
Qed.

Lemma existsb_elem_of_ids (sel : string) (l : list PathNode.t) :
  existsb (λ n, bool_decide (PathNode.id n = sel)) l = true ↔ sel ∈ PathNode.id <$> l.
Proof.
  rewrite existsb_true_iff, list_elem_of_fmap. split.
  - intros (n & Hn & Heq%bool_decide_eq_true). by exists n.
  - intros (n & -> & Hn). exists n. split; [done|]. by apply bool_decide_eq_true.
Qed.

(** Property X7.  [updateField] rewrites the first node that has the selected
    id, and only that node: the field is written, the other fields,
    the id, the type and the position of the node are kept, and so are
    all other nodes and the connections.  With no selection, or a
    selected id that no node has, the state is unchanged. *)
Theorem updateField_writes_selected_node
    (st : Editor.t) (fieldName : string) (value : json) :
  (∀ sel i n,
     selectedNodeId st = Some sel →
     list_find (λ n, PathNode.id n = sel) (nodes st) = Some (i, n) →
     ∃ n',
       nodes (updateField fieldName value st) = <[i := n']> (nodes st)
       ∧ PathNode.field fieldName n' = Some value
       ∧ (∀ k, k ≠ fieldName → PathNode.field k n' = PathNode.field k n)
       ∧ PathNode.id n' = PathNode.id n ∧ PathNode.type n' = PathNode.type n
       ∧ PathNode.x n' = PathNode.x n ∧ PathNode.y n' = PathNode.y n
       ∧ connections (updateField fieldName value st) = connections st)
  ∧ (selectedNodeId st = None
     ∨ (∃ sel, selectedNodeId st = Some sel ∧ sel ∉ ids st) →
     updateField fieldName value st = st).
Proof.
  split.
  - intros sel i n Hsel Hfind. unfold updateField. rewrite Hsel.
    pose proof Hfind as (Hi & Hid & _)%list_find_Some.
    assert (Hex : existsb (λ n, bool_decide (PathNode.id n = sel)) (nodes st) = true).
    { apply existsb_elem_of_ids. rewrite <-Hid.
      apply list_elem_of_fmap_2. by eapply list_elem_of_lookup_2. }
    rewrite Hex. cbv zeta. eexists. unfold nodes at 1. simpl.
    split; [by apply update_found_insert|].
    unfold PathNode.field. simpl. split; [by rewrite lookup_insert_eq|].
    split; [|done].
    intros k Hk. rewrite lookup_insert_ne by done.
    by destruct (PathNode.data n).
  - intros [Hnone | (sel & Hsel & Hnot)]; unfold updateField.
    + by rewrite Hnone.
    + rewrite Hsel.
      destruct (existsb _ _) eqn:Hex; [|done].
      by apply existsb_elem_of_ids in Hex.
Qed.

Lemma updateField_writes_selected_node_witness :
  ∃ n',
    nodes (updateField "title" (JStr "Welcome")
             (selectNode (Some "s") Samples.started_editor)) = [n']
    ∧ PathNode.field "title" n' = Some (JStr "Welcome").
Proof.
  destruct (updateField_writes_selected_node
              (selectNode (Some "s") Samples.started_editor) "title" (JStr "Welcome"))
    as [Hwrite _].
  destruct (Hwrite "s" 0%nat Samples.node_s eq_refl eq_refl) as (n' & Hnodes & Hfield & _).
  by exists n'.
Defined.

(** Property X8.  When the type is registered and its cap not reached, no
    connection dangles and the generated id is new, [addNode] followed
    by [deleteNode] of the new node restores the nodes and the
    connections, and leaves nothing selected. *)
Theorem deleteNode_undoes_addNode
    (st : Editor.t) (now : N) (rnd type : string) (x y : Z) (nt : NodeType.t) :
  nodeTypes st !! type = Some nt →
  ¬ cap_reached type nt st →
  closed st →
  new_node_id now rnd ∉ ids st →
  nodes (deleteNode (new_node_id now rnd) (addNode now rnd type x y st)) = nodes st
  ∧ connections (deleteNode (new_node_id now rnd) (addNode now rnd type x y st))
    = connections st
  ∧ selectedNodeId (deleteNode (new_node_id now rnd) (addNode now rnd type x y st))
    = None.
Proof.
  intros Hnt Hfree Hcl Hfresh.
  assert (Hadd : addNode now rnd type x y st
                 = push_node now rnd type x y (NodeType.fields nt) st).
  { unfold addNode. rewrite Hnt.
    pose proof (cap_reached_dec type nt st) as Hdec.
    destruct (NodeType.maxInstances nt) as [max|]; [|done]. cbv zeta.
    destruct (negb _ && _); [|done]. destruct Hfree. by apply Hdec. }
  rewrite Hadd. split; [|split].
  - rewrite deleteNode_nodes. unfold push_node, nodes. simpl.
    rewrite filter_app, filter_cons_False, filter_nil, app_nil_r
      by (intros H; by apply H).
    apply filter_all_elem. intros n Hn Heq. apply Hfresh. rewrite <-Heq.
    by apply list_elem_of_fmap_2.
  - rewrite deleteNode_connections. unfold push_node, connections. simpl.
    apply filter_all_elem. intros c Hc.
    destruct (Hcl c Hc) as [Hf Ht]. split; intros Heq; apply Hfresh; congruence.
  - unfold deleteNode, push_node. cbv zeta. simpl.
    by rewrite bool_decide_eq_true_2.
Qed.

Lemma deleteNode_undoes_addNode_witness :
  nodes (deleteNode (new_node_id 9 "q1") (addNode 9 "q1" "theory" 3 3 Samples.started_editor))
  = [Samples.node_s].
Proof.
  refine (proj1 (deleteNode_undoes_addNode Samples.started_editor 9 "q1" "theory" 3 3
                   NodeTypes.theory eq_refl _ _ _)).
  - intros (max & Hmax & _). vm_compute in Hmax. done.
  - intros c Hc. vm_compute in Hc. by apply elem_of_nil in Hc.
  - by_decide.
Defined.
End editor_writes.

(** ** Labels of the canvas *)

Section labels.
Import Label.

(** Property X9.  For a length of at least 1, [truncate] never returns more
    than [len] code units: a string that fits is returned as it is, a
    longer one is cut to its first [len - 1] units followed by the
    ellipsis, which makes [len] units. *)
Theorem truncate_fits {A} (ellipsis : A) (str : list A) (len : Z) :
  1 ≤ len →
  Z.of_nat (length (truncate ellipsis str len)) ≤ len
  ∧ (Z.of_nat (length str) ≤ len → truncate ellipsis str len = str)
  ∧ (len < Z.of_nat (length str) →
     truncate ellipsis str len = take (Z.to_nat (len - 1)) str ++ [ellipsis]
     ∧ Z.of_nat (length (truncate ellipsis str len)) = len).
Proof.
  intros Hlen. unfold truncate, substring0.
  destruct (Z.ltb_spec len (Z.of_nat (length str))) as [Hlong|Hfits].
  - rewrite length_app, length_take. simpl. repeat split; lia.
  - repeat split; try done; lia.
Qed.

Lemma truncate_fits_witness :
  length (truncate "~"%char (String.list_ascii_of_string "Introduction to Graphs") 16) = 16%nat.
Proof.
  destruct (truncate_fits "~"%char (String.list_ascii_of_string "Introduction to Graphs") 16
              ltac:(lia)) as (_ & _ & Hlong).
  apply Nat2Z.inj. apply Hlong. vm_compute. done.
Defined.
End labels.

(** ** What the orders of the player hold *)

Section orders.

Lemma walkA_members fuel nodes connections visited ordered current result :
  Forall (λ n, n ∈ nodes) ordered →
  (∀ cur, current = Some cur → cur ∈ nodes) →
  PlayerA.walk fuel nodes connections visited ordered current = Some result →
  Forall (λ n, n ∈ nodes) result.
Proof.
  revert visited ordered current.
  induction fuel as [|fuel IH]; intros visited ordered current Hord Hcur; simpl.
  - destruct current as [cur|]; [|by intros [= <-]].
    case_bool_decide; [by intros [= <-]|done].
  - destruct current as [cur|]; [|by intros [= <-]].
    case_bool_decide; [by intros [= <-]|].
    cbv zeta.
    set (ordered' := if bool_decide _ then ordered ++ [cur] else ordered).
    assert (Hord' : Forall (λ n, n ∈ nodes) ordered').
    { subst ordered'. case_bool_decide; [|done].
      apply Forall_app. split; [done|]. apply Forall_singleton. by apply Hcur. }
    destruct (filter _ connections) as [|nextConn outs]; [by intros [= <-]|].
    apply IH; [done|].
    intros next Hnext. by apply array_find_Some in Hnext as [? _].
Qed.

(** Property X10.  [buildNodeOrder] returns on every path; each entry of the
    order is a node of the path and not a Start node; when the ids of
    the nodes are distinct, no node is listed twice. *)
Theorem buildNodeOrder_entries (data : PathData.t) :
  ∃ order,
    PlayerA.buildNodeOrder data = Some order
    ∧ Forall (λ n, n ∈ PathData.nodes data ∧ PathNode.type n ≠ "start") order
    ∧ (NoDup (PathNode.id <$> PathData.nodes data) → NoDup (PathNode.id <$> order)).
Proof.
  destruct (buildNodeOrder_total data) as [order Horder]. exists order.
  split; [done|]. revert Horder. unfold PlayerA.buildNodeOrder. cbv zeta.
  destruct (array_find _ _) as [startNode|] eqn:Hstart.
  - destruct (PlayerA.walk _ _ _ _ _ _) as [walked|] eqn:Hwalk; [|done]. simpl.
    pose proof (walkA_keys _ _ _ _ _ _ _ (NoDup_nil_2 : NoDup (PathNode.id <$> []))
                  (Forall_nil_2 _) Hwalk) as [Hnd Hty].
    assert (Hin : Forall (λ n, n ∈ PathData.nodes data) walked).
    { eapply walkA_members; [apply Forall_nil_2| |exact Hwalk].
      intros cur [= <-]. by apply array_find_Some in Hstart as [? _]. }
    destruct (length walked =? 0)%nat; intros [= <-].
    + split.
      * apply Forall_forall. intros n [Hn ?]%list_elem_of_filter. by split.
      * apply NoDup_fmap_filter.
    + split; [|done]. rewrite Forall_forall in *. intros n Hn. split; auto.
  - intros [= <-]. split.
    + apply Forall_forall. intros n [[Hn _] ?]%list_elem_of_filter. by split.
    + apply NoDup_fmap_filter.
Qed.

Lemma buildNodeOrder_entries_witness :
  ∃ order,
    PlayerA.buildNodeOrder Cases.cycle_path = Some order
    ∧ NoDup (PathNode.id <$> order).
Proof.
  destruct (buildNodeOrder_entries Cases.cycle_path) as (order & Horder & _ & Hnd).
  exists order. split; [done|]. apply Hnd. by_decide.
Defined.




(** Two paths on which the second listing leaves its tables: one with
    a node called [__proto__], and one with a connection that leads to
    [constructor], where [nodeMap] finds a function that is no node. *)
Lemma buildTraversalOrder_escapes :
  PlayerB.buildTraversalOrder Cases.proto_path = PlayerB.Escapes
  ∧ PlayerB.buildTraversalOrder Cases.stray_path = PlayerB.Escapes.
Proof. split; by vm_compute. Qed.


End orders.

(** ** What a session of the first listing keeps *)

Section session_a_invariants.
Import PlayerA SessionA.

#[local] Instance fixedA_refl : Reflexive fixedA.
Proof. by repeat split. Qed.
#[local] Instance fixedA_trans : Transitive fixedA.
Proof. intros a b c (? & ? & ?) (? & ? & ?). repeat split; congruence. Qed.



Lemma updateProgress_sane st :
  saneA st → fixedA st (updateProgress st) ∧ saneA (updateProgress st)
             ∧ currentIndex (updateProgress st) = currentIndex st.
Proof. done. Qed.




End session_a_invariants.

(** ** What a session of the second listing keeps *)

Section session_b_invariants.
Import PlayerB SessionB.

#[local] Instance fixedB_refl : Reflexive fixedB.
Proof. by split. Qed.
#[local] Instance fixedB_trans : Transitive fixedB.
Proof. intros a b c [? ?] [? ?]. split; congruence. Qed.

#[local] Instance keepsB_refl : Reflexive keepsB.
Proof. by split. Qed.
#[local] Instance keepsB_trans : Transitive keepsB.
Proof. intros a b c [? ?] [? ?]. split; [by etrans|auto]. Qed.













End session_b_invariants.

(** ** Sessions: index, posts and statuses *)







(** ** Sessions of the first listing: the active entry *)

Section one_active_entry.
Import PlayerA SessionA.

Lemma sendXapi_view verb node st :
  orderedNodes (sendXapi verb node st) = orderedNodes st
  ∧ currentIndex (sendXapi verb node st) = currentIndex st
  ∧ nodeStates (sendXapi verb node st) = nodeStates st.
Proof. unfold sendXapi. by destruct (_ || _). Qed.

Lemma status_alter (f : NodeState → NodeState) (id k : string)
    (m : gmap string NodeState) :
  state_status <$> alter f id m !! k
  = if decide (k = id) then state_status ∘ f <$> m !! id
    else state_status <$> m !! k.
Proof.
  case_decide as Heq.
  - rewrite Heq, lookup_alter_eq. by destruct (m !! id).
  - by rewrite lookup_alter_ne.
Qed.

Lemma markCompleted_view n st :
  orderedNodes (markCompleted (Some n) st) = orderedNodes st
  ∧ currentIndex (markCompleted (Some n) st) = currentIndex st
  ∧ ∀ m, status_of (markCompleted (Some n) st) m = Some Active →
         PathNode.id m ≠ PathNode.id n ∧ status_of st m = Some Active.
Proof.
  unfold markCompleted.
  destruct (sendXapi_view "completed" n
              (with_nodeStates (alter (set_status Completed) (PathNode.id n)
                                  (nodeStates st)) st)) as (Ho & Hi & Hs).
  split; [by rewrite Ho|]. split; [by rewrite Hi|].
  intros m. unfold status_of at 1. rewrite Hs. simpl.
  rewrite status_alter. case_decide; [|done].
  by destruct (nodeStates st !! PathNode.id n).
Qed.

Lemma NoDup_ids_index (l : list PathNode.t) i j n m :
  NoDup (PathNode.id <$> l) → l !! i = Some n → l !! j = Some m →
  PathNode.id n = PathNode.id m → i = j.
Proof.
  intros Hnd Hi Hj Heq.
  apply (NoDup_lookup _ i j (PathNode.id n) Hnd); rewrite list_lookup_fmap.
  - by rewrite Hi.
  - rewrite Hj. simpl. by rewrite Heq.
Qed.

Lemma navigateTo_one_active now index st :
  NoDup (PathNode.id <$> orderedNodes st) →
  one_active st → one_active (navigateTo now index st).
Proof.
  intros Hnd Hone. unfold navigateTo.
  destruct ((index <? 0) || _) eqn:Hout; [done|].
  cbv zeta.
  set (previous := orderedNodes st !! currentIndex st).
  set (st1 := if _ && _ then markCompleted previous st else st).
  assert (H1 : orderedNodes st1 = orderedNodes st
               ∧ ∀ i n, orderedNodes st !! i = Some n →
                        status_of st1 n = Some Active → i = Z.to_nat index).
  { subst st1. destruct (bool_decide _ && _) eqn:Hcond.
    - apply andb_true_iff in Hcond as [Hne Hact].
      apply bool_decide_eq_true in Hne, Hact.
      destruct previous as [p|] eqn:Hp; [|done].
      destruct (markCompleted_view p st) as (Ho & _ & Hs).
      split; [done|]. intros i n Hi Hn. apply Hs in Hn as [Hid Hn].
      pose proof (Hone i n Hi Hn) as ->. subst previous. congruence.
    - split; [done|]. intros i n Hi Hn. pose proof (Hone i n Hi Hn) as ->.
      apply andb_false_iff in Hcond as [Heq | Hact].
      + apply bool_decide_eq_false in Heq. by destruct (decide (currentIndex st = Z.to_nat index)).
      + apply bool_decide_eq_false in Hact. subst previous. rewrite Hi in Hact.
        simpl in Hact. unfold status_of in Hn. done. }
  destruct H1 as [Ho1 H1].
  change (orderedNodes (with_currentIndex (Z.to_nat index) st1)) with (orderedNodes st1).
  destruct (orderedNodes st1 !! Z.to_nat index) as [node|] eqn:Hnode.
  2:{ intros i n Hi Hn. simpl in *. rewrite Ho1 in Hi. by apply (H1 i n). }
  set (st3 := with_nodeStates _ (with_currentIndex (Z.to_nat index) st1)).
  destruct (sendXapi_view "launched" node st3) as (Ho4 & Hi4 & Hs4).
  set (st4 := sendXapi "launched" node st3) in *.
  assert (H4 : ∀ i n, orderedNodes st !! i = Some n →
                      status_of st4 n = Some Active → i = Z.to_nat index).
  { intros i n Hi Hn. unfold status_of in Hn. rewrite Hs4 in Hn.
    subst st3. simpl in Hn. rewrite status_alter in Hn. case_decide as Hid.
    - rewrite Ho1 in Hnode. by apply (NoDup_ids_index _ _ _ _ _ Hnd Hi Hnode).
    - by apply (H1 i n). }
  assert (H5 : orderedNodes (renderContent node st4) = orderedNodes st
               ∧ currentIndex (renderContent node st4) = Z.to_nat index
               ∧ ∀ i n, orderedNodes st !! i = Some n →
                        status_of (renderContent node st4) n = Some Active →
                        i = Z.to_nat index).
  { unfold renderContent. case_bool_decide.
    - destruct (markCompleted_view node st4) as (Ho & Hi & Hs).
      destruct (sendXapi_view "completed" node (markCompleted (Some node) st4))
        as (Ho' & Hi' & Hs').
      split; [by rewrite Ho', Ho, Ho4|]. split; [by rewrite Hi', Hi, Hi4|].
      intros i n Hin Hn. unfold status_of in Hn. rewrite Hs' in Hn.
      apply Hs in Hn as [_ Hn]. by apply (H4 i n).
    - split; [by rewrite Ho4|]. split; [by rewrite Hi4|]. done. }
  destruct H5 as (Ho5 & Hi5 & H5).
  intros i n Hi Hn. simpl in *. rewrite Ho5 in Hi. rewrite Hi5. by apply (H5 i n).
Qed.

Lemma handle_one_active now e st :
  NoDup (PathNode.id <$> orderedNodes st) →
  one_active st → one_active (handle now e st).
Proof.
  intros Hnd Hone.
  assert (Hmark : ∀ n, NoDup (PathNode.id <$> orderedNodes (markCompleted (Some n) st))
                       ∧ one_active (markCompleted (Some n) st)).
  { intros n. destruct (markCompleted_view n st) as (Ho & Hi & Hs).
    split; [by rewrite Ho|]. intros i m Him Hm. rewrite Ho in Him. rewrite Hi.
    apply Hs in Hm as [_ Hm]. by apply (Hone i m). }
  assert (Hnext : one_active (next now st)).
  { unfold next. cbv zeta.
    destruct (orderedNodes st !! currentIndex st) as [n|].
    - destruct (Hmark n) as [Hnd' Hone'].
      destruct (_ <? _); [|done]. by apply navigateTo_one_active.
    - simpl. destruct (_ <? _); [|done]. by apply navigateTo_one_active. }
  destruct e as [| | |portName|index]; simpl; try done.
  - unfold prev. destruct (0 <? _)%nat; [|done]. by apply navigateTo_one_active.
  - unfold chooseBranch.
    destruct (orderedNodes st !! currentIndex st) as [node|] eqn:Hnode; [|done].
    cbv zeta. destruct (_ ≫= _) as [targetIdx|]; [|done].
    destruct (Hmark node) as [Hnd' Hone']. by apply navigateTo_one_active.
  - by apply navigateTo_one_active.
Qed.

Lemma init_states_pending (l : list PathNode.t) (m : gmap string NodeState) id s :
  (∀ id s, m !! id = Some s → state_status s = Pending) →
  fold_left (λ m node, <[PathNode.id node := mkState Pending None None]> m) l m !! id
  = Some s →
  state_status s = Pending.
Proof.
  revert m. induction l as [|n l IH]; intros m Hm; simpl; [apply Hm|].
  apply IH. intros id' s'. destruct (decide (PathNode.id n = id')) as [->|Hne].
  - rewrite lookup_insert_eq. by intros [= <-].
  - rewrite lookup_insert_ne by done. apply Hm.
Qed.

(** Property X15.  In a session of the first listing on a path with distinct
    node ids, an entry whose status is [active] is the current entry:
    at most one entry is active at a time. *)
Theorem playerA_one_entry_active
    (data : PathData.t) (st : PlayerA.t) (events : list (string * PlayerA.event)) :
  NoDup (PathNode.id <$> PathData.nodes data) →
  PlayerA.load data = Some st →
  one_active (PlayerA.run events st).
Proof.
  intros Hnd Hload.
  pose proof (load_well_keyed data st Hnd Hload) as (Hids & _ & _).
  assert (Hone : one_active st).
  { revert Hload. unfold load. destruct (buildNodeOrder data) as [ordered|]; [|done].
    simpl. intros [= <-]. intros i n Hi Hn. exfalso. revert Hn.
    unfold status_of. simpl.
    destruct (_ !! PathNode.id n) as [s|] eqn:Hs; [|done]. simpl. intros [= Hact].
    assert (Hempty : ∀ id s, (∅ : gmap string NodeState) !! id = Some s →
                             state_status s = Pending).
    { intros id s'. by rewrite lookup_empty. }
    pose proof (init_states_pending _ _ _ _ Hempty Hs).
    congruence. }
  unfold run. clear Hload. revert st Hids Hone.
  induction events as [|[now e] events IH]; intros st Hids Hone; [done|].
  simpl. apply IH.
  - destruct (handle_shape now e st) as [-> _]. done.
  - by apply handle_one_active.
Qed.

Lemma playerA_one_entry_active_witness :
  ∃ st, PlayerA.load Samples.scenario = Some st
        ∧ one_active
            (PlayerA.run [("t1", PlayerA.Next); ("t2", PlayerA.Select 0);
                          ("t3", PlayerA.Next)] st).
Proof.
  destruct (buildNodeOrder_total Samples.scenario) as [order Horder].
  eexists. split.
  - unfold PlayerA.load. rewrite Horder. reflexivity.
  - apply (playerA_one_entry_active Samples.scenario).
    + by_decide.
    + unfold PlayerA.load. rewrite Horder. reflexivity.
Defined.
End one_active_entry.

(** ** Escaping and durations *)

Section escaping.
Import Html.

Lemma append_cons (c : ascii) (x y : string) : String c x +:+ y = String c (x +:+ y).
Proof. reflexivity. Qed.

Lemma string_append_assoc (x y z : string) : (x +:+ y) +:+ z = x +:+ (y +:+ z).
Proof. induction x as [|c x IH]; [done|]. by rewrite !append_cons, IH. Qed.

Lemma replace_all_append c e (a b : string) :
  replace_all c e (a +:+ b) = replace_all c e a +:+ replace_all c e b.
Proof.
  induction a as [|d a IH]; [done|]. rewrite append_cons. simpl.
  destruct (Ascii.eqb d c); rewrite IH; [|done].
  by rewrite string_append_assoc.
Qed.

Lemma append_nil_l (x : string) : "" +:+ x = x.
Proof. reflexivity. Qed.

Lemma entity_cases (c : ascii) :
  (c = "&"%char ∧ entity c = "&amp;")
  ∨ (c = "<"%char ∧ entity c = "&lt;")
  ∨ (c = ">"%char ∧ entity c = "&gt;")
  ∨ (c = quote ∧ entity c = "&quot;")
  ∨ (Ascii.eqb c "&" = false ∧ Ascii.eqb c "<" = false
     ∧ Ascii.eqb c ">" = false ∧ Ascii.eqb c quote = false
     ∧ entity c = String c "").
Proof.
  unfold entity.
  destruct (Ascii.eqb_spec c "&"); [by left|].
  destruct (Ascii.eqb_spec c "<"); [by right; left|].
  destruct (Ascii.eqb_spec c ">"); [by right; right; left|].
  destruct (Ascii.eqb_spec c quote); [by right; right; right; left|].
  by right; right; right; right.
Qed.

Lemma esc_cons (c : ascii) (s : string) : esc (String c s) = entity c +:+ esc s.
Proof.
  destruct (entity_cases c)
    as [[-> He] | [[-> He] | [[-> He] | [[-> He] | (H1 & H2 & H3 & H4 & He)]]]];
    rewrite He; [reflexivity..|].
  unfold esc. simpl. rewrite H1. simpl. rewrite H2. simpl. rewrite H3. simpl.
  by rewrite H4.
Qed.

Lemma escAttr_cons (c : ascii) (s : string) :
  escAttr (String c s) = entity c +:+ escAttr s.
Proof.
  destruct (entity_cases c)
    as [[-> He] | [[-> He] | [[-> He] | [[-> He] | (H1 & H2 & H3 & H4 & He)]]]];
    rewrite He; [reflexivity..|].
  unfold escAttr. simpl. rewrite H1. simpl. rewrite H4. simpl. rewrite H2. simpl.
  by rewrite H3.
Qed.

Lemma entity_harmless (c : ascii) : Storage.every harmless (entity c) = true.
Proof.
  destruct (entity_cases c)
    as [[-> He] | [[-> He] | [[-> He] | [[-> He] | (H1 & H2 & H3 & H4 & He)]]]];
    rewrite He; [reflexivity..|].
  simpl. unfold harmless. by rewrite H2, H3, H4.
Qed.

Lemma entity_starts (c : ascii) : ∃ d r, entity c = String d r.
Proof.
  destruct (entity_cases c)
    as [[_ He] | [[_ He] | [[_ He] | [[_ He] | (_ & _ & _ & _ & He)]]]];
    rewrite He; by eexists _, _.
Qed.

Lemma esc_inj (s s' : string) : esc s = esc s' → s = s'.
Proof.
  revert s'. induction s as [|c s IH]; intros [|c' s'].
  - done.
  - rewrite esc_cons. destruct (entity_starts c') as (d & r & ->). done.
  - rewrite esc_cons. destruct (entity_starts c) as (d & r & ->). done.
  - rewrite !esc_cons.
    destruct (entity_cases c)
      as [[-> He] | [[-> He] | [[-> He] | [[-> He] | (H1 & H2 & H3 & H4 & He)]]]];
      destruct (entity_cases c')
        as [[-> He'] | [[-> He'] | [[-> He'] | [[-> He']
           | (H1' & H2' & H3' & H4' & He')]]]];
      rewrite ?He, ?He', ?append_cons, ?append_nil_l;
      try done;
      try (intros [= Heq]; by rewrite (IH _ Heq));
      try (intros [= Hc _]; subst; done).
    intros [= -> Heq]. by rewrite (IH _ Heq).
Qed.

(** Property X16.  [esc] and [escAttr] agree on every string.  The escaped text
    holds no [<], no [>] and no double quote; a string with none of
    the four special characters is returned as it is; and different
    strings have different escaped texts. *)
Theorem escaping_is_safe_and_lossless (s : string) :
  escAttr s = esc s
  ∧ Storage.every harmless (esc s) = true
  ∧ (Storage.every (λ c, harmless c && negb (Ascii.eqb c "&")) s = true → esc s = s)
  ∧ (∀ s', esc s' = esc s → s' = s).
Proof.
  split; [|split; [|split]].
  - induction s as [|c s IH]; [done|]. by rewrite esc_cons, escAttr_cons, IH.
  - induction s as [|c s IH]; [done|].
    by rewrite esc_cons, every_append, entity_harmless, IH.
  - induction s as [|c s IH]; [done|]. simpl.
    intros [[Hc Hamp]%andb_true_iff Hs]%andb_true_iff.
    rewrite esc_cons, (IH Hs). unfold entity, harmless in *.
    apply negb_true_iff in Hamp. rewrite Hamp.
    apply andb_true_iff in Hc as [[H1 H2]%andb_true_iff H3].
    apply negb_true_iff in H1, H2, H3. by rewrite H1, H2, H3.
  - intros s'. apply esc_inj.
Qed.

Lemma escaping_is_safe_and_lossless_witness :
  esc "Graphs 101" = "Graphs 101"
  ∧ Storage.every harmless (esc "<b>Tom & Jerry</b>") = true.
Proof.
  split.
  - by apply (escaping_is_safe_and_lossless "Graphs 101").
  - apply (escaping_is_safe_and_lossless "<b>Tom & Jerry</b>").
Defined.
End escaping.

Section durations.
Import Duration.

(** Property X17.  For a difference of [ms >= 0] milliseconds, [formatDuration]
    prints hours, minutes and seconds with minutes and seconds between
    0 and 59 and [hours * 3600 + mins * 60 + secs] the whole seconds
    of [ms]; the hours are left out exactly when they are 0. *)
Theorem formatDuration_counts_whole_seconds (ms : Z) :
  0 ≤ ms →
  ∃ hours mins secs,
    fields ms = (hours, mins, secs)
    ∧ 0 ≤ hours ∧ 0 ≤ mins < 60 ∧ 0 ≤ secs < 60
    ∧ hours * 3600 + mins * 60 + secs = ms / 1000
    ∧ formatDuration ms
      = "PT" +:+ (if hours =? 0 then "" else pretty hours +:+ "H")
             +:+ pretty mins +:+ "M" +:+ pretty secs +:+ "S".
Proof.
  intros Hms. unfold formatDuration, fields, js_rem. cbv zeta.
  eexists _, _, _. split; [reflexivity|].
  assert (0 ≤ ms / 1000) by (apply Z.div_pos; lia).
  assert (0 ≤ ms / 1000 / 60) by (apply Z.div_pos; lia).
  assert (0 ≤ ms / 1000 / 60 / 60) by (apply Z.div_pos; lia).
  rewrite !Z.rem_mod_nonneg by lia.
  pose proof (Z.mod_pos_bound (ms / 1000) 60 ltac:(lia)).
  pose proof (Z.mod_pos_bound (ms / 1000 / 60) 60 ltac:(lia)).
  pose proof (Z.div_mod (ms / 1000) 60 ltac:(lia)).
  pose proof (Z.div_mod (ms / 1000 / 60) 60 ltac:(lia)).
  repeat split; try lia. 
Qed.

Lemma formatDuration_counts_whole_seconds_witness :
  formatDuration 3723999 = "PT1H2M3S".
Proof.
  destruct (formatDuration_counts_whole_seconds 3723999 ltac:(lia))
    as (hours & mins & secs & Hfields & _ & _ & _ & _ & ->).
  vm_compute in Hfields. by injection Hfields as <- <- <-.
Defined.
End durations.

(** ** Storage: one file per path *)

Section storage_files.
Import Storage.
Variable PATHS_DIR : list string.

Lemma safeId_clean (id : string) : every allowed id = true → safeId id = id.
Proof.
  induction id as [|c r IH]; simpl; [done|].
  intros [Hc Hr]%andb_true_iff. by rewrite Hc, IH.
Qed.

Lemma append_inj_l (a b s : string) : a +:+ s = b +:+ s → a = b.
Proof.
  revert b. induction a as [|c a IH]; intros [|d b] Heq; simpl in *; try done.
  - exfalso. apply (f_equal String.length) in Heq.
    rewrite ?length_append in Heq. simpl in Heq. rewrite ?length_append in Heq. lia.
  - exfalso. apply (f_equal String.length) in Heq.
    rewrite ?length_append in Heq. simpl in Heq. rewrite ?length_append in Heq. lia.
  - injection Heq as -> Heq. f_equal. by apply IH.
Qed.

(** Property X18.  Two different ids made of letters, digits, underscores and
    hyphens only are kept in different files. *)
Theorem filePath_distinct_for_clean_ids (id id' : string) :
  Forall plain PATHS_DIR →
  every allowed id = true → every allowed id' = true →
  id ≠ id' →
  _filePath PATHS_DIR id ≠ _filePath PATHS_DIR id'.
Proof.
  intros Hdir Hid Hid' Hne. rewrite !filePath_plain_dir by done.
  intros Heq%app_inv_head. injection Heq as Heq.
  apply append_inj_l in Heq. by rewrite !safeId_clean in Heq.
Qed.

(** Property X19.  [create], [update] and [delete] write the file of the id
    they are given, and [duplicate] writes the file of the id drawn for
    the copy: for an id kept in another file than the one written,
    [get] returns after the call what it returned before. *)
Theorem storage_touches_one_file
    (id other uuid now : string) (data : document) (fs : files) :
  (_filePath PATHS_DIR other ≠ _filePath PATHS_DIR id →
   get PATHS_DIR other (create PATHS_DIR id now data fs).1 = get PATHS_DIR other fs
   ∧ (∀ fs' updated, update PATHS_DIR id now data fs = Resolved (fs', updated) →
                     get PATHS_DIR other fs' = get PATHS_DIR other fs)
   ∧ (∀ fs', delete PATHS_DIR id fs = Resolved fs' →
             get PATHS_DIR other fs' = get PATHS_DIR other fs))
  ∧ (_filePath PATHS_DIR other ≠ _filePath PATHS_DIR uuid →
     ∀ fs' copy, duplicate PATHS_DIR id uuid now fs = Resolved (fs', copy) →
                 get PATHS_DIR other fs' = get PATHS_DIR other fs).
Proof.
  unfold get. split; [intros Hne; split; [|split]|intros Hne].
  - simpl. by rewrite lookup_insert_ne.
  - intros fs' updated. unfold update, get.
    destruct (fs !! _filePath PATHS_DIR id); [|done].
    intros [= <- _]. by rewrite lookup_insert_ne.
  - intros fs'. unfold delete.
    destruct (fs !! _filePath PATHS_DIR id); [|done].
    intros [= <-]. by rewrite lookup_delete_ne.
  - intros fs' copy. unfold duplicate, get.
    destruct (fs !! _filePath PATHS_DIR id) as [original|]; [|done].
    destruct (to_str_opt (original !! "title")); [|done].
    intros [= <- _]. simpl. by rewrite lookup_insert_ne.
Qed.

(** Property X20.  After [delete] has resolved, [get] and a second [delete] of
    the same id reject with [ENOENT]; [get] rejects with [ENOENT]
    exactly when [delete] does; and deleting a path just created under
    a free file name restores the data directory. *)
Theorem delete_then_get_is_not_found (id : string) (fs : files) :
  (∀ fs', delete PATHS_DIR id fs = Resolved fs' →
          get PATHS_DIR id fs' = Rejected "ENOENT"
          ∧ delete PATHS_DIR id fs' = Rejected "ENOENT")
  ∧ (get PATHS_DIR id fs = Rejected "ENOENT" ↔ delete PATHS_DIR id fs = Rejected "ENOENT")
  ∧ (∀ now data,
       fs !! _filePath PATHS_DIR id = None →
       delete PATHS_DIR id (create PATHS_DIR id now data fs).1 = Resolved fs).
Proof.
  split; [|split].
  - intros fs'. unfold delete, get.
    destruct (fs !! _filePath PATHS_DIR id); [|done].
    intros [= <-]. by rewrite !lookup_delete_eq.
  - unfold get, delete. by destruct (fs !! _filePath PATHS_DIR id).
  - intros now data Hnew. unfold delete. simpl.
    rewrite lookup_insert_eq. f_equal. rewrite delete_insert_eq. by apply delete_id.
Qed.

(** Property X21.  [duplicate] of a stored path rejects with a [TypeError]
    when the title of the original does not print, and resolves when
    it does.  The copy it resolves with is a draft created and updated
    at the time of the copy, whatever the status and the dates of the
    original; the description and the record store are the original's;
    and the copy has the fields of a newly created path and no other. *)
Theorem duplicate_starts_as_draft
    (id uuid now : string) (fs : files) (original : document) :
  get PATHS_DIR id fs = Resolved original →
  (to_str_opt (original !! "title") = None →
   duplicate PATHS_DIR id uuid now fs = Rejected "TypeError")
  ∧ (is_Some (to_str_opt (original !! "title")) →
     ∃ fs' copy,
       duplicate PATHS_DIR id uuid now fs = Resolved (fs', copy)
       ∧ copy !! "status" = Some (JStr "draft")
       ∧ copy !! "createdAt" = Some (JStr now)
       ∧ copy !! "updatedAt" = Some (JStr now)
       ∧ copy !! "description" = Some (js_or (original !! "description") (JStr ""))
       ∧ copy !! "lrsConfig" = Some (js_or (original !! "lrsConfig") JNull)
       ∧ dom copy = dom (create PATHS_DIR uuid now ∅ fs).2).
Proof.
  intros Hget. unfold duplicate. rewrite Hget.
  split; [by intros ->|]. intros [title ->].
  eexists _, _. split; [reflexivity|].
  set (payload := set_prop "title" _ original).
  pose proof (create_fields PATHS_DIR uuid now payload fs) as Hf.
  assert (Hkeep : ∀ k, k ≠ "title" → payload !! k = original !! k).
  { intros k Hk. subst payload. simpl. by rewrite lookup_insert_ne. }
  split; [by rewrite Hf|]. split; [by rewrite Hf|]. split; [by rewrite Hf|].
  split; [rewrite Hf; simpl; by rewrite Hkeep|].
  split; [rewrite Hf; simpl; by rewrite Hkeep|].
  simpl. by rewrite !dom_insert_L.
Qed.

End storage_files.

Section storage_cases.
Import Storage Samples.

Lemma filePath_distinct_for_clean_ids_witness :
  _filePath data_dir "p1" ≠ _filePath data_dir "p2".
Proof.
  apply filePath_distinct_for_clean_ids; try done.
  repeat constructor; by_decide.
Defined.

Lemma storage_touches_one_file_witness :
  get data_dir "p1" (create data_dir "p2" some_time published_doc store).1
  = Resolved stored_doc
  ∧ ∃ fs' copy,
      duplicate data_dir "p1" some_uuid some_time store = Resolved (fs', copy)
      ∧ get data_dir "p1" fs' = Resolved stored_doc.
Proof.
  destruct (storage_touches_one_file data_dir "p2" "p1" some_uuid some_time
              published_doc store) as [Hwrite _].
  destruct (storage_touches_one_file data_dir "p1" "p1" some_uuid some_time
              published_doc store) as [_ Hcopy].
  split.
  - rewrite (proj1 (Hwrite ltac:(by vm_compute))). reflexivity.
  - eexists _, _. split; [reflexivity|].
    rewrite (Hcopy ltac:(by vm_compute) _ _ eq_refl). reflexivity.
Defined.

Lemma delete_then_get_is_not_found_witness :
  ∃ fs', delete data_dir "p1" store = Resolved fs'
         ∧ get data_dir "p1" fs' = Rejected "ENOENT".
Proof.
  eexists. split; [reflexivity|].
  by apply (proj1 (delete_then_get_is_not_found data_dir "p1" store)).
Defined.

Lemma duplicate_starts_as_draft_witness :
  (∃ fs' copy,
     duplicate data_dir "p1" some_uuid some_time store = Resolved (fs', copy)
     ∧ stored_doc !! "status" = Some (JStr "published")
     ∧ copy !! "status" = Some (JStr "draft"))
  ∧ duplicate data_dir "p3" some_uuid some_time Cases.saved_store
    = Rejected "TypeError".
Proof.
  split.
  - destruct (proj2 (duplicate_starts_as_draft data_dir "p1" some_uuid some_time store
                       stored_doc eq_refl) ltac:(by eexists))
      as (fs' & copy & Hdup & Hstatus & _).
    by exists fs', copy.
  - by apply (proj1 (duplicate_starts_as_draft data_dir "p3" some_uuid some_time
                       Cases.saved_store Cases.untitled_doc eq_refl)).
Defined.

End storage_cases.

(** ** The xAPI client: requests *)

Section xapi_requests.
Import Xapi Endpoint.

Lemma with_slash_cons (c : ascii) (r : string) :
  r ≠ "" → with_slash (String c r) = String c (with_slash r).
Proof. by destruct r. Qed.

Lemma with_slash_unslashed (endpoint : string) :
  endpoint ≠ "" → last_char endpoint ≠ Some "/"%char →
  with_slash endpoint = endpoint +:+ "/".
Proof.
  induction endpoint as [|c r IH]; [done|]. intros _.
  destruct r as [|d r].
  - simpl. by destruct (Ascii.eqb_spec c "/") as [->|Hc].
  - intros Hlast. rewrite with_slash_cons by done.
    change (String c (String d r) +:+ "/") with (String c (String d r +:+ "/")).
    by rewrite IH.
Qed.

Lemma with_slash_slashed (endpoint : string) :
  with_slash (endpoint +:+ "/") = endpoint +:+ "/".
Proof.
  induction endpoint as [|c r IH]; [done|].
  change (String c r +:+ "/") with (String c (r +:+ "/")).
  rewrite with_slash_cons; [by rewrite IH|]. by destruct r.
Qed.

(** Property X23.  [sendStatement] makes at most one request; the request is a
    POST of the statement, with version 1.0.3, to the URL built from
    the configured endpoint, which is not empty; and a result with
    [stored] true comes from a response to that request whose status
    code is in [200, 300). *)
Theorem sendStatement_stores_only_on_success
    (net : Network) (lrsConfig : option (gmap string json)) (statement : json) :
  (length (sendStatement net lrsConfig statement).2 ≤ 1)%nat
  ∧ (∀ req, req ∈ (sendStatement net lrsConfig statement).2 →
       req_method req = "POST" ∧ req_version req = "1.0.3"
       ∧ req_body req = statement
       ∧ ∃ cfg endpoint,
           lrsConfig = Some cfg ∧ cfg !! "endpoint" = Some (JStr endpoint)
           ∧ endpoint ≠ ""
           ∧ url_parse net "statements" (with_slash endpoint) = Some (req_url req))
  ∧ (∀ result, (sendStatement net lrsConfig statement).1 = Resolved result →
       stored result = true →
       ∃ req code data,
         (sendStatement net lrsConfig statement).2 = [req]
         ∧ request net req = Response code data
         ∧ 200 ≤ code < 300
         ∧ statusCode result = Some code ∧ response result = Some data).
Proof.
  unfold sendStatement.
  destruct lrsConfig as [cfg|]; simpl;
    [|split; [lia|split; [by intros ? ?%elem_of_nil|by intros ? [= <-]]]].
  destruct (truthy_opt (cfg !! "endpoint")) eqn:Htruthy; simpl;
    [|split; [lia|split; [by intros ? ?%elem_of_nil|by intros ? [= <-]]]].
  destruct (cfg !! "endpoint") as [[| | |endpoint| |]|] eqn:Hep; simpl;
    try (split; [lia|split; [by intros ? ?%elem_of_nil|by intros ? [=]]]).
  assert (Hne : endpoint ≠ "") by (by intros ->).
  destruct (url_parse net "statements" (with_slash endpoint)) as [url|] eqn:Hurl; simpl;
    [|split; [lia|split; [by intros ? ?%elem_of_nil|by intros ? [=]]]].
  destruct (credentials cfg) as [auth|]; simpl;
    [|split; [lia|split; [by intros ? ?%elem_of_nil|by intros ? [=]]]].
  set (req := mkRequest url "POST" "1.0.3" auth statement).
  assert (Hreq : ∀ r, r ∈ [req] →
            req_method r = "POST" ∧ req_version r = "1.0.3" ∧ req_body r = statement
            ∧ ∃ cfg' endpoint',
                Some cfg = Some cfg' ∧ cfg' !! "endpoint" = Some (JStr endpoint')
                ∧ endpoint' ≠ ""
                ∧ url_parse net "statements" (with_slash endpoint') = Some (req_url r)).
  { intros r ->%list_elem_of_singleton. do 3 (split; [done|]). by exists cfg, endpoint. }
  destruct (request net req) as [msg|msg|code data] eqn:Hout; simpl;
    (split; [lia|split; [done|]]); intros result; [done| by intros [= <-] |].
  intros [= <-]. simpl. intros [Hlo Hhi]%andb_true_iff.
  exists req, code, data. split; [done|]. split; [done|].
  apply Z.leb_le in Hlo. apply Z.ltb_lt in Hhi. split; [lia|done].
Qed.

Lemma sendStatement_stores_only_on_success_witness :
  ∃ req,
    (sendStatement Cases.accepting_net
       (Some (Cases.lrs_at "http://lrs.example.com/xapi")) (JStr "statement")).2 = [req]
    ∧ request Cases.accepting_net req = Response 204 "".
Proof.
  destruct (sendStatement_stores_only_on_success Cases.accepting_net
              (Some (Cases.lrs_at "http://lrs.example.com/xapi")) (JStr "statement"))
    as (_ & _ & Hstored).
  destruct (Hstored (mkSend true (Some 204) (Some "") None) eq_refl eq_refl)
    as (req & code & data & Hreqs & Hout & _).
  exists req. split; [done|]. reflexivity.
Defined.

(** Property X24.  An endpoint that does not end with a slash may be configured
    with one appended: [sendStatement] settles the same way and makes
    the same request. *)
Theorem sendStatement_ignores_trailing_slash
    (net : Network) (cfg : gmap string json) (endpoint : string) (statement : json) :
  endpoint ≠ "" → last_char endpoint ≠ Some "/"%char →
  sendStatement net (Some (<["endpoint" := JStr (endpoint +:+ "/")]> cfg)) statement
  = sendStatement net (Some (<["endpoint" := JStr endpoint]> cfg)) statement.
Proof.
  intros Hne Hlast. unfold sendStatement, credentials.
  rewrite !lookup_insert_eq, !lookup_insert_ne by done. simpl.
  rewrite with_slash_slashed, with_slash_unslashed by done.
  destruct endpoint as [|c r]; [done|]. reflexivity.
Qed.

Lemma sendStatement_ignores_trailing_slash_witness :
  sendStatement Cases.accepting_net (Some (Cases.lrs_at "http://lrs.example.com/xapi/"))
    (JStr "statement")
  = sendStatement Cases.accepting_net (Some (Cases.lrs_at "http://lrs.example.com/xapi"))
      (JStr "statement").
Proof.
  apply (sendStatement_ignores_trailing_slash Cases.accepting_net
           (list_to_map [("key", JStr "k"); ("secret", JStr "s")])
           "http://lrs.example.com/xapi"); by vm_compute.
Defined.
End xapi_requests.

(** ** The routes over the storage module *)

Section route_answers.
Import Storage Routes.
Variable PATHS_DIR : list string.
Variable message : string → string.

(** Property X25.  For an id without a stored file the routes that read, update
    and delete a path answer 404 [Not found]; the route that duplicates
    answers 500 with the message of the error; the data directory is
    left as it was. *)
Theorem routes_answer_missing_path
    (id uuid now : string) (data : document) (fs : files) :
  fs !! _filePath PATHS_DIR id = None →
  get_path PATHS_DIR message id fs = reply 404 (error_body "Not found")
  ∧ put_path PATHS_DIR message id now data fs
    = (reply 404 (error_body "Not found"), fs)
  ∧ delete_path PATHS_DIR message id fs = (reply 404 (error_body "Not found"), fs)
  ∧ duplicate_path PATHS_DIR message id uuid now fs
    = (reply 500 (error_body (message "ENOENT")), fs).
Proof.
  intros Hnone.
  unfold get_path, put_path, delete_path, duplicate_path, update, duplicate, delete, get.
  by rewrite Hnone.
Qed.

(** Property X26.  What a route wrote is what the read route returns: after a
    POST (201) and after a PUT on a stored id (200), GET answers 200
    with the body just returned; after a DELETE on a stored id (200,
    [success] true), GET answers 404. *)
Theorem routes_read_back_what_they_wrote
    (id uuid now : string) (data : document) (fs : files) :
  (code (post_path PATHS_DIR uuid now data fs).1 = 201%nat
   ∧ get_path PATHS_DIR message uuid (post_path PATHS_DIR uuid now data fs).2
     = reply 200 (body (post_path PATHS_DIR uuid now data fs).1))
  ∧ (is_Some (fs !! _filePath PATHS_DIR id) →
     code (put_path PATHS_DIR message id now data fs).1 = 200%nat
     ∧ get_path PATHS_DIR message id (put_path PATHS_DIR message id now data fs).2
       = reply 200 (body (put_path PATHS_DIR message id now data fs).1))
  ∧ (is_Some (fs !! _filePath PATHS_DIR id) →
     (delete_path PATHS_DIR message id fs).1
     = reply 200 (JObj {["success" := JBool true]})
     ∧ code (get_path PATHS_DIR message id (delete_path PATHS_DIR message id fs).2)
       = 404%nat).
Proof.
  split; [|split].
  - split; [done|]. unfold post_path, get_path. simpl. by rewrite get_after_write.
  - intros [existing Hex]. unfold put_path, update, get_path, get. rewrite Hex. simpl.
    by rewrite lookup_insert_eq.
  - intros [existing Hex]. unfold delete_path, delete, get_path, get. rewrite Hex. simpl.
    by rewrite lookup_delete_eq.
Qed.

End route_answers.

Section route_cases.
Import Storage Routes Samples.

Lemma routes_answer_missing_path_witness :
  get_path data_dir Cases.fs_message "nope" store
  = reply 404 (error_body "Not found")
  ∧ duplicate_path data_dir Cases.fs_message "nope" some_uuid some_time store
    = (reply 500 (error_body "ENOENT: no such file or directory"), store).
Proof.
  destruct (routes_answer_missing_path data_dir Cases.fs_message "nope" some_uuid
              some_time ∅ store eq_refl) as (Hget & _ & _ & Hdup).
  by split.
Defined.

Lemma routes_read_back_what_they_wrote_witness :
  get_path data_dir Cases.fs_message "p1"
    (put_path data_dir Cases.fs_message "p1" some_time renaming_payload store).2
  = reply 200
      (body (put_path data_dir Cases.fs_message "p1" some_time renaming_payload
               store).1).
Proof.
  apply (routes_read_back_what_they_wrote data_dir Cases.fs_message "p1" some_uuid
           some_time renaming_payload store).
  by eexists.
Defined.
End route_cases.

